(** * hll-go: a fixed-precision HyperLogLog sketch

    A shallow embedding of the Go package [hll] (the constructors, insert,
    estimate, merge, rollup, the protobuf boundary, and the bias generator
    with its checks, interpolation points, test sets and estimates),
    followed by the properties proved about it.

    Conventions.
    - A Go [uintN] is a [Z] in [0, 2^N); every conversion and every
      arithmetic operation that can wrap has its [mod 2^N] written out.
    - A Go [float64] is a [spec_float] with the IEEE 754 binary64 operations
      of the standard library ([prec = 53], [emax = 1024]).
    - A slice is a [list]; an index that is out of range is a run-time
      panic in Go and is shown as such ([None] or [Panic]).
    - The platform word ([uint], [int]) is 64 bits wide. *)

From Stdlib Require Import ZArith Lia Floats.SpecFloat Strings.Byte.
From stdpp Require Import base option list strings gmap.

Local Open Scope Z_scope.

(** ** Machine integers *)

Definition u8 (x : Z) : Z := x mod 2 ^ 8.
Definition u32 (x : Z) : Z := x mod 2 ^ 32.
Definition u64 (x : Z) : Z := x mod 2 ^ 64.

Definition is_u8 (x : Z) : Prop := 0 <= x < 2 ^ 8.
Definition is_u64 (x : Z) : Prop := 0 <= x < 2 ^ 64.

(** [math/bits]: [Len] is the minimum number of bits needed to represent
    its argument ([0] for [0]); [LeadingZeros x = UintSize - Len x]. *)

Definition uintSize : Z := 64.

Definition Len (x : Z) : Z := if x =? 0 then 0 else Z.log2 x + 1.

Definition LeadingZeros (x : Z) : Z := uintSize - Len x.

(** ** Constants of the package *)

Definition hashLength : Z := 64.
Definition precision : Z := 14.
Definition remnant : Z := hashLength - precision.
Definition currentVersion : string := "1".

Definition m : Z := 2 ^ precision.
Definition maxLinearCounting : Z := 11500.

(** (This translates to 14 0's, followed by 50 1's) *)
Definition bitMask : Z := Z.shiftl 1 remnant - 1.

Inductive error : Type :=
  | ErrorMismatchedVersion
  | ErrorMalformedPrecision
  | Errorf (msg : string).

(** What a call that may fail or panic produces. *)
Inductive outcome (A : Type) : Type :=
  | Ok (a : A)
  | Err (e : error)
  | Panic.
Arguments Ok {A} a.
Arguments Err {A} e.
Arguments Panic {A}.

(** The bias table lives in a file that defines its ticks, its store and
    its interpolation; the sketch only reads [maxTick] and calls
    [getInterpolatedBias], so the table is kept abstract here. *)
Record biases : Type := {
  maxTick : Z;
  getInterpolatedBias : Z -> spec_float
}.

Record sketch : Type := {
  biasSet : biases;
  registers : list Z;
  version : string
}.

Definition set_registers (s : sketch) (rs : list Z) : sketch :=
  {| biasSet := biasSet s; registers := rs; version := version s |}.

Definition set_version (s : sketch) (v : string) : sketch :=
  {| biasSet := biasSet s; registers := registers s; version := v |}.

Definition set_biasSet (s : sketch) (b : biases) : sketch :=
  {| biasSet := b; registers := registers s; version := version s |}.

(** A register array as every constructor of the package builds it. *)
Definition well_formed (s : sketch) : Prop :=
  length (registers s) = Z.to_nat m /\ Forall is_u8 (registers s).

(** ** float64 *)

Module Float64.
Definition prec : Z := 53.
Definition emax : Z := 1024.

Definition add : spec_float -> spec_float -> spec_float := SFadd prec emax.
Definition mul : spec_float -> spec_float -> spec_float := SFmul prec emax.
Definition div : spec_float -> spec_float -> spec_float := SFdiv prec emax.
Definition leb : spec_float -> spec_float -> bool := SFleb.

Definition zero : spec_float := S754_zero false.

(** [float64(x)] for an integer [x]: the nearest float, ties to even. *)
Definition of_Z (x : Z) : spec_float := binary_normalize prec emax x 0 false.

Definition one : spec_float := of_Z 1.
Definition two : spec_float := of_Z 2.

(** [math.Pow(2, float64(n) * -1)] for a register [n]: the conversion and
    the product by [-1] are exact, and [math.Pow] returns a power of two
    exactly (it scales [1] by the exponent). *)
Definition pow2_neg (n : Z) : spec_float := SFldexp prec emax one (- n).

(** The integer part of a finite float, towards zero. *)
Definition trunc (f : spec_float) : option Z :=
  match f with
  | S754_zero _ => Some 0
  | S754_finite s mx e =>
      let a := if 0 <=? e then Z.pos mx * 2 ^ e else Z.pos mx / 2 ^ (- e) in
      Some (if s then - a else a)
  | _ => None
  end.

(** [uint64(f)]: the integer part when it fits; Go leaves the result
    implementation-dependent otherwise (NaN, infinities, values out of
    range), which is [None] here. *)
Definition to_uint64 (f : spec_float) : option Z :=
  match trunc f with
  | Some t => if (0 <=? t) && (t <? 2 ^ 64) then Some t else None
  | None => None
  end.
End Float64.

(** [int(x)] for a [uint64] [x]: the same 64 bits read as two's complement. *)
Definition int_of_u64 (x : Z) : Z := if x <? 2 ^ 63 then x else x - 2 ^ 64.

(** ** Insert *)

(** getRegisterAndLeadingZeros returns the register to inc (bits [0..14])
    and the number of leading zeros in the remnant [14..]. *)
Definition getRegisterAndLeadingZeros (hash : Z) : Z * Z :=
  (Z.shiftr hash remnant, u8 (LeadingZeros (Z.land hash bitMask) - precision)).

Definition addHash (s : sketch) (h : Z) : option sketch :=
  let '(register, zeros) := getRegisterAndLeadingZeros h in
  let zeros := u8 (zeros + 1) in
  match registers s !! Z.to_nat register with
  | None => None
  | Some r =>
      if zeros <=? r then Some s
      else Some (set_registers s (<[Z.to_nat register := zeros]> (registers s)))
  end.

(** The leading-zero count of [x] inside a window of [w] bits, read off the
    bits themselves from the top of the window downwards. *)
Fixpoint window_leading_zeros (w : nat) (x : Z) : Z :=
  match w with
  | O => 0
  | S k => if Z.testbit x (Z.of_nat k) then 0 else 1 + window_leading_zeros k x
  end.

Section Insert.
(** [xxh3.Hash]. *)
Variable Hash : list byte -> Z.

(** Insert inserts element into the Sketch. *)
Definition Insert (s : sketch) (element : list byte) : option sketch :=
  let h := Hash element in
  addHash s h.

(** A run of Inserts, one element after the other. *)
Definition Insert_all (s : sketch) (elements : list (list byte)) : option sketch :=
  foldl (fun acc element =>
           match acc with
           | Some s' => Insert s' element
           | None => None
           end) (Some s) elements.
End Insert.

(** ** Merge *)

Definition merge_at (otherRegisters : list Z) (rs : list Z) (i : nat) : list Z :=
  match rs !! i, otherRegisters !! i with
  | Some thisZeros, Some otherZeros =>
      if thisZeros <? otherZeros then <[i := otherZeros]> rs else rs
  | _, _ => rs
  end.

(** [Merge s other] gives the state of the receiver [s] after the call and
    the error returned; the sketch returned by the Go method is the receiver
    itself when the error is [None] and [nil] otherwise. [other] is only
    read. The loop indexes both arrays below their common length. *)
Definition Merge (s other : sketch) : sketch * option error :=
  if negb (bool_decide (version s = version other)) then (s, Some ErrorMismatchedVersion)
  else
    let otherRegisters := registers other in
    if negb (length (registers s) =? length otherRegisters)%nat
    then (s, Some ErrorMalformedPrecision)
    else
      (set_registers s
         (foldl (merge_at otherRegisters) (registers s) (seq 0 (length (registers s)))),
       None).

(** ** Rollup *)

Section Rollup.
Variable defaultBiases : biases.

Definition createSketch : sketch :=
  {| biasSet := defaultBiases;
     registers := replicate (Z.to_nat m) 0;
     version := currentVersion |}.

(** The validation loop over [sketches[1:]]. *)
Fixpoint rollup_validate (firstVersion : string) (firstLen : nat)
    (rest : list sketch) : option error :=
  match rest with
  | [] => None
  | sk :: rest' =>
      if negb (bool_decide (version sk = firstVersion))
      then Some (Errorf "rollup requires a list of sketches with the same version")
      else if negb (length (registers sk) =? firstLen)%nat
      then Some (Errorf "rollup requires a list of sketches with the same precision (len of registers)")
      else rollup_validate firstVersion firstLen rest'
  end.

(** The inner loop: the highest entry at index [i] across [regs];
    [reg[i]] panics when [i] is out of range for [reg]. *)
Definition rollup_max (regs : list (list Z)) (i : nat) : option Z :=
  foldl (fun acc reg =>
           match acc, reg !! i with
           | Some max, Some r => Some (if max <? r then r else max)
           | _, _ => None
           end) (Some 0) regs.

(** The outer loop over [0 <= i < len(base.registers)]. *)
Definition rollup_fill (regs : list (list Z)) (base : list Z) : option (list Z) :=
  foldl (fun acc i =>
           match acc, rollup_max regs i with
           | Some b, Some max => Some (<[i := max]> b)
           | _, _ => None
           end) (Some base) (seq 0 (length base)).

Definition Rollup (sketches : list sketch) : outcome sketch :=
  match sketches with
  | [] => Err (Errorf "rollup requires a list of sketches")
  | first :: rest =>
      let firstVersion := version first in
      let firstLen := length (registers first) in
      match rollup_validate firstVersion firstLen rest with
      | Some e => Err e
      | None =>
          let base := createSketch in
          let base :=
            if negb (bool_decide (version base = firstVersion))
            then set_version base firstVersion else base in
          match rollup_fill (map registers sketches) (registers base) with
          | None => Panic
          | Some rs => Ok (set_registers base rs)
          end
      end
  end.
End Rollup.

(** ** Estimate *)

Section Estimate.
(** [math.Log]. *)
Variable Log : spec_float -> spec_float.

Import Float64.

(** This is a 'predictable' bias correction constant. *)
Definition alpha : spec_float := div one (mul two (Log two)).

Definition mf : spec_float := of_Z m.

(** The loop of rawHarmonicEstimate over the registers, carrying
    [(sum, registersUsed)]. *)
Definition harmonic_loop (rs : list Z) : spec_float * spec_float :=
  foldl (fun '(sum, registersUsed) n =>
           if n <=? 0 then (sum, registersUsed)
           else (add sum (pow2_neg n), add registersUsed one))
        (zero, zero) rs.

Definition rawHarmonicEstimate (s : sketch) : option Z :=
  let '(sum, registersUsed) := harmonic_loop (registers s) in
  if leb registersUsed zero then Some 0
  else to_uint64 (div (mul (mul alpha registersUsed) registersUsed) sum).

(** The loop of linearCounting: a float counter of the zero registers. *)
Definition zero_loop (rs : list Z) : spec_float :=
  foldl (fun registersUsed n =>
           if n <=? 0 then add registersUsed one else registersUsed)
        zero rs.

(** The float that linearCounting converts to [uint64]. *)
Definition linearCounting_value (s : sketch) : spec_float :=
  mul mf (Log (div mf (zero_loop (registers s)))).

Definition linearCounting (s : sketch) : option Z :=
  to_uint64 (linearCounting_value s).

Definition Estimate (s : sketch) : option Z :=
  match rawHarmonicEstimate s with
  | None => None
  | Some rawEstimate =>
      if maxTick (biasSet s) <? rawEstimate then Some rawEstimate
      else if rawEstimate <? maxLinearCounting then linearCounting s
      else to_uint64 (mul (getInterpolatedBias (biasSet s) (int_of_u64 rawEstimate))
                          (of_Z rawEstimate))
  end.
End Estimate.

(** ** The protobuf boundary *)

(** The wire encoding of protocol buffers, as the [proto] and [protowire]
    packages of the Go runtime implement it, for the one message this
    package exchanges. *)
Module Wire.
Definition byte_of_Z (z : Z) : byte :=
  default Byte.x00 (Byte.of_N (Z.to_N (z mod 256))).

Definition Z_of_byte (b : byte) : Z := Z.of_N (Byte.to_N b).

(** protowire.AppendVarint: base-128 groups, least significant first,
    the high bit set on every byte but the last. *)
Fixpoint appendVarint_groups (groups : nat) (v : Z) : list byte :=
  match groups with
  | O => [byte_of_Z v]
  | S k =>
      if v <? 128 then [byte_of_Z v]
      else byte_of_Z (v mod 128 + 128) :: appendVarint_groups k (v / 128)
  end.

Definition appendVarint (v : Z) : list byte := appendVarint_groups 9 v.

(** protowire.ConsumeVarint: at most ten bytes, the tenth at most [1]. *)
Fixpoint consumeVarint_from (left : nat) (shift acc : Z) (b : list byte)
    : option (Z * list byte) :=
  match left, b with
  | O, _ => None
  | _, [] => None
  | S k, y :: rest =>
      let v := Z_of_byte y in
      if v <? 128 then
        if (k =? 0)%nat && (1 <? v) then None
        else Some (acc + v * 2 ^ shift, rest)
      else consumeVarint_from k (shift + 7) (acc + (v - 128) * 2 ^ shift) rest
  end.

Definition consumeVarint (b : list byte) : option (Z * list byte) :=
  consumeVarint_from 10 0 0 b.

(** protowire.ConsumeFieldValue, used to step over a field the message
    does not declare: [0] varint, [1] fixed64, [2] length-delimited,
    [3]/[4] group start/end, [5] fixed32. *)
Fixpoint consumeFieldValue (fuel : nat) (num typ : Z) (b : list byte)
    : option (list byte) :=
  match typ with
  | 0 => snd <$> consumeVarint b
  | 1 => if (length b <? 8)%nat then None else Some (drop 8 b)
  | 2 =>
      match consumeVarint b with
      | Some (len, rest) =>
          if Z.of_nat (length rest) <? len then None
          else Some (drop (Z.to_nat len) rest)
      | None => None
      end
  | 3 =>
      (fix consumeGroup (fuel' : nat) (b' : list byte) {struct fuel'} :=
         match fuel' with
         | O => None
         | S f =>
             match consumeVarint b' with
             | Some (tag, rest) =>
                 let num' := Z.shiftr tag 3 in
                 let typ' := Z.land tag 7 in
                 if num' <? 1 then None
                 else if typ' =? 4 then
                   if num' =? num then Some rest else None
                 else
                   match
                     (match fuel with
                      | O => None
                      | S g => consumeFieldValue g num' typ' rest
                      end)
                   with
                   | Some rest' => consumeGroup f rest'
                   | None => None
                   end
             | None => None
             end
         end) fuel b
  | 5 => if (length b <? 4)%nat then None else Some (drop 4 b)
  | _ => None
  end.

(** Modelled from the spec: the generated message type of the package's
    [proto] directory is not among the sources. Its persisted form holds
    exactly the version (a string, field 1) and the registers (each
    widened to a 32-bit unsigned integer, a packed repeated field 2). *)
Record SketchPb : Type := {
  Version : string;
  Registers : list Z
}.

Section Codec.
(** The check the runtime applies to a string field (valid UTF-8 under
    proto3 syntax); marshalling and unmarshalling both fail on a string
    that does not pass it. *)
Variable validString : string -> bool.

Definition packVarints (vs : list Z) : list byte :=
  concat (map appendVarint vs).

Definition Marshal (msg : SketchPb) : option (list byte) :=
  if negb (validString (Version msg)) then None
  else
    let v := String.list_byte_of_string (Version msg) in
    let r := packVarints (Registers msg) in
    Some ((if bool_decide (v = []) then []
           else byte_of_Z 10 :: appendVarint (Z.of_nat (length v)) ++ v)
          ++
          (if bool_decide (Registers msg = []) then []
           else byte_of_Z 18 :: appendVarint (Z.of_nat (length r)) ++ r)).

(** The body of a packed field: varints until the bytes run out. *)
Fixpoint unpackVarints (fuel : nat) (b : list byte) : option (list Z) :=
  match b with
  | [] => Some []
  | _ :: _ =>
      match fuel with
      | O => None
      | S f =>
          match consumeVarint b with
          | Some (v, rest) => cons (u32 v) <$> unpackVarints f rest
          | None => None
          end
      end
  end.

Fixpoint unmarshal_fields (fuel : nat) (b : list byte) (msg : SketchPb)
    : option SketchPb :=
  match b with
  | [] => Some msg
  | _ :: _ =>
      match fuel with
      | O => None
      | S f =>
          match consumeVarint b with
          | None => None
          | Some (tag, rest) =>
              let num := Z.shiftr tag 3 in
              let typ := Z.land tag 7 in
              if (num <? 1) || (2 ^ 29 <=? num) then None
              else if (num =? 1) && (typ =? 2) then
                match consumeVarint rest with
                | Some (len, rest') =>
                    if Z.of_nat (length rest') <? len then None
                    else
                      let v := String.string_of_list_byte (take (Z.to_nat len) rest') in
                      if validString v then
                        unmarshal_fields f (drop (Z.to_nat len) rest')
                          {| Version := v; Registers := Registers msg |}
                      else None
                | None => None
                end
              else if (num =? 2) && (typ =? 2) then
                match consumeVarint rest with
                | Some (len, rest') =>
                    if Z.of_nat (length rest') <? len then None
                    else
                      match unpackVarints (Z.to_nat len) (take (Z.to_nat len) rest') with
                      | Some vs =>
                          unmarshal_fields f (drop (Z.to_nat len) rest')
                            {| Version := Version msg;
                               Registers := Registers msg ++ vs |}
                      | None => None
                      end
                | None => None
                end
              else if (num =? 2) && (typ =? 0) then
                match consumeVarint rest with
                | Some (v, rest') =>
                    unmarshal_fields f rest'
                      {| Version := Version msg;
                         Registers := Registers msg ++ [u32 v] |}
                | None => None
                end
              else
                match consumeFieldValue (length rest) num typ rest with
                | Some rest' => unmarshal_fields f rest'  msg
                | None => None
                end
          end
      end
  end.

Definition Unmarshal (b : list byte) : option SketchPb :=
  unmarshal_fields (length b) b {| Version := ""; Registers := [] |}.
End Codec.
End Wire.

Section Proto.
Variable defaultBiases : biases.
Variable validString : string -> bool.

(** ProtoSerialize returns an encoded protobuf version of this Sketch. *)
Definition ProtoSerialize (s : sketch) : outcome (list byte) :=
  let registerspb := map u32 (registers s) in
  match Wire.Marshal validString
          {| Wire.Version := version s; Wire.Registers := registerspb |} with
  | Some b => Ok b
  | None => Err (Errorf "proto: cannot marshal")
  end.

(** The loop [s.registers[i] = uint8(registerpb)] of ProtoDeserialize;
    the assignment panics once [i] reaches [len(s.registers)]. *)
Fixpoint fill_registers (i : nat) (pb : list Z) (rs : list Z) : option (list Z) :=
  match pb with
  | [] => Some rs
  | registerpb :: pb' =>
      if (i <? length rs)%nat
      then fill_registers (S i) pb' (<[i := u8 registerpb]> rs)
      else None
  end.

(** ProtoDeserialize returns a Sketch from an encoded protobuf version;
    [None] is the [nil] slice. *)
Definition ProtoDeserialize (protoBs : option (list byte)) : outcome sketch :=
  match protoBs with
  | None => Err (Errorf "cannot deserialize nil proto")
  | Some b =>
      match Wire.Unmarshal validString b with
      | None => Err (Errorf "proto: cannot parse invalid wire-format data")
      | Some sketchpb =>
          let s := createSketch defaultBiases in
          let s := set_version s (Wire.Version sketchpb) in
          match fill_registers 0 (Wire.Registers sketchpb) (registers s) with
          | Some rs => Ok (set_registers s rs)
          | None => Panic
          end
      end
  end.
End Proto.

(** ** The bias generator: options and interpolation points *)

Record GenerationOptions : Type := {
  MaxCardinality : Z;
  Repeats : Z;
  InitialStep : Z;
  StepRate : spec_float
}.

(** The checks GenerateBiases runs before any work; [fn_nil] says whether
    the sampler is [nil]. A comparison with a NaN is false. *)
Definition validate_options (fn_nil : bool) (options : GenerationOptions)
    : option error :=
  if fn_nil then Some (Errorf "invalid fn: must not be nil")
  else if MaxCardinality options <=? m
  then Some (Errorf "invalid options: maxCardinality must be greater than m (16384)")
  else if Repeats options <=? 0
  then Some (Errorf "invalid options: repeats must be greater than 0")
  else if InitialStep options <=? 0
  then Some (Errorf "invalid options: step must be greater than 0")
  else if Float64.leb (StepRate options) Float64.zero
  then Some (Errorf "invalid options: step rate must be greater than 0")
  else None.

(** The variables of the loop of calculateInterpolationPoints. *)
Record walk : Type := {
  walk_i : Z;
  walk_step : Z;
  walk_nextStepChange : Z;
  walk_ticks : list Z
}.

Inductive iteration : Type :=
  | Next (w : walk)
  | Done (ticks : list Z)
  | Unspecified.

Section InterpolationPoints.
Variable maxCardinality : Z.
Variable initialStep : Z.
Variable stepRate : spec_float.

Definition rangeLength : Z := maxCardinality / 10.

Definition walk_init : walk :=
  {| walk_i := 0;
     walk_step := u64 initialStep;
     walk_nextStepChange := rangeLength;
     walk_ticks := [] |}.

(** One pass through [for i := uint64(0); i < maxCardinality; i += step]:
    the test, the body, then the increment. [Unspecified] is a step whose
    conversion back to [uint64] Go leaves implementation-dependent. *)
Definition walk_iter (w : walk) : iteration :=
  if walk_i w <? maxCardinality then
    if walk_nextStepChange w <? walk_i w then
      match Float64.to_uint64 (Float64.mul (Float64.of_Z (walk_step w)) stepRate) with
      | Some step =>
          Next {| walk_i := u64 (walk_i w + step);
                  walk_step := step;
                  walk_nextStepChange := u64 (walk_nextStepChange w + rangeLength);
                  walk_ticks := walk_ticks w ++ [walk_i w] |}
      | None => Unspecified
      end
    else
      Next {| walk_i := u64 (walk_i w + walk_step w);
              walk_step := walk_step w;
              walk_nextStepChange := walk_nextStepChange w;
              walk_ticks := walk_ticks w ++ [walk_i w] |}
  else Done (walk_ticks w).

Fixpoint walk_run (fuel : nat) (w : walk) : option iteration :=
  match fuel with
  | O => None
  | S f =>
      match walk_iter w with
      | Next w' => walk_run f w'
      | r => Some r
      end
  end.

(** The state after [n] passes, while the loop keeps going. *)
Fixpoint walk_after (n : nat) (w : walk) : iteration :=
  match n with
  | O => Next w
  | S k =>
      match walk_after k w with
      | Next w' => walk_iter w'
      | r => r
      end
  end.

(** calculateInterpolationPoints with a bound on the number of passes:
    [None] when the bound is reached, [Some Panic] for [ticks[1:]] on an
    empty slice. *)
Definition calculateInterpolationPoints (fuel : nat) : option (outcome (list Z)) :=
  match walk_run fuel walk_init with
  | Some (Done ticks) =>
      Some (match ticks with [] => Panic | _ :: ticks' => Ok ticks' end)
  | Some _ => Some Panic
  | None => None
  end.
End InterpolationPoints.

(** ** Auxiliary definitions used in the statements *)

(** The register update of [addHash] on the array alone: register [i]
    becomes the larger of its value and [z]; [None] when [i] is out of
    range. *)
Definition bump (rs : list Z) (i : nat) (z : Z) : option (list Z) :=
  match rs !! i with
  | Some r => Some (<[i := Z.max r z]> rs)
  | None => None
  end.

(** The register index and the value [z] that a hash contributes. *)
Definition hash_index (h : Z) : nat := Z.to_nat (h / 2 ^ 50).
Definition hash_rank (h : Z) : Z := window_leading_zeros 50 (h mod 2 ^ 50) + 1.

(** ** Sample values *)

(** The all-zero bias table of TestNewCustomSketch (ticks [0..4]). *)
Definition testBiases : biases :=
  {| maxTick := 4; getInterpolatedBias := fun _ => S754_zero false |}.

(** A stand-in for the hash, with the type of [xxh3.Hash]. *)
Definition sampleHash (element : list byte) : Z :=
  u64 (foldl (fun acc b => acc * 1099511628211 + Z.of_N (Byte.to_N b))
             14695981039346656037 element).

(** A sketch with every register at [r]. *)
Definition uniformSketch (r : Z) : sketch :=
  set_registers (createSketch testBiases) (replicate (Z.to_nat m) r).

(** The highest entry at index [i] across the arrays [regs], from [0]. *)
Definition column_max (regs : list (list Z)) (i : nat) : Z :=
  foldl (fun acc reg => Z.max acc (default 0 (reg !! i))) 0 regs.

(** A sketch whose register array has a single entry, as
    TestRollup_DiffPrecision builds one. *)
Definition shortSketch : sketch :=
  {| biasSet := testBiases; registers := [0]; version := currentVersion |}.

(** The two inputs of TestRollup_DiffVersionToStandard, with every register
    of the first at [1] and of the second at [2]. *)
Definition rollupInputs : list sketch :=
  [set_version (uniformSketch 1) "TEST"; set_version (uniformSketch 2) "TEST"].

(** GenerateBiases up to and including [cardinalities := ...]: the checks,
    then the interpolation points. *)
Definition GenerateBiases_cardinalities (fn_nil : bool) (options : GenerationOptions)
    (fuel : nat) : option (outcome (list Z)) :=
  match validate_options fn_nil options with
  | Some e => Some (Err e)
  | None =>
      calculateInterpolationPoints (MaxCardinality options) (InitialStep options)
        (StepRate options) fuel
  end.

(** [0.5]. *)
Definition half : spec_float := Float64.div Float64.one Float64.two.

(** Options that pass every check of GenerateBiases, with a step rate
    below one. *)
Definition shrinkingOptions : GenerationOptions :=
  {| MaxCardinality := m + 1; Repeats := 1; InitialStep := 1; StepRate := half |}.

(** A stand-in for [math.Log]: it agrees with it at [1] (exactly [0]), at
    [2] (the float nearest to ln 2) and on the special cases the function
    documents ([Log(+Inf) = +Inf], [Log(0) = -Inf], [Log(x < 0) = NaN],
    [Log(NaN) = NaN]); elsewhere it is NaN. *)
Definition sampleLog (x : spec_float) : spec_float :=
  match x with
  | S754_finite false 4503599627370496 (-52) => S754_zero false
  | S754_finite false 4503599627370496 (-51) =>
      S754_finite false 6243314768165359 (-53)
  | S754_infinity false => S754_infinity false
  | S754_zero _ => S754_infinity true
  | _ => S754_nan
  end.

(** A custom table that covers every raw estimate and corrects it to
    nothing, in the manner of the all-zero table of TestNewCustomSketch. *)
Definition zeroBiases : biases :=
  {| maxTick := 1000000; getInterpolatedBias := fun _ => S754_zero false |}.

(** The string check of a runtime that accepts every string. *)
Definition anyString (v : string) : bool := true.

(** What ProtoSerialize returns, or no bytes when it fails. *)
Definition serialized (s : sketch) : list byte :=
  match ProtoSerialize anyString s with
  | Ok b => b
  | _ => []
  end.

(** ** Quantities the estimator's statements speak about *)

(** The registers that have been touched, and the two counts. *)
Definition nonzero_registers (rs : list Z) : list Z :=
  List.filter (fun n => 0 <? n) rs.

Definition count_nonzero (rs : list Z) : Z := Z.of_nat (length (nonzero_registers rs)).

Definition count_zero (rs : list Z) : Z :=
  Z.of_nat (length (List.filter (fun n => n <=? 0) rs)).

(** The sum of [2^(-r)] over the touched registers, added up in float64 in
    the order of the array. *)
Definition harmonic_sum (rs : list Z) : spec_float :=
  foldl (fun sum n => Float64.add sum (Float64.pow2_neg n)) Float64.zero
        (nonzero_registers rs).

(** The float64 nearest to ln 2, which is what [math.Log(2)] returns. *)
Definition ln2 : spec_float := S754_finite false 6243314768165359 (-53).

(** Structural equality of floats, and a bounded check of a predicate on
    the integers [k, k + n). *)
Definition sf_eqb (x y : spec_float) : bool :=
  match x, y with
  | S754_zero a, S754_zero b => Bool.eqb a b
  | S754_infinity a, S754_infinity b => Bool.eqb a b
  | S754_nan, S754_nan => true
  | S754_finite a m1 e1, S754_finite b m2 e2 =>
      Bool.eqb a b && Pos.eqb m1 m2 && Z.eqb e1 e2
  | _, _ => false
  end.

Fixpoint check_from (p : Z -> bool) (n : nat) (k : Z) : bool :=
  match n with
  | O => true
  | S n' => p k && check_from p n' (k + 1)
  end.

(** ** Ranges of float64 values used in the estimator's bounds *)

(** The float [mm * 2^e] lies between [2^-255] and [k / 2], with a
    negative exponent; values are compared after scaling by [2^1074]. *)
Definition in_sum_range (k mm e : Z) : Prop :=
  0 < mm /\ -1074 <= e <= -1 /\
  2 ^ 819 <= mm * 2 ^ (e + 1074) <= k * 2 ^ 1073.

(** The float [mm * 2^e] is at least [2^14]. *)
Definition at_least_2_14 (mm e : Z) : Prop :=
  1 <= mm /\ (e <= 14 -> 2 ^ (14 - e) <= mm).

(** The running sum of the harmonic loop after [k] touched registers. *)
Definition sum_after (k : Z) (x : spec_float) : Prop :=
  (k = 0 /\ x = S754_zero false) \/
  (1 <= k /\ exists mm e, x = S754_finite false mm e /\ in_sum_range k (Z.pos mm) e).

(** A finite float above zero. *)
Definition finite_positive (x : spec_float) : bool :=
  match x with
  | S754_finite false _ _ => true
  | _ => false
  end.

(** The raw estimate in the words of the design: [0] when no register is
    non-zero, else [alpha * registersUsed^2 / sum] cut to an integer, all in
    float64 and in the order the source multiplies. *)
Definition raw_estimate_by_formula (Log : spec_float -> spec_float) (rs : list Z)
    : option Z :=
  let registersUsed := count_nonzero rs in
  if registersUsed =? 0 then Some 0
  else Float64.to_uint64
         (Float64.div
            (Float64.mul (Float64.mul (alpha Log) (Float64.of_Z registersUsed))
                         (Float64.of_Z registersUsed))
            (harmonic_sum rs)).

(** The three branches in the order of the design, first match wins. *)
Definition Estimate_by_cases (Log : spec_float -> spec_float) (s : sketch) : option Z :=
  match raw_estimate_by_formula Log (registers s) with
  | None => None
  | Some raw =>
      if maxTick (biasSet s) <? raw then Some raw
      else if raw <? 11500 then
        Float64.to_uint64
          (Float64.mul mf (Log (Float64.div mf (Float64.of_Z (count_zero (registers s))))))
      else
        Float64.to_uint64
          (Float64.mul (getInterpolatedBias (biasSet s) (int_of_u64 raw))
                       (Float64.of_Z raw))
  end.

(** A sketch with a single register, touched. *)
Definition touchedShortSketch : sketch := set_registers shortSketch [1].

(** Every register is a rank a hash can produce, or still zero: between
    [0] and [remnant + 1]. *)
Definition within_rank (s : sketch) : Prop :=
  Forall (fun r => 0 <= r <= remnant + 1) (registers s).

(** ** Constructors *)

Section Constructors.
Variable defaultBiases : biases.
(** [biasStore]: the tables registered so far, by key. *)
Variable biasStore : gmap string biases.

(** NewSketch returns a new Sketch using the default biases. *)
Definition NewSketch : sketch := createSketch defaultBiases.

(** NewCustomSketch returns a new Sketch using the biases registered under
    biasKey. If these biases are not found an error will be returned. *)
Definition NewCustomSketch (biasKey : string) : outcome sketch :=
  match biasStore !! biasKey with
  | None =>
      Err (Errorf ("requested biases " +:+ biasKey
                   +:+ " were not found - they may not have not been registered"))
  | Some bs => Ok (set_biasSet (createSketch defaultBiases) bs)
  end.
End Constructors.

(** A store with the all-zero table registered under one key, and a sketch
    with one register more than [m]. *)
Definition sampleStore : gmap string biases := {[ "test-biases" := zeroBiases ]}.

Definition longSketch : sketch :=
  set_registers (createSketch testBiases) (replicate (S (Z.to_nat m)) 1).

(** [1.25]. *)
Definition five_quarters : spec_float :=
  Float64.div (Float64.of_Z 5) (Float64.of_Z 4).

(** DefaultGenerationOptions returns a copy of the default
    GenerationOptions. *)
Definition DefaultGenerationOptions : GenerationOptions :=
  {| MaxCardinality := m * 7;
     Repeats := 5000;
     InitialStep := 50;
     StepRate := five_quarters |}.

(** The first lines of GenerateBiases: [nil] options stand for the
    defaults. *)
Definition options_or_default (options : option GenerationOptions) : GenerationOptions :=
  match options with
  | None => DefaultGenerationOptions
  | Some o => o
  end.

(** Strictly ascending, checked pair by pair. *)
Fixpoint ascending (l : list Z) : bool :=
  match l with
  | x :: (y :: _) as l' => (x <? y) && ascending l'
  | _ => true
  end.

(** ** The bias generator: test sets *)

Section GenerateSets.
(** [xxh3.Hash]. *)
Variable Hash : list byte -> Z.
(** The sampler [fn], call by call: [fn n] is what its [n]-th call
    returns. *)
Variable fn : nat -> list byte.
(** The order in which the [range] loop of set [i] visits the keys of the
    map, which the language leaves open. *)
Variable rangeOrder : nat -> gset Z -> list Z.

Variable maxCardinality : Z.

(** The loop [for totalUniquesGenerated < maxCardinality], with a bound on
    the number of calls to the sampler; it carries the number of calls made
    so far, the map and the counter. *)
Fixpoint fill_uniques (fuel : nat) (calls : nat) (uniques : gset Z)
    (totalUniquesGenerated : Z) : option (nat * gset Z) :=
  if totalUniquesGenerated <? maxCardinality then
    match fuel with
    | O => None
    | S f =>
        let candidate := Hash (fn calls) in
        if bool_decide (candidate ∈ uniques)
        then fill_uniques f (S calls) uniques totalUniquesGenerated
        else fill_uniques f (S calls) ({[candidate]} ∪ uniques)
               (u64 (totalUniquesGenerated + 1))
    end
  else Some (calls, uniques).

(** The loop [for i := 0; i < repeats; i++], [left] passes before its
    end. *)
Fixpoint generate_loop (fuel : nat) (left : nat) (i : nat) (calls : nat)
    (sets : list (list Z)) : option (list (list Z)) :=
  match left with
  | O => Some sets
  | S left' =>
      match fill_uniques fuel calls ∅ 0 with
      | None => None
      | Some (calls', uniques) =>
          generate_loop fuel left' (S i) calls' (sets ++ [rangeOrder i uniques])
      end
  end.

(** generateSets returns repeats number of []uint64's containing
    maxCardinality unique hashes produced from fn; [None] when some set
    needs more than [fuel] calls. *)
Definition generateSets (repeats : Z) (fuel : nat) : option (list (list Z)) :=
  generate_loop fuel (Z.to_nat repeats) 0 0 [].
End GenerateSets.

(** A [range] order enumerates every key of the map once. *)
Definition enumerates (rangeOrder : nat -> gset Z -> list Z) : Prop :=
  forall i X, NoDup (rangeOrder i X) /\ forall x, x ∈ rangeOrder i X <-> x ∈ X.

(** A sampler that never repeats itself ([n] zero bytes at call [n]), one
    that always returns the same value, and a hash that tells the values
    of the first apart: the length. *)
Definition unarySampler (n : nat) : list byte := replicate n Byte.x00.
Definition constantSampler (n : nat) : list byte := [].
Definition lengthHash (b : list byte) : Z := Z.of_nat (length b).

(** The keys in the order the map stores them, one of the orders [range]
    may take. *)
Definition storedOrder (i : nat) (X : gset Z) : list Z := elements X.

(** The float [mm * 2^e] is at least the integer [t]. *)
Definition at_least (t mm e : Z) : Prop :=
  1 <= mm /\ (e <= 0 -> t * 2 ^ (- e) <= mm) /\ (0 < e -> t <= mm * 2 ^ e).

(** A normal float between [k^2 / 2] and [2^28]: where the numerator
    [alpha * k * k] of the raw estimate lies. *)
Definition numerator_in_range (k : Z) (x : spec_float) : bool :=
  match x with
  | S754_finite false mn en =>
      (2 ^ 52 <=? Z.pos mn) && (Z.pos mn <? 2 ^ 53) &&
      (-53 <=? en) && (en <=? -25) &&
      (k * k * 2 ^ 53 <=? Z.pos mn * 2 ^ (en + 54))
  | _ => false
  end.

(** ** The bias generator: the estimates *)

Record BiasEstimate : Type := {
  TrueCardinality : Z;
  RawEstimatedCardinality : Z;
  Bias : spec_float
}.

(** An [int] after an addition: the low 64 bits, read as two's
    complement. *)
Definition wrap_int (x : Z) : Z := int_of_u64 (u64 x).

(** What one pass of the loop over [r] comes to: a raw estimate, a slice or
    an index out of range (a panic), or a raw estimate whose conversion to
    [uint64] Go leaves implementation-dependent. *)
Inductive trial : Type :=
  | Measured (rawEstimate : Z)
  | OutOfRange
  | Unconverted.

Section GenerateBiases.
Variable Hash : list byte -> Z.
Variable fn : nat -> list byte.
Variable rangeOrder : nat -> gset Z -> list Z.
Variable Log : spec_float -> spec_float.
Variable defaultBiases : biases.

(** [for _, h := range hs { s.addHash(h) }]. *)
Definition addHash_all (s : sketch) (hs : list Z) : option sketch :=
  foldl (fun acc h =>
           match acc with
           | Some s' => addHash s' h
           | None => None
           end) (Some s) hs.

(** The body of the loop over [r], up to the raw estimate. *)
Definition run_trial (sets : list (list Z)) (cardinality : Z) (r : nat) : trial :=
  match sets !! r with
  | None => OutOfRange
  | Some set =>
      if Z.of_nat (length set) <? cardinality then OutOfRange
      else
        match addHash_all (createSketch defaultBiases)
                (take (Z.to_nat cardinality) set) with
        | None => OutOfRange
        | Some s =>
            match rawHarmonicEstimate Log s with
            | Some rawEstimate => Measured rawEstimate
            | None => Unconverted
            end
        end
  end.

(** The raw estimates of the trials, when every one of them has one. *)
Fixpoint measured (trials : list trial) : option (list Z) :=
  match trials with
  | [] => Some []
  | Measured rawEstimate :: trials' => cons rawEstimate <$> measured trials'
  | _ :: _ => None
  end.

Definition is_out_of_range (t : trial) : bool :=
  match t with
  | OutOfRange => true
  | _ => false
  end.

(** The two sums over [k] and the averages. *)
Definition average (cardinality repeats : Z) (rawEstimates : list Z) : BiasEstimate :=
  let sumEstimate :=
    foldl (fun acc raw => wrap_int (acc + int_of_u64 raw)) 0 rawEstimates in
  let sumBias :=
    foldl (fun acc raw =>
             Float64.add acc (Float64.div (Float64.of_Z cardinality) (Float64.of_Z raw)))
          Float64.zero rawEstimates in
  {| TrueCardinality := cardinality;
     RawEstimatedCardinality := u64 (Z.quot sumEstimate repeats);
     Bias := Float64.div sumBias (Float64.of_Z repeats) |}.

(** One pass of the loop over the cardinalities: [Panic] when a trial runs
    out of range, no estimate ([None]) when one of the raw estimates is
    left open by the conversion. *)
Definition bias_at (sets : list (list Z)) (repeats : Z) (cardinality : Z)
    : outcome (option BiasEstimate) :=
  let trials := map (run_trial sets cardinality) (seq 0 (Z.to_nat repeats)) in
  if existsb is_out_of_range trials then Panic
  else Ok (average cardinality repeats <$> measured trials).

Fixpoint GenerateBiases_results (sets : list (list Z)) (repeats : Z)
    (cardinalities : list Z) : outcome (list (option BiasEstimate)) :=
  match cardinalities with
  | [] => Ok []
  | cardinality :: rest =>
      match bias_at sets repeats cardinality with
      | Ok b =>
          match GenerateBiases_results sets repeats rest with
          | Ok bs => Ok (b :: bs)
          | r => r
          end
      | Err e => Err e
      | Panic => Panic
      end
  end.

(** GenerateBiases once its checks have passed: the interpolation points,
    the sets, the estimates. [None] when [fuel] passes of the first loop or
    [fuel] calls of the sampler for one set are not enough. *)
Definition GenerateBiases_work (options : GenerationOptions) (fuel : nat)
    : option (outcome (list (option BiasEstimate))) :=
  match calculateInterpolationPoints (MaxCardinality options) (InitialStep options)
          (StepRate options) fuel with
  | None => None
  | Some (Ok cardinalities) =>
      match generateSets Hash fn rangeOrder (MaxCardinality options)
              (Repeats options) fuel with
      | None => None
      | Some sets => Some (GenerateBiases_results sets (Repeats options) cardinalities)
      end
  | Some (Err e) => Some (Err e)
  | Some Panic => Some Panic
  end.

Definition GenerateBiases (fn_nil : bool) (options : option GenerationOptions)
    (fuel : nat) : option (outcome (list (option BiasEstimate))) :=
  let options := options_or_default options in
  match validate_options fn_nil options with
  | Some e => Some (Err e)
  | None => GenerateBiases_work options fuel
  end.
End GenerateBiases.

(** Options on a small scale, for a run that can be followed by hand. *)
Definition smallOptions : GenerationOptions :=
  {| MaxCardinality := 10; Repeats := 2; InitialStep := 3; StepRate := Float64.one |}.

(** The sets generateSets builds for them from a sampler that never
    repeats itself. *)
Definition smallSets : list (list Z) :=
  default [] (generateSets sampleHash unarySampler storedOrder 10 2 20).

(** * Properties *)

(** ** Bit tricks *)

Lemma m_value : m = 16384.
Proof. reflexivity. Qed.

Lemma bitMask_ones : bitMask = Z.ones remnant.
Proof. reflexivity. Qed.

Lemma land_bitMask (h : Z) : Z.land h bitMask = h mod 2 ^ remnant.
Proof. rewrite bitMask_ones. apply Z.land_ones. unfold remnant, hashLength, precision. lia. Qed.

Lemma testbit_top (k x : Z) :
  0 <= k -> 0 <= x < 2 ^ (k + 1) ->
  Z.testbit x k = (2 ^ k <=? x).
Proof.
  intros Hk [Hx0 Hx1].
  assert (Hp : 0 < 2 ^ k) by (apply Z.pow_pos_nonneg; lia).
  rewrite Z.pow_add_r, Z.pow_1_r in Hx1 by lia.
  destruct (Z.leb_spec (2 ^ k) x) as [Hle|Hlt].
  - apply Z.testbit_true; [lia|].
    assert (x / 2 ^ k = 1) as ->; [|reflexivity].
    symmetry. apply (Z.div_unique x (2 ^ k) 1 (x - 2 ^ k)); lia.
  - apply Z.testbit_false; [lia|].
    rewrite Z.div_small by lia. reflexivity.
Qed.

Lemma Len_below (k x : Z) :
  0 <= k -> 0 <= x < 2 ^ k -> 0 <= Len x <= k.
Proof.
  intros Hk [Hx0 Hx1]. unfold Len.
  destruct (Z.eqb_spec x 0) as [->|Hne]; [lia|].
  assert (Z.log2 x < k) by (apply Z.log2_lt_pow2; lia).
  pose proof (Z.log2_nonneg x). lia.
Qed.

Lemma Len_top (k x : Z) :
  0 <= k -> 2 ^ k <= x < 2 ^ (k + 1) -> Len x = k + 1.
Proof.
  intros Hk [Hx0 Hx1]. unfold Len.
  assert (Hp : 0 < 2 ^ k) by (apply Z.pow_pos_nonneg; lia).
  destruct (Z.eqb_spec x 0) as [->|Hne]; [lia|].
  rewrite (Z.log2_unique x k); lia.
Qed.

(** Counting from the top of a [w]-bit window agrees with [w - Len]. *)
Lemma window_leading_zeros_Len (w : nat) (x : Z) :
  0 <= x < 2 ^ Z.of_nat w ->
  window_leading_zeros w x = Z.of_nat w - Len x.
Proof.
  revert x. induction w as [|k IH]; intros x Hx.
  - simpl in *. assert (x = 0) as -> by lia. reflexivity.
  - cbn [window_leading_zeros].
    replace (Z.of_nat (S k)) with (Z.of_nat k + 1) in * by lia.
    rewrite testbit_top by lia.
    destruct (Z.leb_spec (2 ^ Z.of_nat k) x) as [Hle|Hlt].
    + rewrite (Len_top (Z.of_nat k)) by lia. lia.
    + rewrite IH by lia. lia.
Qed.

Lemma window_leading_zeros_range (w : nat) (x : Z) :
  0 <= window_leading_zeros w x <= Z.of_nat w.
Proof.
  induction w as [|k IH]; cbn [window_leading_zeros]; [lia|].
  destruct (Z.testbit x (Z.of_nat k)); lia.
Qed.

(** The pair the source computes, in terms of the hash's two bit fields. *)
Lemma getRegisterAndLeadingZeros_fields (h : Z) :
  is_u64 h ->
  getRegisterAndLeadingZeros h =
    (h / 2 ^ 50, window_leading_zeros 50 (h mod 2 ^ 50)).
Proof.
  intros [Hh0 Hh1]. unfold getRegisterAndLeadingZeros.
  rewrite land_bitMask, Z.shiftr_div_pow2 by (unfold remnant, hashLength, precision; lia).
  change remnant with 50. f_equal.
  assert (Hr : 0 <= h mod 2 ^ 50 < 2 ^ 50) by (apply Z.mod_pos_bound; lia).
  rewrite (window_leading_zeros_Len 50) by exact Hr.
  pose proof (Len_below 50 _ ltac:(lia) Hr) as HL.
  unfold LeadingZeros, uintSize, precision, u8.
  change (Z.of_nat 50) with 50.
  rewrite Z.mod_small; lia.
Qed.

Lemma register_index_range (h : Z) :
  is_u64 h -> 0 <= h / 2 ^ 50 < m.
Proof.
  intros [Hh0 Hh1]. rewrite m_value. split.
  - apply Z.div_pos; lia.
  - apply Z.div_lt_upper_bound; lia.
Qed.

(** [addHash] in closed form: the register named by the top 14 bits becomes
    the larger of its old value and the window count plus one. *)
Lemma addHash_max (s : sketch) (h : Z) :
  is_u64 h ->
  addHash s h =
    match registers s !! Z.to_nat (h / 2 ^ 50) with
    | None => None
    | Some r =>
        Some (set_registers s
                (<[Z.to_nat (h / 2 ^ 50) :=
                     Z.max r (window_leading_zeros 50 (h mod 2 ^ 50) + 1)]> (registers s)))
    end.
Proof.
  intros Hh. unfold addHash. rewrite getRegisterAndLeadingZeros_fields by exact Hh.
  pose proof (window_leading_zeros_range 50 (h mod 2 ^ 50)) as Hz.
  change (Z.of_nat 50) with 50 in Hz.
  unfold u8. rewrite Z.mod_small by lia.
  destruct (registers s !! Z.to_nat (h / 2 ^ 50)) as [r|] eqn:Hr; [|reflexivity].
  destruct (Z.leb_spec (window_leading_zeros 50 (h mod 2 ^ 50) + 1) r) as [Hle|Hlt].
  - rewrite Z.max_l by lia. rewrite list_insert_id by exact Hr.
    destruct s; reflexivity.
  - rewrite Z.max_r by lia. reflexivity.
Qed.

(** ** Merge is the index-wise maximum *)

Lemma merge_at_length (o rs : list Z) (i : nat) :
  length (merge_at o rs i) = length rs.
Proof.
  unfold merge_at. destruct (rs !! i), (o !! i); try reflexivity.
  destruct (_ <? _); [apply length_insert | reflexivity].
Qed.

Lemma merge_at_lookup (o rs : list Z) (i j : nat) :
  merge_at o rs i !! j =
    if decide (i = j) then
      match rs !! i, o !! i with
      | Some x, Some y => Some (Z.max x y)
      | _, _ => rs !! i
      end
    else rs !! j.
Proof.
  unfold merge_at.
  destruct (rs !! i) as [x|] eqn:Hx, (o !! i) as [y|] eqn:Hy;
    try (destruct (decide (i = j)) as [<-|]; congruence).
  destruct (Z.ltb_spec x y) as [Hlt|Hge].
  - destruct (decide (i = j)) as [<-|Hne].
    + rewrite list_lookup_insert_eq by (eapply lookup_lt_Some; eassumption).
      f_equal. lia.
    + apply list_lookup_insert_ne. exact Hne.
  - destruct (decide (i = j)) as [<-|Hne]; [|reflexivity].
    rewrite Hx. f_equal. lia.
Qed.

Lemma merge_loop_lookup (o : list Z) (n a : nat) (rs : list Z) (j : nat) :
  foldl (merge_at o) rs (seq a n) !! j =
    if decide (a <= j < a + n)%nat then
      match rs !! j, o !! j with
      | Some x, Some y => Some (Z.max x y)
      | _, _ => rs !! j
      end
    else rs !! j.
Proof.
  revert a rs. induction n as [|n IH]; intros a rs; cbn [seq foldl].
  - destruct (decide _); [lia | reflexivity].
  - rewrite IH, !merge_at_lookup.
    destruct (decide (a = j)) as [->|Hne].
    + destruct (decide (S j <= j < S j + n)%nat); [lia|].
      destruct (decide (j <= j < j + S n)%nat); [reflexivity | lia].
    + destruct (decide (S a <= j < S a + n)%nat), (decide (a <= j < a + S n)%nat);
        try lia; reflexivity.
Qed.

Lemma merge_loop_zip (rs o : list Z) :
  length rs = length o ->
  foldl (merge_at o) rs (seq 0 (length rs)) = zip_with Z.max rs o.
Proof.
  intros Hlen. apply list_eq. intros j.
  rewrite merge_loop_lookup, lookup_zip_with.
  destruct (decide (0 <= j < 0 + length rs)%nat) as [Hj|Hj].
  - destruct (lookup_lt_is_Some_2 rs j ltac:(lia)) as [x Hx].
    destruct (lookup_lt_is_Some_2 o j ltac:(lia)) as [y Hy].
    rewrite Hx, Hy. reflexivity.
  - rewrite (lookup_ge_None_2 rs j) by lia. reflexivity.
Qed.

Lemma zip_max_comm (a b : list Z) : zip_with Z.max a b = zip_with Z.max b a.
Proof.
  revert b. induction a as [|x a IH]; intros [|y b]; cbn; try reflexivity.
  rewrite IH, Z.max_comm. reflexivity.
Qed.

Lemma zip_max_assoc (a b c : list Z) :
  zip_with Z.max (zip_with Z.max a b) c = zip_with Z.max a (zip_with Z.max b c).
Proof.
  revert b c. induction a as [|x a IH]; intros [|y b] [|z c]; cbn; try reflexivity.
  rewrite IH, Z.max_assoc. reflexivity.
Qed.

Lemma Merge_compatible (a b : sketch) :
  version a = version b ->
  length (registers a) = length (registers b) ->
  Merge a b = (set_registers a (zip_with Z.max (registers a) (registers b)), None).
Proof.
  intros Hv Hl. unfold Merge.
  rewrite bool_decide_eq_true_2 by exact Hv.
  rewrite (proj2 (Nat.eqb_eq _ _) Hl). cbn [negb].
  rewrite merge_loop_zip by exact Hl. reflexivity.
Qed.

(** C5. Merge answers a version mismatch with ErrorMismatchedVersion and,
    for equal versions, a length mismatch with ErrorMalformedPrecision; in
    both cases the receiver is exactly as before the call (the argument is
    never written). Otherwise it returns no error and the receiver with each
    register replaced by the larger of the two registers at that index. *)
Theorem Merge_checks_then_takes_maxima (a b : sketch) :
  Merge a b =
    if decide (version a <> version b) then (a, Some ErrorMismatchedVersion)
    else if decide (length (registers a) <> length (registers b))
    then (a, Some ErrorMalformedPrecision)
    else (set_registers a (zip_with Z.max (registers a) (registers b)), None).
Proof.
  unfold Merge.
  destruct (decide (version a <> version b)) as [Hv|Hv].
  - rewrite bool_decide_eq_false_2 by exact Hv. reflexivity.
  - rewrite bool_decide_eq_true_2 by (destruct (decide (version a = version b)); tauto).
    cbn [negb].
    destruct (decide (length (registers a) <> length (registers b))) as [Hl|Hl].
    + apply Nat.eqb_neq in Hl. rewrite Hl. reflexivity.
    + assert (Heq : length (registers a) = length (registers b)) by lia.
      rewrite (proj2 (Nat.eqb_eq _ _) Heq). cbn [negb].
      rewrite merge_loop_zip by exact Heq. reflexivity.
Qed.

(** C9. On compatible sketches (one version, one register length) merging
    is commutative and associative register by register, every merge
    succeeding. *)
Theorem Merge_commutative_associative (a b c : sketch) :
  version a = version b -> version b = version c ->
  length (registers a) = length (registers b) ->
  length (registers b) = length (registers c) ->
  registers (fst (Merge a b)) = registers (fst (Merge b a)) /\
  registers (fst (Merge (fst (Merge a b)) c)) =
    registers (fst (Merge a (fst (Merge b c)))) /\
  snd (Merge a b) = None /\ snd (Merge b a) = None /\
  snd (Merge (fst (Merge a b)) c) = None /\
  snd (Merge a (fst (Merge b c))) = None.
Proof.
  intros Hab Hbc Lab Lbc.
  rewrite (Merge_compatible a b), (Merge_compatible b a), (Merge_compatible b c)
    by congruence.
  cbn [fst snd].
  rewrite !Merge_compatible;
    cbn [set_registers registers version]; rewrite ?length_zip_with; try congruence; try lia.
  cbn [fst snd set_registers registers].
  repeat split.
  - apply zip_max_comm.
  - apply zip_max_assoc.
Qed.

Lemma Merge_commutative_associative_witness :
  registers (fst (Merge (uniformSketch 1) (uniformSketch 2))) =
    registers (fst (Merge (uniformSketch 2) (uniformSketch 1))) /\
  registers (fst (Merge (fst (Merge (uniformSketch 1) (uniformSketch 2))) (uniformSketch 3))) =
    registers (fst (Merge (uniformSketch 1) (fst (Merge (uniformSketch 2) (uniformSketch 3))))) /\
  snd (Merge (uniformSketch 1) (uniformSketch 2)) = None /\
  snd (Merge (uniformSketch 2) (uniformSketch 1)) = None /\
  snd (Merge (fst (Merge (uniformSketch 1) (uniformSketch 2))) (uniformSketch 3)) = None /\
  snd (Merge (uniformSketch 1) (fst (Merge (uniformSketch 2) (uniformSketch 3)))) = None.
Proof.
  apply (Merge_commutative_associative (uniformSketch 1) (uniformSketch 2) (uniformSketch 3));
    reflexivity.
Defined.

(** ** Insert raises one register to a maximum *)

Lemma bump_length (rs rs' : list Z) (i : nat) (z : Z) :
  bump rs i z = Some rs' -> length rs' = length rs.
Proof.
  unfold bump. destruct (rs !! i); [|discriminate].
  intros [= <-]. apply length_insert.
Qed.

Lemma bump_mono (rs rs' : list Z) (i : nat) (z : Z) :
  bump rs i z = Some rs' ->
  forall j r, rs !! j = Some r -> exists r', rs' !! j = Some r' /\ r <= r'.
Proof.
  unfold bump. destruct (rs !! i) as [x|] eqn:Hx; [|discriminate].
  intros [= <-] j r Hj.
  destruct (decide (i = j)) as [<-|Hne].
  - exists (Z.max x z). split.
    + apply list_lookup_insert_eq. eapply lookup_lt_Some; eassumption.
    + assert (x = r) by congruence. lia.
  - exists r. split; [|lia]. rewrite list_lookup_insert_ne by exact Hne. exact Hj.
Qed.

Lemma bump_reaches (rs rs' : list Z) (i : nat) (z : Z) :
  bump rs i z = Some rs' -> exists r, rs' !! i = Some r /\ z <= r.
Proof.
  unfold bump. destruct (rs !! i) as [x|] eqn:Hx; [|discriminate].
  intros [= <-]. exists (Z.max x z). split; [|lia].
  apply list_lookup_insert_eq. eapply lookup_lt_Some; eassumption.
Qed.

Lemma bump_absorbed (rs : list Z) (i : nat) (z r : Z) :
  rs !! i = Some r -> z <= r -> bump rs i z = Some rs.
Proof.
  intros Hr Hz. unfold bump. rewrite Hr, Z.max_l by lia.
  rewrite list_insert_id by exact Hr. reflexivity.
Qed.

Lemma bump_comm (rs : list Z) (i1 i2 : nat) (z1 z2 : Z) :
  (bump rs i1 z1 ≫= fun rs' => bump rs' i2 z2) =
  (bump rs i2 z2 ≫= fun rs' => bump rs' i1 z1).
Proof.
  unfold bump.
  destruct (rs !! i1) as [x1|] eqn:H1, (rs !! i2) as [x2|] eqn:H2; cbn.
  - pose proof (lookup_lt_Some _ _ _ H1) as L1.
    pose proof (lookup_lt_Some _ _ _ H2) as L2.
    destruct (decide (i1 = i2)) as [<-|Hne].
    + assert (x2 = x1) as -> by congruence.
      rewrite !list_lookup_insert_eq by exact L1.
      rewrite !list_insert_insert_eq. do 2 f_equal. lia.
    + rewrite (list_lookup_insert_ne rs i1 i2) by exact Hne.
      rewrite (list_lookup_insert_ne rs i2 i1) by (intros ->; apply Hne; reflexivity).
      rewrite H1, H2. f_equal. apply list_insert_insert_ne.
      intros E. apply Hne. symmetry. exact E.
  - destruct (decide (i1 = i2)) as [<-|Hne]; [congruence|].
    rewrite list_lookup_insert_ne by exact Hne. rewrite H2. reflexivity.
  - destruct (decide (i1 = i2)) as [<-|Hne]; [congruence|].
    rewrite list_lookup_insert_ne by (intros ->; apply Hne; reflexivity).
    rewrite H1. reflexivity.
  - reflexivity.
Qed.

Lemma addHash_bump (s : sketch) (h : Z) :
  is_u64 h ->
  addHash s h = set_registers s <$> bump (registers s) (hash_index h) (hash_rank h).
Proof.
  intros Hh. rewrite addHash_max by exact Hh. unfold bump, hash_index, hash_rank.
  destruct (registers s !! Z.to_nat (h / 2 ^ 50)); reflexivity.
Qed.

Lemma hash_rank_range (h : Z) : 1 <= hash_rank h <= 51.
Proof.
  unfold hash_rank.
  pose proof (window_leading_zeros_range 50 (h mod 2 ^ 50)). lia.
Qed.

Lemma hash_index_range (h : Z) : is_u64 h -> (hash_index h < Z.to_nat m)%nat.
Proof.
  intros Hh. pose proof (register_index_range h Hh). unfold hash_index. lia.
Qed.

Section InsertProperties.
Variable Hash : list byte -> Z.
Hypothesis Hash_u64 : forall element, is_u64 (Hash element).

Lemma Insert_bump (s : sketch) (e : list byte) :
  Insert Hash s e =
    set_registers s <$> bump (registers s) (hash_index (Hash e)) (hash_rank (Hash e)).
Proof. unfold Insert. apply addHash_bump, Hash_u64. Qed.

Lemma Insert_comm (s : sketch) (x y : list byte) :
  (Insert Hash s x ≫= fun s' => Insert Hash s' y) =
  (Insert Hash s y ≫= fun s' => Insert Hash s' x).
Proof.
  rewrite !Insert_bump.
  pose proof (bump_comm (registers s) (hash_index (Hash x)) (hash_index (Hash y))
                (hash_rank (Hash x)) (hash_rank (Hash y))) as Hc.
  destruct (bump (registers s) (hash_index (Hash x)) (hash_rank (Hash x))) as [r1|],
           (bump (registers s) (hash_index (Hash y)) (hash_rank (Hash y))) as [r2|];
    cbn -[Insert] in *; rewrite ?Insert_bump; unfold set_registers in *;
    cbn -[Insert] in *.
  - destruct (bump r1 _ _), (bump r2 _ _); cbn in *; congruence.
  - destruct (bump r1 _ _); cbn in *; congruence.
  - destruct (bump r2 _ _); cbn in *; congruence.
  - reflexivity.
Qed.

Lemma Insert_all_None (es : list (list byte)) :
  foldl (fun acc element =>
           match acc with
           | Some s' => Insert Hash s' element
           | None => None
           end) None es = None.
Proof. induction es as [|e es IH]; cbn; [reflexivity | exact IH]. Qed.

Lemma Insert_all_cons (s : sketch) (e : list byte) (es : list (list byte)) :
  Insert_all Hash s (e :: es) = Insert Hash s e ≫= fun s' => Insert_all Hash s' es.
Proof.
  unfold Insert_all. cbn [foldl].
  destruct (Insert Hash s e); cbn; [reflexivity | apply Insert_all_None].
Qed.

Lemma Insert_all_perm (es es' : list (list byte)) :
  Permutation es es' -> forall s, Insert_all Hash s es = Insert_all Hash s es'.
Proof.
  induction 1 as [|x l l' _ IH|x y l|l l' l'' _ IH1 _ IH2]; intros s.
  - reflexivity.
  - rewrite !Insert_all_cons. destruct (Insert Hash s x); cbn; [apply IH | reflexivity].
  - rewrite !Insert_all_cons.
    pose proof (Insert_comm s y x) as Hc.
    destruct (Insert Hash s y) as [sy|], (Insert Hash s x) as [sx|];
      cbn -[Insert Insert_all] in *; rewrite ?Insert_all_cons.
    + rewrite Hc. reflexivity.
    + rewrite Hc. reflexivity.
    + rewrite <- Hc. reflexivity.
    + reflexivity.
  - rewrite IH1. apply IH2.
Qed.

Lemma Insert_mono (s s' : sketch) (e : list byte) :
  Insert Hash s e = Some s' ->
  length (registers s') = length (registers s) /\
  forall j r, registers s !! j = Some r ->
              exists r', registers s' !! j = Some r' /\ r <= r'.
Proof.
  rewrite Insert_bump.
  destruct (bump (registers s) _ _) as [rs|] eqn:Hb; [|discriminate].
  intros [= <-]. cbn [registers set_registers]. split.
  - eapply bump_length; eassumption.
  - eapply bump_mono; eassumption.
Qed.

Lemma Insert_all_mono (es : list (list byte)) :
  forall s s', Insert_all Hash s es = Some s' ->
  forall j r, registers s !! j = Some r ->
              exists r', registers s' !! j = Some r' /\ r <= r'.
Proof.
  induction es as [|e es IH]; intros s s' Hall j r Hj.
  - injection Hall as <-. exists r. split; [exact Hj | lia].
  - rewrite Insert_all_cons in Hall.
    destruct (Insert Hash s e) as [s1|] eqn:H1; [|discriminate].
    cbn in Hall.
    destruct (proj2 (Insert_mono _ _ _ H1) j r Hj) as (r1 & Hr1 & Hle1).
    destruct (IH _ _ Hall j r1 Hr1) as (r' & Hr' & Hle').
    exists r'. split; [exact Hr' | lia].
Qed.

Lemma Insert_all_covered (es : list (list byte)) (e : list byte) :
  e ∈ es ->
  forall s s', Insert_all Hash s es = Some s' ->
  exists r, registers s' !! hash_index (Hash e) = Some r /\ hash_rank (Hash e) <= r.
Proof.
  induction es as [|x es IH]; intros Hin s s' Hall.
  - apply not_elem_of_nil in Hin. contradiction.
  - rewrite Insert_all_cons in Hall.
    destruct (Insert Hash s x) as [s1|] eqn:H1; [|discriminate].
    cbn in Hall. apply elem_of_cons in Hin as [->|Hin].
    + rewrite Insert_bump in H1.
      destruct (bump (registers s) _ _) as [rs|] eqn:Hb; [|discriminate].
      injection H1 as <-.
      destruct (bump_reaches _ _ _ _ Hb) as (r1 & Hr1 & Hle1).
      destruct (Insert_all_mono _ _ _ Hall _ _ Hr1) as (r' & Hr' & Hle').
      exists r'. split; [exact Hr' | lia].
    + eapply IH; eassumption.
Qed.

Lemma Insert_absorbed (s : sketch) (e : list byte) (r : Z) :
  registers s !! hash_index (Hash e) = Some r -> hash_rank (Hash e) <= r ->
  Insert Hash s e = Some s.
Proof.
  intros Hr Hle. rewrite Insert_bump, (bump_absorbed _ _ _ r) by assumption.
  destruct s; reflexivity.
Qed.
End InsertProperties.

Section InsertClaims.
Variable Hash : list byte -> Z.
Hypothesis Hash_u64 : forall element, is_u64 (Hash element).

Lemma Insert_total (s : sketch) (e : list byte) :
  length (registers s) = Z.to_nat m ->
  exists s', Insert Hash s e = Some s' /\ length (registers s') = Z.to_nat m.
Proof.
  intros Hlen. rewrite (Insert_bump Hash Hash_u64). unfold bump.
  destruct (lookup_lt_is_Some_2 (registers s) (hash_index (Hash e))) as [r Hr].
  { rewrite Hlen. apply hash_index_range, Hash_u64. }
  rewrite Hr. eexists. split; [reflexivity|].
  cbn [registers set_registers]. rewrite length_insert. exact Hlen.
Qed.

Lemma Insert_all_total (es : list (list byte)) :
  forall s, length (registers s) = Z.to_nat m ->
  exists s', Insert_all Hash s es = Some s' /\ length (registers s') = Z.to_nat m.
Proof.
  induction es as [|e es IH]; intros s Hlen.
  - exists s. split; [reflexivity | exact Hlen].
  - rewrite (Insert_all_cons Hash).
    destruct (Insert_total s e Hlen) as (s1 & -> & Hlen1). cbn -[Insert_all].
    apply IH, Hlen1.
Qed.
End InsertClaims.

(** C3. Insert hashes the element to a 64-bit [h], takes the top 14 bits of
    [h] as the register index ([h >> 50], below 16384), takes [z] as one
    plus the number of leading zeros of the low 50 bits of [h] counted in a
    window of exactly 50 bits, and replaces that register by the larger of
    its value and [z]; every other register keeps its value. *)
Theorem Insert_updates_one_register
    (Hash : list byte -> Z) (s : sketch) (element : list byte) :
  (forall e, is_u64 (Hash e)) ->
  length (registers s) = Z.to_nat m ->
  let h := Hash element in
  let index := Z.shiftr h 50 in
  let z := window_leading_zeros 50 (Z.land h (Z.ones 50)) + 1 in
  0 <= index < 16384 /\
  1 <= z <= 51 /\
  exists r s',
    registers s !! Z.to_nat index = Some r /\
    Insert Hash s element = Some s' /\
    registers s' = <[Z.to_nat index := Z.max r z]> (registers s) /\
    version s' = version s /\ biasSet s' = biasSet s /\
    forall j, j <> Z.to_nat index -> registers s' !! j = registers s !! j.
Proof.
  intros Hash_u64 Hlen h index z.
  assert (Hidx : index = h / 2 ^ 50) by (apply Z.shiftr_div_pow2; lia).
  assert (Hz : z = hash_rank h).
  { unfold z, hash_rank. rewrite Z.land_ones by lia. reflexivity. }
  pose proof (register_index_range h (Hash_u64 element)) as Hrange.
  rewrite m_value in Hrange.
  split; [lia|]. split; [rewrite Hz; apply hash_rank_range|].
  destruct (lookup_lt_is_Some_2 (registers s) (Z.to_nat index)) as [r Hr].
  { rewrite Hlen, m_value. lia. }
  exists r, (set_registers s (<[Z.to_nat index := Z.max r z]> (registers s))).
  split; [exact Hr|]. split.
  - rewrite (Insert_bump Hash Hash_u64). unfold bump, hash_index.
    fold h. rewrite <- Hidx, Hr, <- Hz. reflexivity.
  - cbn [registers set_registers version biasSet]. repeat split.
    intros j Hj. apply list_lookup_insert_ne. intros E. apply Hj. symmetry. exact E.
Qed.

Lemma sampleHash_u64 (element : list byte) : is_u64 (sampleHash element).
Proof. unfold sampleHash, u64, is_u64. apply Z.mod_pos_bound. lia. Qed.

Lemma Insert_updates_one_register_witness :
  let h := sampleHash [Byte.x41] in
  let index := Z.shiftr h 50 in
  let z := window_leading_zeros 50 (Z.land h (Z.ones 50)) + 1 in
  0 <= index < 16384 /\
  1 <= z <= 51 /\
  exists r s',
    registers (uniformSketch 0) !! Z.to_nat index = Some r /\
    Insert sampleHash (uniformSketch 0) [Byte.x41] = Some s' /\
    registers s' = <[Z.to_nat index := Z.max r z]> (registers (uniformSketch 0)) /\
    version s' = version (uniformSketch 0) /\ biasSet s' = biasSet (uniformSketch 0) /\
    forall j, j <> Z.to_nat index -> registers s' !! j = registers (uniformSketch 0) !! j.
Proof.
  apply (Insert_updates_one_register sampleHash (uniformSketch 0) [Byte.x41]).
  - exact sampleHash_u64.
  - vm_compute. reflexivity.
Defined.

(** C10. Insert never lowers a register; inserting again an element that
    was already inserted changes no register, hence not the estimate; and
    the registers reached by a run of Inserts do not depend on the order of
    the elements. On a sketch with [m] registers every run of Inserts
    returns. *)
Theorem Insert_monotonic_idempotent_order_independent (Hash : list byte -> Z) :
  (forall e, is_u64 (Hash e)) ->
  (forall s es, length (registers s) = Z.to_nat m ->
     exists s', Insert_all Hash s es = Some s' /\ length (registers s') = Z.to_nat m) /\
  (forall s e s', Insert Hash s e = Some s' ->
     length (registers s') = length (registers s) /\
     forall j r, registers s !! j = Some r ->
                 exists r', registers s' !! j = Some r' /\ r <= r') /\
  (forall s es s' e, Insert_all Hash s es = Some s' -> e ∈ es ->
     Insert Hash s' e = Some s' /\
     forall Log s'', Insert Hash s' e = Some s'' ->
       registers s'' = registers s' /\ Estimate Log s'' = Estimate Log s') /\
  (forall s es es', Permutation es es' ->
     Insert_all Hash s es = Insert_all Hash s es').
Proof.
  intros Hash_u64. split; [|split; [|split]].
  - intros s es. apply Insert_all_total. exact Hash_u64.
  - intros s e s'. apply Insert_mono. exact Hash_u64.
  - intros s es s' e Hall Hin.
    destruct (Insert_all_covered Hash Hash_u64 es e Hin s s' Hall) as (r & Hr & Hle).
    pose proof (Insert_absorbed Hash Hash_u64 s' e r Hr Hle) as Hsame.
    split; [exact Hsame|].
    intros Log s'' H''. rewrite Hsame in H''. injection H'' as <-. split; reflexivity.
  - intros s es es' Hp. apply Insert_all_perm; assumption.
Qed.

Lemma Insert_monotonic_idempotent_order_independent_witness :
  (forall s es, length (registers s) = Z.to_nat m ->
     exists s', Insert_all sampleHash s es = Some s' /\ length (registers s') = Z.to_nat m) /\
  (forall s e s', Insert sampleHash s e = Some s' ->
     length (registers s') = length (registers s) /\
     forall j r, registers s !! j = Some r ->
                 exists r', registers s' !! j = Some r' /\ r <= r') /\
  (forall s es s' e, Insert_all sampleHash s es = Some s' -> e ∈ es ->
     Insert sampleHash s' e = Some s' /\
     forall Log s'', Insert sampleHash s' e = Some s'' ->
       registers s'' = registers s' /\ Estimate Log s'' = Estimate Log s') /\
  (forall s es es', Permutation es es' ->
     Insert_all sampleHash s es = Insert_all sampleHash s es').
Proof.
  apply (Insert_monotonic_idempotent_order_independent sampleHash).
  exact sampleHash_u64.
Defined.

(** ** Rollup *)

Lemma rollup_max_from (regs : list (list Z)) (i : nat) (a : Z) :
  Forall (fun reg => (i < length reg)%nat) regs ->
  foldl (fun acc reg =>
           match acc, reg !! i with
           | Some max, Some r => Some (if max <? r then r else max)
           | _, _ => None
           end) (Some a) regs
  = Some (foldl (fun acc reg => Z.max acc (default 0 (reg !! i))) a regs).
Proof.
  intros Hall. revert a. induction Hall as [|reg regs Hreg _ IH]; intros a; cbn [foldl].
  - reflexivity.
  - destruct (lookup_lt_is_Some_2 reg i Hreg) as [r Hr]. rewrite Hr. cbn [default].
    replace (if a <? r then r else a) with (Z.max a r)
      by (destruct (Z.ltb_spec a r); lia).
    apply IH.
Qed.

Lemma rollup_max_column (regs : list (list Z)) (i : nat) :
  Forall (fun reg => (i < length reg)%nat) regs ->
  rollup_max regs i = Some (column_max regs i).
Proof. apply rollup_max_from. Qed.

Lemma insert_loop_lookup (f : nat -> Z) (n a : nat) (b : list Z) (j : nat) :
  foldl (fun b i => <[i := f i]> b) b (seq a n) !! j =
    if decide ((a <= j < a + n)%nat /\ (j < length b)%nat) then Some (f j) else b !! j.
Proof.
  revert a b. induction n as [|n IH]; intros a b; cbn [seq foldl].
  - destruct (decide _); [lia | reflexivity].
  - rewrite IH, length_insert.
    destruct (decide (a = j)) as [->|Hne].
    + destruct (decide ((S j <= j < S j + n)%nat /\ (j < length b)%nat)); [lia|].
      destruct (decide ((j <= j < j + S n)%nat /\ (j < length b)%nat)) as [Hj|Hj].
      * apply list_lookup_insert_eq. lia.
      * rewrite list_insert_ge by lia. reflexivity.
    + rewrite list_lookup_insert_ne by exact Hne.
      destruct (decide ((S a <= j < S a + n)%nat /\ (j < length b)%nat)),
               (decide ((a <= j < a + S n)%nat /\ (j < length b)%nat));
        try lia; reflexivity.
Qed.

Lemma insert_loop_length (f : nat -> Z) (l : list nat) (b : list Z) :
  length (foldl (fun b i => <[i := f i]> b) b l) = length b.
Proof.
  revert b. induction l as [|i l IH]; intros b; cbn [foldl]; [reflexivity|].
  rewrite IH. apply length_insert.
Qed.

Lemma rollup_fill_from (regs : list (list Z)) (n a : nat) (b : list Z) :
  (forall i, (a <= i < a + n)%nat -> Forall (fun reg => (i < length reg)%nat) regs) ->
  foldl (fun acc i =>
           match acc, rollup_max regs i with
           | Some b, Some max => Some (<[i := max]> b)
           | _, _ => None
           end) (Some b) (seq a n)
  = Some (foldl (fun b i => <[i := column_max regs i]> b) b (seq a n)).
Proof.
  revert a b. induction n as [|n IH]; intros a b Hall; cbn [seq foldl].
  - reflexivity.
  - rewrite rollup_max_column by (apply Hall; lia).
    apply IH. intros i Hi. apply Hall. lia.
Qed.

Lemma rollup_fill_columns (regs : list (list Z)) (base : list Z) :
  Forall (fun reg => (length base <= length reg)%nat) regs ->
  exists rs, rollup_fill regs base = Some rs /\
             length rs = length base /\
             forall i, (i < length base)%nat -> rs !! i = Some (column_max regs i).
Proof.
  intros Hall. unfold rollup_fill. rewrite rollup_fill_from.
  - eexists. split; [reflexivity|]. split.
    + apply insert_loop_length.
    + intros i Hi. rewrite insert_loop_lookup.
      destruct (decide _) as [_|Hn]; [reflexivity | lia].
  - intros i Hi. eapply Forall_impl; [exact Hall|]. cbn. intros reg Hreg. lia.
Qed.

Lemma column_fold_ge (regs : list (list Z)) (i : nat) (a : Z) :
  a <= foldl (fun acc reg => Z.max acc (default 0 (reg !! i))) a regs.
Proof.
  revert a. induction regs as [|reg regs IH]; intros a; cbn [foldl]; [lia|].
  eapply Z.le_trans; [|apply IH]. apply Z.le_max_l.
Qed.

Lemma column_fold_upper (regs : list (list Z)) (i : nat) (a : Z) (reg : list Z) (y : Z) :
  reg ∈ regs -> reg !! i = Some y ->
  y <= foldl (fun acc reg => Z.max acc (default 0 (reg !! i))) a regs.
Proof.
  revert a. induction regs as [|reg' regs IH]; intros a Hin Hy.
  - apply not_elem_of_nil in Hin. contradiction.
  - cbn [foldl]. apply elem_of_cons in Hin as [<-|Hin].
    + rewrite Hy. cbn [default].
      eapply Z.le_trans; [|apply column_fold_ge]. apply Z.le_max_r.
    + apply IH; assumption.
Qed.

Lemma column_fold_attained (regs : list (list Z)) (i : nat) (a : Z) :
  foldl (fun acc reg => Z.max acc (default 0 (reg !! i))) a regs = a \/
  exists reg, reg ∈ regs /\
    default 0 (reg !! i) = foldl (fun acc reg => Z.max acc (default 0 (reg !! i))) a regs.
Proof.
  revert a. induction regs as [|reg regs IH]; intros a; cbn [foldl]; [left; reflexivity|].
  destruct (IH (Z.max a (default 0 (reg !! i)))) as [Heq|(reg' & Hin & Heq)].
  - rewrite Heq. destruct (Z.max_spec a (default 0 (reg !! i))) as [[_ ->]|[_ ->]].
    + right. exists reg. split; [apply list_elem_of_here | reflexivity].
    + left. reflexivity.
  - right. exists reg'. split; [apply list_elem_of_further, Hin | exact Heq].
Qed.

Lemma column_max_is_maximum (regs : list (list Z)) (i : nat) :
  regs <> [] ->
  Forall (fun reg => exists y, reg !! i = Some y /\ 0 <= y) regs ->
  (forall reg y, reg ∈ regs -> reg !! i = Some y -> y <= column_max regs i) /\
  (exists reg, reg ∈ regs /\ reg !! i = Some (column_max regs i)).
Proof.
  intros Hne Hall. split.
  - intros reg y. apply column_fold_upper.
  - destruct (column_fold_attained regs i 0) as [Hzero|(reg & Hin & Heq)].
    + destruct regs as [|reg regs]; [contradiction|].
      exists reg. split; [apply list_elem_of_here|].
      apply Forall_cons in Hall as [(y & Hy & Hy0) _].
      pose proof (column_fold_upper (reg :: regs) i 0 reg y
                    ltac:(apply list_elem_of_here) Hy) as Hup.
      unfold column_max. rewrite Hy. f_equal. lia.
    + exists reg. split; [exact Hin|].
      rewrite Forall_forall in Hall. destruct (Hall reg Hin) as (y & Hy & _).
      unfold column_max. rewrite <- Heq, Hy. reflexivity.
Qed.

Lemma rollup_validate_same (v : string) (n : nat) (rest : list sketch) :
  Forall (fun sk => version sk = v /\ length (registers sk) = n) rest ->
  rollup_validate v n rest = None.
Proof.
  induction 1 as [|sk rest [Hv Hl] _ IH]; cbn [rollup_validate]; [reflexivity|].
  rewrite bool_decide_eq_true_2 by exact Hv.
  rewrite (proj2 (Nat.eqb_eq _ _) Hl). exact IH.
Qed.

Lemma is_u8_lookup (rs : list Z) (i : nat) (y : Z) :
  Forall is_u8 rs -> rs !! i = Some y -> 0 <= y < 256.
Proof.
  intros Hall Hy. rewrite Forall_forall in Hall.
  apply (Hall y). eapply list_elem_of_lookup_2. exact Hy.
Qed.

Lemma Rollup_full (defaultBiases : biases) (first : sketch) (rest : list sketch) :
  Forall (fun sk => version sk = version first /\ well_formed sk) (first :: rest) ->
  exists r,
    Rollup defaultBiases (first :: rest) = Ok r /\
    version r = version first /\
    biasSet r = defaultBiases /\
    length (registers r) = Z.to_nat m /\
    forall i, (i < Z.to_nat m)%nat ->
      registers r !! i = Some (column_max (map registers (first :: rest)) i).
Proof.
  intros Hall.
  assert (Hfirst : well_formed first) by (apply Forall_cons in Hall as [[_ H] _]; exact H).
  assert (Hrest : Forall (fun sk => version sk = version first /\
                                    length (registers sk) = length (registers first)) rest).
  { apply Forall_cons in Hall as [_ Hall]. eapply Forall_impl; [exact Hall|].
    cbn. intros sk [Hv [Hl _]]. split; [exact Hv|]. destruct Hfirst as [Hl' _]. congruence. }
  unfold Rollup. rewrite (rollup_validate_same _ _ _ Hrest).
  set (base := if negb (bool_decide (version (createSketch defaultBiases) = version first))
               then set_version (createSketch defaultBiases) (version first)
               else createSketch defaultBiases).
  assert (Hbase : version base = version first /\ biasSet base = defaultBiases /\
                  registers base = replicate (Z.to_nat m) 0).
  { unfold base. destruct (bool_decide _) eqn:Hd; cbn [negb].
    - apply bool_decide_eq_true_1 in Hd. repeat split. exact Hd.
    - repeat split. }
  destruct Hbase as (Hbv & Hbb & Hbr).
  destruct (rollup_fill_columns (map registers (first :: rest)) (registers base))
    as (rs & Hfill & Hlen & Hlook).
  { rewrite Hbr, length_replicate. apply Forall_map.
    eapply Forall_impl; [exact Hall|]. cbn. intros sk [_ [Hl _]]. lia. }
  rewrite Hfill. eexists. split; [reflexivity|].
  cbn [version biasSet registers set_registers].
  rewrite Hbr, length_replicate in *. repeat split; assumption.
Qed.

(** C6, as the code has it. For every non-empty list of sketches sharing one
    version and each holding [m] registers, Rollup returns a new sketch with
    that common version (whatever it is) whose register [i] is the maximum
    of register [i] over the inputs: no input exceeds it and some input
    attains it. For two such sketches the registers are those Merge leaves
    in the first when given the second. *)
Theorem Rollup_is_register_maximum
    (defaultBiases : biases) (first : sketch) (rest : list sketch) :
  Forall (fun sk => version sk = version first /\ well_formed sk) (first :: rest) ->
  exists r,
    Rollup defaultBiases (first :: rest) = Ok r /\
    version r = version first /\
    length (registers r) = Z.to_nat m /\
    (forall i, (i < Z.to_nat m)%nat ->
       exists x, registers r !! i = Some x /\
         (forall sk y, sk ∈ first :: rest -> registers sk !! i = Some y -> y <= x) /\
         (exists sk, sk ∈ first :: rest /\ registers sk !! i = Some x)) /\
    (forall b, rest = [b] ->
       registers r = registers (fst (Merge first b)) /\ snd (Merge first b) = None).
Proof.
  intros Hall.
  destruct (Rollup_full defaultBiases first rest Hall) as (r & HR & Hv & _ & Hlen & Hlook).
  exists r. split; [exact HR|]. split; [exact Hv|]. split; [exact Hlen|]. split.
  - intros i Hi. exists (column_max (map registers (first :: rest)) i).
    split; [apply Hlook, Hi|].
    destruct (column_max_is_maximum (map registers (first :: rest)) i) as [Hup Hatt].
    { discriminate. }
    { apply Forall_map. eapply Forall_impl; [exact Hall|]. cbn.
      intros sk [_ [Hl Hu]].
      destruct (lookup_lt_is_Some_2 (registers sk) i ltac:(lia)) as [y Hy].
      exists y. split; [exact Hy|]. pose proof (is_u8_lookup _ _ _ Hu Hy). lia. }
    split.
    + intros sk y Hin Hy. apply (Hup (registers sk)); [|exact Hy].
      apply list_elem_of_fmap. exists sk. split; [reflexivity | exact Hin].
    + destruct Hatt as (reg & Hin & Hreg).
      apply list_elem_of_fmap in Hin as (sk & -> & Hin). exists sk. split; assumption.
  - intros b ->.
    apply Forall_cons in Hall as [[_ [Hla Hua]] Hall].
    apply Forall_cons in Hall as [[Hvb [Hlb Hub]] _].
    rewrite Merge_compatible by congruence. cbn [fst snd registers set_registers].
    split; [|reflexivity].
    apply list_eq. intros i. rewrite lookup_zip_with.
    destruct (decide (i < Z.to_nat m)%nat) as [Hi|Hi].
    + rewrite (Hlook i Hi).
      destruct (lookup_lt_is_Some_2 (registers first) i ltac:(lia)) as [x Hx].
      destruct (lookup_lt_is_Some_2 (registers b) i ltac:(lia)) as [y Hy].
      unfold column_max. cbn [map foldl]. rewrite Hx, Hy. cbn.
      pose proof (is_u8_lookup _ _ _ Hua Hx). f_equal. lia.
    + rewrite (lookup_ge_None_2 (registers r)) by lia.
      rewrite (lookup_ge_None_2 (registers first)) by lia. reflexivity.
Qed.

Lemma uniformSketch_well_formed (r : Z) : is_u8 r -> well_formed (uniformSketch r).
Proof.
  intros Hr. split; cbn [uniformSketch registers set_registers].
  - apply length_replicate.
  - apply Forall_replicate. exact Hr.
Qed.

Lemma Rollup_is_register_maximum_witness :
  exists r,
    Rollup testBiases rollupInputs = Ok r /\
    version r = "TEST" /\
    length (registers r) = Z.to_nat m /\
    (forall i, (i < Z.to_nat m)%nat ->
       exists x, registers r !! i = Some x /\
         (forall sk y, sk ∈ rollupInputs -> registers sk !! i = Some y -> y <= x) /\
         (exists sk, sk ∈ rollupInputs /\ registers sk !! i = Some x)) /\
    (forall b, [set_version (uniformSketch 2) "TEST"] = [b] ->
       registers r = registers (fst (Merge (set_version (uniformSketch 1) "TEST") b)) /\
       snd (Merge (set_version (uniformSketch 1) "TEST") b) = None).
Proof.
  apply (Rollup_is_register_maximum testBiases
           (set_version (uniformSketch 1) "TEST") [set_version (uniformSketch 2) "TEST"]).
  repeat apply Forall_cons_2; try apply Forall_nil_2;
    (split; [reflexivity | apply uniformSketch_well_formed; unfold is_u8; lia]).
Defined.

(** C6 as stated fails: two sketches of one version and one register length
    (a single register each) are compatible, and Merge combines them, yet
    Rollup indexes them up to [m] and panics. *)
Lemma Rollup_short_registers_panic :
  version shortSketch = version shortSketch /\
  length (registers shortSketch) = length (registers shortSketch) /\
  Merge shortSketch shortSketch = (shortSketch, None) /\
  Rollup testBiases [shortSketch; shortSketch] = Panic.
Proof. vm_compute. repeat split. Qed.

(** ** The interpolation-point walk *)

Section WalkFacts.
Variable maxCardinality : Z.
Variable initialStep : Z.
Variable stepRate : spec_float.

Lemma walk_after_shift (n : nat) (w : walk) :
  walk_after maxCardinality stepRate (S n) w =
    match walk_iter maxCardinality stepRate w with
    | Next w' => walk_after maxCardinality stepRate n w'
    | r => r
    end.
Proof.
  induction n as [|n IH].
  - cbn. destruct (walk_iter maxCardinality stepRate w); reflexivity.
  - change (walk_after maxCardinality stepRate (S (S n)) w)
      with (match walk_after maxCardinality stepRate (S n) w with
            | Next w' => walk_iter maxCardinality stepRate w'
            | r => r
            end).
    rewrite IH. destruct (walk_iter maxCardinality stepRate w); reflexivity.
Qed.

Lemma walk_after_earlier (n k : nat) (w w' : walk) :
  (k <= n)%nat ->
  walk_after maxCardinality stepRate n w = Next w' ->
  exists w'', walk_after maxCardinality stepRate k w = Next w''.
Proof.
  revert w'. induction n as [|n IH]; intros w' Hk Hn.
  - assert (k = 0%nat) as -> by lia. eauto.
  - destruct (decide (k = S n)) as [->|Hne]; [eauto|].
    cbn [walk_after] in Hn.
    destruct (walk_after maxCardinality stepRate n w) as [w1| |] eqn:H1;
      try discriminate.
    apply (IH w1); [lia | reflexivity].
Qed.

(** A walk that is still going after any number of passes never returns. *)
Lemma walk_run_never (fuel : nat) :
  forall w,
  (forall n, exists w', walk_after maxCardinality stepRate n w = Next w') ->
  walk_run maxCardinality stepRate fuel w = None.
Proof.
  induction fuel as [|fuel IH]; intros w Hgo; [reflexivity|].
  cbn [walk_run].
  destruct (Hgo 1%nat) as [w1 H1]. cbn in H1.
  destruct (walk_iter maxCardinality stepRate w) as [w0| |] eqn:Hit; try discriminate.
  apply IH. intros n. destruct (Hgo (S n)) as [w' Hw'].
  rewrite walk_after_shift, Hit in Hw'. eauto.
Qed.
End WalkFacts.

(** Once the step is [0] below the bound and the next change lies ahead,
    a pass changes nothing but the recorded ticks. *)
Lemma walk_iter_stuck (maxCardinality : Z) (stepRate : spec_float) (w : walk) :
  walk_i w < maxCardinality -> walk_i w <= walk_nextStepChange w ->
  walk_step w = 0 -> 0 <= walk_i w < 2 ^ 64 ->
  exists w', walk_iter maxCardinality stepRate w = Next w' /\
             walk_i w' = walk_i w /\ walk_step w' = 0 /\
             walk_nextStepChange w' = walk_nextStepChange w.
Proof.
  intros Hlt Hnext Hstep Hrange. unfold walk_iter.
  rewrite (proj2 (Z.ltb_lt _ _) Hlt), (proj2 (Z.ltb_ge _ _) Hnext).
  eexists. split; [reflexivity|]. cbn [walk_i walk_step walk_nextStepChange].
  rewrite Hstep, Z.add_0_r. unfold u64. rewrite Z.mod_small by lia. repeat split.
Qed.

(** C7, on the code. With [shrinkingOptions] (every check passed, step rate
    [0.5], initial step [1]) the step becomes [uint64(1.0 * 0.5) = 0] on the
    pass that crosses the first sub-range boundary, at [i = 1639]; from
    then on [i] stays at [1639], below [maxCardinality], so the loop of
    calculateInterpolationPoints is still running after any number of
    passes and GenerateBiases never gets past it. *)
Theorem GenerateBiases_zero_step_never_returns :
  validate_options false shrinkingOptions = None /\
  (forall n, exists w,
     walk_after (m + 1) half n (walk_init (m + 1) 1) = Next w /\
     ((1640 <= n)%nat -> walk_i w = 1639 /\ walk_step w = 0)) /\
  (forall fuel, GenerateBiases_cardinalities false shrinkingOptions fuel = None).
Proof.
  assert (Hstuck : forall k, exists w,
            walk_after (m + 1) half (1640 + k) (walk_init (m + 1) 1) = Next w /\
            walk_i w = 1639 /\ walk_step w = 0 /\ walk_nextStepChange w = 3276).
  { induction k as [|k IH].
    - eexists. split; [vm_compute; reflexivity|]. repeat split.
    - destruct IH as (w & Hw & Hi & Hs & Hn).
      destruct (walk_iter_stuck (m + 1) half w) as (w' & Hit & Hi' & Hs' & Hn').
      { rewrite Hi, m_value. lia. }
      { rewrite Hi, Hn. lia. }
      { exact Hs. }
      { rewrite Hi. lia. }
      exists w'. replace (1640 + S k)%nat with (S (1640 + k)) by lia.
      cbn [walk_after]. rewrite Hw. split; [exact Hit|].
      repeat split; congruence. }
  assert (Hgo : forall n, exists w,
            walk_after (m + 1) half n (walk_init (m + 1) 1) = Next w /\
            ((1640 <= n)%nat -> walk_i w = 1639 /\ walk_step w = 0)).
  { intros n. destruct (le_lt_dec 1640 n) as [Hge|Hlt].
    - destruct (Hstuck (n - 1640)%nat) as (w & Hw & Hi & Hs & _).
      replace (1640 + (n - 1640))%nat with n in Hw by lia.
      exists w. split; [exact Hw|]. intros _. split; assumption.
    - destruct (Hstuck 0%nat) as (w & Hw & _).
      destruct (walk_after_earlier (m + 1) half (1640 + 0) n _ w ltac:(lia) Hw) as [w' Hw'].
      exists w'. split; [exact Hw'|]. lia. }
  split; [reflexivity|]. split; [exact Hgo|].
  intros fuel. unfold GenerateBiases_cardinalities.
  change (validate_options false shrinkingOptions) with (@None error).
  cbn [shrinkingOptions MaxCardinality InitialStep StepRate].
  unfold calculateInterpolationPoints.
  rewrite walk_run_never; [reflexivity|].
  intros n. destruct (Hgo n) as (w & Hw & _). eauto.
Qed.

(** ** The wire codec *)

Lemma Z_of_byte_range (b : byte) : 0 <= Wire.Z_of_byte b < 256.
Proof.
  unfold Wire.Z_of_byte. pose proof (Byte.to_N_bounded b). lia.
Qed.

Lemma Z_of_byte_of_Z (z : Z) : Wire.Z_of_byte (Wire.byte_of_Z z) = z mod 256.
Proof.
  unfold Wire.Z_of_byte, Wire.byte_of_Z.
  assert (Hr : 0 <= z mod 256 < 256) by (apply Z.mod_pos_bound; lia).
  destruct (Byte.of_N (Z.to_N (z mod 256))) as [b|] eqn:E; simpl.
  - apply Byte.to_of_N in E. rewrite E. lia.
  - apply Byte.of_N_None_iff in E. lia.
Qed.

Lemma appendVarint_groups_cons (k : nat) (v : Z) :
  exists b tl, Wire.appendVarint_groups k v = b :: tl /\ (length tl <= k)%nat.
Proof.
  revert v. induction k as [|k IH]; intros v; cbn [Wire.appendVarint_groups].
  - eexists _, []. split; [reflexivity | cbn; lia].
  - destruct (v <? 128).
    + eexists _, []. split; [reflexivity | cbn; lia].
    + destruct (IH (v / 128)) as (b & tl & -> & Hl).
      eexists _, (_ :: _). split; [reflexivity | cbn; lia].
Qed.

Lemma consumeVarint_from_cons (k : nat) (shift acc : Z) (y : byte) (rest : list byte) :
  Wire.consumeVarint_from (S k) shift acc (y :: rest) =
    if Wire.Z_of_byte y <? 128 then
      if (k =? 0)%nat && (1 <? Wire.Z_of_byte y) then None
      else Some (acc + Wire.Z_of_byte y * 2 ^ shift, rest)
    else Wire.consumeVarint_from k (shift + 7)
           (acc + (Wire.Z_of_byte y - 128) * 2 ^ shift) rest.
Proof. reflexivity. Qed.

Lemma consumeVarint_from_append (k : nat) :
  forall v shift acc rest,
  0 <= shift -> 0 <= v < 2 ^ (7 * Z.of_nat k + 1) ->
  Wire.consumeVarint_from (S k) shift acc (Wire.appendVarint_groups k v ++ rest)
  = Some (acc + v * 2 ^ shift, rest).
Proof.
  induction k as [|k IH]; intros v shift acc rest Hs Hv.
  - cbn [Wire.appendVarint_groups app]. rewrite consumeVarint_from_cons.
    change (2 ^ (7 * Z.of_nat 0 + 1)) with 2 in Hv.
    rewrite Z_of_byte_of_Z, Z.mod_small by lia.
    rewrite (proj2 (Z.ltb_lt v 128)) by lia.
    rewrite (proj2 (Z.ltb_ge 1 v)) by lia. reflexivity.
  - cbn [Wire.appendVarint_groups].
    destruct (Z.ltb_spec v 128) as [Hlt|Hge].
    + cbn [app]. rewrite consumeVarint_from_cons.
      rewrite Z_of_byte_of_Z, Z.mod_small by lia.
      rewrite (proj2 (Z.ltb_lt v 128)) by lia. reflexivity.
    + cbn [app]. rewrite consumeVarint_from_cons.
      assert (Hm : 0 <= v mod 128 < 128) by (apply Z.mod_pos_bound; lia).
      rewrite Z_of_byte_of_Z, Z.mod_small by lia.
      rewrite (proj2 (Z.ltb_ge (v mod 128 + 128) 128)) by lia.
      rewrite IH.
      * f_equal. f_equal. rewrite Z.pow_add_r by lia.
        pose proof (Z.div_mod v 128 ltac:(lia)) as Hdm.
        replace (v mod 128 + 128 - 128) with (v mod 128) by lia.
        change (2 ^ 7) with 128. nia.
      * lia.
      * split; [apply Z.div_pos; lia|].
        apply Z.div_lt_upper_bound; [lia|].
        replace (7 * Z.of_nat (S k) + 1) with (7 + (7 * Z.of_nat k + 1)) in Hv by lia.
        rewrite Z.pow_add_r in Hv by lia. change (2 ^ 7) with 128 in Hv. lia.
Qed.

Lemma consumeVarint_append (v : Z) (rest : list byte) :
  0 <= v < 2 ^ 64 ->
  Wire.consumeVarint (Wire.appendVarint v ++ rest) = Some (v, rest).
Proof.
  intros Hv. unfold Wire.consumeVarint, Wire.appendVarint.
  rewrite consumeVarint_from_append by (change (7 * Z.of_nat 9 + 1) with 64; lia).
  rewrite Z.pow_0_r. f_equal. f_equal. lia.
Qed.

Lemma appendVarint_length (v : Z) : (1 <= length (Wire.appendVarint v) <= 10)%nat.
Proof.
  unfold Wire.appendVarint.
  destruct (appendVarint_groups_cons 9 v) as (b & tl & -> & Hl). cbn [length]. lia.
Qed.

Lemma packVarints_length (vs : list Z) :
  (length (Wire.packVarints vs) <= 10 * length vs)%nat.
Proof.
  unfold Wire.packVarints. induction vs as [|v vs IH]; cbn [map concat length]; [lia|].
  rewrite length_app. pose proof (appendVarint_length v). lia.
Qed.

Lemma unpackVarints_pack (vs : list Z) :
  Forall (fun v => 0 <= v < 2 ^ 32) vs ->
  forall fuel, (length (Wire.packVarints vs) <= fuel)%nat ->
  Wire.unpackVarints fuel (Wire.packVarints vs) = Some vs.
Proof.
  induction 1 as [|v vs Hv _ IH]; intros fuel Hfuel.
  - destruct fuel; reflexivity.
  - change (Wire.packVarints (v :: vs)) with (Wire.appendVarint v ++ Wire.packVarints vs) in *.
    rewrite length_app in Hfuel. pose proof (appendVarint_length v) as Hl.
    destruct fuel as [|fuel]; [lia|].
    destruct (Wire.appendVarint v ++ Wire.packVarints vs) as [|b0 tl] eqn:E.
    { apply (f_equal length) in E. rewrite length_app in E.
      change (length (@nil byte)) with 0%nat in E. lia. }
    cbn [Wire.unpackVarints]. rewrite <- E.
    rewrite consumeVarint_append by lia.
    rewrite IH by lia. cbn. unfold u32. rewrite Z.mod_small by lia. reflexivity.
Qed.

Lemma unmarshal_fields_unfold (vs : string -> bool) (f : nat) (y : byte)
    (b : list byte) (msg : Wire.SketchPb) :
  Wire.unmarshal_fields vs (S f) (y :: b) msg =
    match Wire.consumeVarint (y :: b) with
    | None => None
    | Some (tag, rest) =>
        let num := Z.shiftr tag 3 in
        let typ := Z.land tag 7 in
        if (num <? 1) || (2 ^ 29 <=? num) then None
        else if (num =? 1) && (typ =? 2) then
          match Wire.consumeVarint rest with
          | Some (len, rest') =>
              if Z.of_nat (length rest') <? len then None
              else
                let v := String.string_of_list_byte (take (Z.to_nat len) rest') in
                if vs v then
                  Wire.unmarshal_fields vs f (drop (Z.to_nat len) rest')
                    {| Wire.Version := v; Wire.Registers := Wire.Registers msg |}
                else None
          | None => None
          end
        else if (num =? 2) && (typ =? 2) then
          match Wire.consumeVarint rest with
          | Some (len, rest') =>
              if Z.of_nat (length rest') <? len then None
              else
                match Wire.unpackVarints (Z.to_nat len) (take (Z.to_nat len) rest') with
                | Some vs' =>
                    Wire.unmarshal_fields vs f (drop (Z.to_nat len) rest')
                      {| Wire.Version := Wire.Version msg;
                         Wire.Registers := Wire.Registers msg ++ vs' |}
                | None => None
                end
          | None => None
          end
        else if (num =? 2) && (typ =? 0) then
          match Wire.consumeVarint rest with
          | Some (v, rest') =>
              Wire.unmarshal_fields vs f rest'
                {| Wire.Version := Wire.Version msg;
                   Wire.Registers := Wire.Registers msg ++ [u32 v] |}
          | None => None
          end
        else
          match Wire.consumeFieldValue (length rest) num typ rest with
          | Some rest' => Wire.unmarshal_fields vs f rest' msg
          | None => None
          end
    end.
Proof. reflexivity. Qed.

Lemma unmarshal_fields_nil (vs : string -> bool) (fuel : nat) (msg : Wire.SketchPb) :
  Wire.unmarshal_fields vs fuel [] msg = Some msg.
Proof. destruct fuel; reflexivity. Qed.

Lemma unmarshal_version_field (vs : string -> bool) (f : nat) (v rest : list byte)
    (msg : Wire.SketchPb) :
  Z.of_nat (length v) < 2 ^ 64 ->
  Wire.unmarshal_fields vs (S f)
    (Wire.byte_of_Z 10 :: Wire.appendVarint (Z.of_nat (length v)) ++ v ++ rest) msg =
  if vs (String.string_of_list_byte v) then
    Wire.unmarshal_fields vs f rest
      {| Wire.Version := String.string_of_list_byte v;
         Wire.Registers := Wire.Registers msg |}
  else None.
Proof.
  intros Hv. rewrite unmarshal_fields_unfold.
  change (Wire.byte_of_Z 10 :: ?x) with (Wire.appendVarint 10 ++ x).
  rewrite consumeVarint_append by lia.
  cbv zeta. change (Z.shiftr 10 3) with 1. change (Z.land 10 7) with 2.
  change ((1 <? 1) || (2 ^ 29 <=? 1)) with false.
  change ((1 =? 1) && (2 =? 2)) with true. cbv iota.
  rewrite consumeVarint_append by lia.
  rewrite length_app, Nat2Z.id, take_app_length, drop_app_length.
  rewrite (proj2 (Z.ltb_ge _ _)) by lia. reflexivity.
Qed.

Lemma unmarshal_registers_field (vs : string -> bool) (f : nat) (regs : list Z)
    (rest : list byte) (msg : Wire.SketchPb) :
  Forall (fun v => 0 <= v < 2 ^ 32) regs ->
  Z.of_nat (length (Wire.packVarints regs)) < 2 ^ 64 ->
  Wire.unmarshal_fields vs (S f)
    (Wire.byte_of_Z 18 :: Wire.appendVarint (Z.of_nat (length (Wire.packVarints regs)))
       ++ Wire.packVarints regs ++ rest) msg =
  Wire.unmarshal_fields vs f rest
    {| Wire.Version := Wire.Version msg; Wire.Registers := Wire.Registers msg ++ regs |}.
Proof.
  intros Hregs Hlen. rewrite unmarshal_fields_unfold.
  change (Wire.byte_of_Z 18 :: ?x) with (Wire.appendVarint 18 ++ x).
  rewrite consumeVarint_append by lia.
  cbv zeta. change (Z.shiftr 18 3) with 2. change (Z.land 18 7) with 2.
  change ((2 <? 1) || (2 ^ 29 <=? 2)) with false.
  change ((2 =? 1) && (2 =? 2)) with false.
  change ((2 =? 2) && (2 =? 2)) with true. cbv iota.
  rewrite consumeVarint_append by lia.
  rewrite length_app, Nat2Z.id, take_app_length, drop_app_length.
  rewrite (proj2 (Z.ltb_ge _ _)) by lia.
  rewrite unpackVarints_pack by (exact Hregs || lia). reflexivity.
Qed.

Lemma list_byte_of_string_length (s : string) :
  length (String.list_byte_of_string s) = String.length s.
Proof.
  unfold String.list_byte_of_string. rewrite length_map.
  induction s as [|a s IH]; cbn; [reflexivity | f_equal; exact IH].
Qed.

(** What was marshalled unmarshals to the same message. *)
Lemma Unmarshal_Marshal (vs : string -> bool) (msg : Wire.SketchPb) (b : list byte) :
  Z.of_nat (String.length (Wire.Version msg)) < 2 ^ 64 ->
  10 * Z.of_nat (length (Wire.Registers msg)) < 2 ^ 64 ->
  Forall (fun v => 0 <= v < 2 ^ 32) (Wire.Registers msg) ->
  Wire.Marshal vs msg = Some b ->
  Wire.Unmarshal vs b = Some msg.
Proof.
  intros Hv Hr Hregs. unfold Wire.Marshal.
  destruct (vs (Wire.Version msg)) eqn:Hvalid; [|discriminate]. cbn [negb].
  intros [= <-]. unfold Wire.Unmarshal.
  pose proof (packVarints_length (Wire.Registers msg)) as Hpl.
  pose proof (String.string_of_list_byte_of_string (Wire.Version msg)) as Hstr.
  pose proof (list_byte_of_string_length (Wire.Version msg)) as Hsl.
  set (v := String.list_byte_of_string (Wire.Version msg)) in *.
  assert (Hfield2 : forall f msg0,
    Wire.unmarshal_fields vs (S f)
      (if bool_decide (Wire.Registers msg = []) then []
       else Wire.byte_of_Z 18
            :: Wire.appendVarint (Z.of_nat (length (Wire.packVarints (Wire.Registers msg))))
               ++ Wire.packVarints (Wire.Registers msg)) msg0
    = Some {| Wire.Version := Wire.Version msg0;
              Wire.Registers := Wire.Registers msg0 ++ Wire.Registers msg |}).
  { intros f msg0. destruct (bool_decide_reflect (Wire.Registers msg = [])) as [E|E].
    - rewrite unmarshal_fields_nil, E, app_nil_r. destruct msg0; reflexivity.
    - rewrite <- (app_nil_r (Wire.packVarints _)) at 2.
      rewrite unmarshal_registers_field by (exact Hregs || lia).
      apply unmarshal_fields_nil. }
  destruct (bool_decide_reflect (v = [])) as [E|E].
  - rewrite app_nil_l.
    assert (Hempty : Wire.Version msg = "").
    { rewrite <- Hstr, E. reflexivity. }
    destruct (bool_decide_reflect (Wire.Registers msg = [])) as [E2|E2].
    + cbn. destruct msg as [ver regs]; cbn in *. congruence.
    + match goal with |- Wire.unmarshal_fields _ (length ?l) _ _ = _ =>
        destruct (length l) as [|f] eqn:El; [discriminate|] end.
      rewrite Hfield2.
      destruct msg as [ver regs]; cbn in *. congruence.
  - match goal with |- Wire.unmarshal_fields _ (length ?l) _ _ = _ =>
      destruct (length l) as [|f] eqn:El; [discriminate|] end.
    rewrite <- app_comm_cons, <- app_assoc.
    rewrite unmarshal_version_field by lia.
    rewrite Hstr, Hvalid.
    destruct f as [|f].
    + exfalso. cbn in El. rewrite !length_app in El.
      pose proof (appendVarint_length (Z.of_nat (length v))).
      destruct v; [congruence | cbn in El; lia].
    + rewrite Hfield2. destruct msg; reflexivity.
Qed.

(** ** ProtoSerialize and ProtoDeserialize *)

Lemma fill_registers_fits (pb : list Z) :
  forall i rs, (i + length pb <= length rs)%nat ->
  fill_registers i pb rs = Some (take i rs ++ map u8 pb ++ drop (i + length pb) rs).
Proof.
  induction pb as [|x pb IH]; intros i rs Hlen; cbn [fill_registers map length] in *.
  - rewrite Nat.add_0_r, app_nil_l, take_drop. reflexivity.
  - rewrite (proj2 (Nat.ltb_lt i (length rs))) by lia.
    rewrite IH by (rewrite length_insert; lia).
    f_equal.
    rewrite (take_S_r _ i (u8 x)) by (apply list_lookup_insert_eq; lia).
    rewrite take_insert_ge by lia.
    rewrite drop_insert_lt by lia.
    rewrite <- app_assoc. cbn [app].
    replace (S i + length pb)%nat with (i + S (length pb))%nat by lia. reflexivity.
Qed.

Lemma fill_registers_zero (n : nat) (pb : list Z) :
  (length pb <= n)%nat ->
  fill_registers 0 pb (replicate n 0) = Some (map u8 pb ++ replicate (n - length pb) 0).
Proof.
  intros Hlen.
  rewrite fill_registers_fits by (rewrite length_replicate; lia).
  cbn [take app]. rewrite Nat.add_0_l, drop_replicate. reflexivity.
Qed.

Lemma fill_registers_overflow (pb : list Z) :
  forall i rs, (i <= length rs)%nat -> (length rs < i + length pb)%nat ->
  fill_registers i pb rs = None.
Proof.
  induction pb as [|x pb IH]; intros i rs Hi Hlen; cbn [fill_registers length] in *.
  - lia.
  - destruct (Nat.ltb_spec i (length rs)) as [Hlt|Hge]; [|reflexivity].
    apply IH; rewrite length_insert; lia.
Qed.

Lemma fill_registers_length (pb : list Z) :
  forall i rs rs', fill_registers i pb rs = Some rs' -> length rs' = length rs.
Proof.
  induction pb as [|x pb IH]; intros i rs rs'; cbn [fill_registers].
  - intros [= <-]. reflexivity.
  - destruct (i <? length rs)%nat; [|discriminate].
    intros H. apply IH in H. rewrite length_insert in H. exact H.
Qed.

Section ProtoFacts.
Variable defaultBiases : biases.
Variable validString : string -> bool.

Lemma createSketch_registers (v : string) :
  registers (set_version (createSketch defaultBiases) v) = replicate (Z.to_nat m) 0.
Proof. reflexivity. Qed.

Lemma ProtoDeserialize_decoded (b : list byte) (pb : Wire.SketchPb) :
  Wire.Unmarshal validString b = Some pb ->
  (length (Wire.Registers pb) <= Z.to_nat m)%nat ->
  ProtoDeserialize defaultBiases validString (Some b) =
    Ok {| biasSet := defaultBiases;
          registers := map u8 (Wire.Registers pb)
                       ++ replicate (Z.to_nat m - length (Wire.Registers pb)) 0;
          version := Wire.Version pb |}.
Proof.
  intros Hpb Hlen. unfold ProtoDeserialize. rewrite Hpb.
  rewrite createSketch_registers, fill_registers_zero by exact Hlen. reflexivity.
Qed.

Lemma ProtoDeserialize_length (protoBs : option (list byte)) (s : sketch) :
  ProtoDeserialize defaultBiases validString protoBs = Ok s ->
  length (registers s) = Z.to_nat m.
Proof.
  unfold ProtoDeserialize. destruct protoBs as [b|]; [|discriminate].
  destruct (Wire.Unmarshal validString b) as [pb|]; [|discriminate].
  destruct (fill_registers 0 _ _) as [rs|] eqn:Hfill; [|discriminate].
  intros [= <-]. cbn [registers set_registers].
  apply fill_registers_length in Hfill. rewrite Hfill.
  rewrite createSketch_registers. apply length_replicate.
Qed.

Lemma map_u8_id (rs : list Z) : Forall is_u8 rs -> map u8 rs = rs.
Proof.
  induction 1 as [|r rs Hr _ IH]; cbn [map]; [reflexivity|].
  rewrite IH. unfold u8, is_u8 in *. rewrite Z.mod_small by lia. reflexivity.
Qed.

Lemma map_u32_id (rs : list Z) : Forall is_u8 rs -> map u32 rs = rs.
Proof.
  induction 1 as [|r rs Hr _ IH]; cbn [map]; [reflexivity|].
  rewrite IH. unfold u32, is_u8 in *. rewrite Z.mod_small by lia. reflexivity.
Qed.

Lemma roundtrip (s : sketch) :
  well_formed s ->
  Z.of_nat (String.length (version s)) < 2 ^ 64 ->
  validString (version s) = true ->
  exists b,
    ProtoSerialize validString s = Ok b /\
    ProtoDeserialize defaultBiases validString (Some b) = Ok (set_biasSet s defaultBiases).
Proof.
  intros [Hlen Hu8] Hv Hvalid. unfold ProtoSerialize.
  destruct (Wire.Marshal validString _) as [b|] eqn:Hm; cycle 1.
  { unfold Wire.Marshal in Hm. cbn [Wire.Version] in Hm. rewrite Hvalid in Hm. discriminate. }
  exists b. split; [reflexivity|].
  apply Unmarshal_Marshal in Hm; cbn [Wire.Version Wire.Registers].
  - rewrite (ProtoDeserialize_decoded b _ Hm); cbn [Wire.Version Wire.Registers].
    + rewrite length_map, Hlen, Nat.sub_diag. cbn [replicate].
      rewrite app_nil_r, map_u32_id, map_u8_id by exact Hu8. reflexivity.
    + rewrite length_map. lia.
  - exact Hv.
  - rewrite length_map, Hlen, m_value. lia.
  - rewrite map_u32_id by exact Hu8.
    eapply Forall_impl; [exact Hu8|]. unfold is_u8. cbn. intros; lia.
Qed.
End ProtoFacts.

(** C2, as the code has it. ProtoDeserialize returns an error for the [nil]
    payload and for a payload that does not decode; a decoded message with
    at most [m] registers gives a sketch of exactly [m] registers, the
    decoded ones (cut to 8 bits) first and zeros after them; and whenever a
    sketch is returned it has exactly [m] registers. *)
Theorem ProtoDeserialize_checks_and_pads
    (defaultBiases : biases) (validString : string -> bool)
    (protoBs : option (list byte)) :
  match protoBs with
  | None =>
      ProtoDeserialize defaultBiases validString protoBs
      = Err (Errorf "cannot deserialize nil proto")
  | Some b =>
      match Wire.Unmarshal validString b with
      | None => exists e, ProtoDeserialize defaultBiases validString protoBs = Err e
      | Some pb =>
          if decide (length (Wire.Registers pb) <= Z.to_nat m)%nat then
            ProtoDeserialize defaultBiases validString protoBs =
              Ok {| biasSet := defaultBiases;
                    registers := map u8 (Wire.Registers pb)
                                 ++ replicate (Z.to_nat m - length (Wire.Registers pb)) 0;
                    version := Wire.Version pb |}
          else True
      end
  end /\
  forall s, ProtoDeserialize defaultBiases validString protoBs = Ok s ->
            length (registers s) = Z.to_nat m.
Proof.
  split.
  - destruct protoBs as [b|]; [|reflexivity].
    destruct (Wire.Unmarshal validString b) as [pb|] eqn:Hpb.
    + destruct (decide _) as [Hle|_]; [|exact I].
      apply ProtoDeserialize_decoded; assumption.
    + unfold ProtoDeserialize. rewrite Hpb. eauto.
  - intros s. apply ProtoDeserialize_length.
Qed.

(** C2 as stated fails twice: an empty (non-nil) payload is accepted and
    gives the zero-valued sketch, and a payload that carries a single
    register is accepted and padded to [m] registers. *)
Lemma ProtoDeserialize_accepts_empty_and_short :
  ProtoDeserialize testBiases anyString (Some []) =
    Ok {| biasSet := testBiases; registers := replicate (Z.to_nat m) 0; version := "" |} /\
  Wire.Unmarshal anyString [Byte.x12; Byte.x01; Byte.x05] =
    Some {| Wire.Version := ""; Wire.Registers := [5] |} /\
  ProtoDeserialize testBiases anyString (Some [Byte.x12; Byte.x01; Byte.x05]) =
    Ok {| biasSet := testBiases;
          registers := 5 :: replicate (Z.to_nat m - 1) 0; version := "" |}.
Proof. vm_compute. repeat split. Qed.

(** More than [m] decoded registers: the assignment runs off the array. *)
Lemma ProtoDeserialize_too_many (defaultBiases : biases) (validString : string -> bool)
    (b : list byte) (pb : Wire.SketchPb) :
  Wire.Unmarshal validString b = Some pb ->
  (Z.to_nat m < length (Wire.Registers pb))%nat ->
  ProtoDeserialize defaultBiases validString (Some b) = Panic.
Proof.
  intros Hpb Hlen. unfold ProtoDeserialize. rewrite Hpb.
  rewrite createSketch_registers.
  rewrite fill_registers_overflow; [reflexivity| |]; rewrite length_replicate; lia.
Qed.

(** C8, as the code has it. A sketch with [m] byte registers whose version
    the runtime accepts serializes, and deserializing the bytes gives a
    sketch with the same version and the same registers, bound to the
    default bias table: its estimate is the one the original gives under
    the default table, hence the original's own estimate when that is the
    table it is bound to. *)
Theorem ProtoDeserialize_ProtoSerialize
    (defaultBiases : biases) (validString : string -> bool) (s : sketch) :
  well_formed s ->
  Z.of_nat (String.length (version s)) < 2 ^ 64 ->
  validString (version s) = true ->
  exists b s',
    ProtoSerialize validString s = Ok b /\
    ProtoDeserialize defaultBiases validString (Some b) = Ok s' /\
    version s' = version s /\
    registers s' = registers s /\
    biasSet s' = defaultBiases /\
    (forall Log, Estimate Log s' = Estimate Log (set_biasSet s defaultBiases)) /\
    (biasSet s = defaultBiases -> forall Log, Estimate Log s' = Estimate Log s).
Proof.
  intros Hwf Hlen Hvalid.
  destruct (roundtrip defaultBiases validString s Hwf Hlen Hvalid) as (b & Hser & Hde).
  exists b, (set_biasSet s defaultBiases).
  split; [exact Hser|]. split; [exact Hde|].
  cbn [set_biasSet version registers biasSet]. repeat split.
  intros Hb Log. rewrite <- Hb. destruct s; reflexivity.
Qed.

Lemma ProtoDeserialize_ProtoSerialize_witness :
  exists b s',
    ProtoSerialize anyString (uniformSketch 3) = Ok b /\
    ProtoDeserialize testBiases anyString (Some b) = Ok s' /\
    version s' = version (uniformSketch 3) /\
    registers s' = registers (uniformSketch 3) /\
    biasSet s' = testBiases /\
    (forall Log, Estimate Log s' = Estimate Log (set_biasSet (uniformSketch 3) testBiases)) /\
    (biasSet (uniformSketch 3) = testBiases ->
     forall Log, Estimate Log s' = Estimate Log (uniformSketch 3)).
Proof.
  apply (ProtoDeserialize_ProtoSerialize testBiases anyString (uniformSketch 3)).
  - apply uniformSketch_well_formed. unfold is_u8. lia.
  - vm_compute. reflexivity.
  - reflexivity.
Defined.

Lemma serialized_ok (s : sketch) (b : list byte) :
  ProtoSerialize anyString s = Ok b -> ProtoSerialize anyString s = Ok (serialized s).
Proof. intros H. unfold serialized. rewrite H. reflexivity. Qed.

(** C8 as stated fails twice. A sketch holding a single register comes back
    with [m] registers. And a sketch bound to a custom bias table comes back
    bound to the default one: with [testBiases] standing as the default and
    every register at [1], the original estimates [0] under its all-zero
    table and the round-tripped sketch estimates its raw [23637]. *)
Lemma roundtrip_short_registers_and_custom_biases :
  (exists s', ProtoSerialize anyString shortSketch = Ok (serialized shortSketch) /\
     ProtoDeserialize testBiases anyString (Some (serialized shortSketch)) = Ok s' /\
     length (registers s') = Z.to_nat m /\ length (registers shortSketch) = 1%nat) /\
  (exists s', ProtoSerialize anyString (set_biasSet (uniformSketch 1) zeroBiases)
              = Ok (serialized (set_biasSet (uniformSketch 1) zeroBiases)) /\
     ProtoDeserialize testBiases anyString
       (Some (serialized (set_biasSet (uniformSketch 1) zeroBiases))) = Ok s' /\
     Estimate sampleLog (set_biasSet (uniformSketch 1) zeroBiases) = Some 0 /\
     Estimate sampleLog s' = Some 23637).
Proof.
  split.
  - exists {| biasSet := testBiases;
              registers := map u8 [0] ++ replicate (Z.to_nat m - length [0]) 0;
              version := "1" |}.
    split; [reflexivity|]. split.
    + apply (ProtoDeserialize_decoded testBiases anyString _
               {| Wire.Version := "1"; Wire.Registers := [0] |}); [reflexivity|].
      cbn [Wire.Registers length]. rewrite m_value. lia.
    + split; [|reflexivity]. cbn [registers].
      rewrite length_app, length_replicate. cbn [map length]. rewrite m_value. lia.
  - destruct (roundtrip testBiases anyString (set_biasSet (uniformSketch 1) zeroBiases))
      as (b & Hser & Hde).
    + split; [apply length_replicate | apply Forall_replicate; unfold is_u8; lia].
    + vm_compute. reflexivity.
    + reflexivity.
    + pose proof (serialized_ok _ _ Hser) as Hs. rewrite Hser in Hs. injection Hs as Hs.
      rewrite <- Hs. eexists. split; [exact Hser|]. split; [exact Hde|].
      split; vm_compute; reflexivity.
Qed.

(** ** The estimator's counters *)

Lemma sf_eqb_eq (x y : spec_float) : sf_eqb x y = true -> x = y.
Proof.
  destruct x as [a|a| |a m1 e1], y as [b|b| |b m2 e2]; cbn [sf_eqb]; try discriminate;
    try reflexivity.
  - intros H. apply Bool.eqb_prop in H. congruence.
  - intros H. apply Bool.eqb_prop in H. congruence.
  - intros H. apply andb_prop in H as [H He]. apply andb_prop in H as [Hs Hm].
    apply Bool.eqb_prop in Hs. apply Pos.eqb_eq in Hm. apply Z.eqb_eq in He. congruence.
Qed.

Lemma check_from_sound (p : Z -> bool) (n : nat) :
  forall k0, check_from p n k0 = true ->
  forall k, k0 <= k < k0 + Z.of_nat n -> p k = true.
Proof.
  induction n as [|n IH]; intros k0 Hc k Hk; [lia|].
  cbn [check_from] in Hc. apply andb_prop in Hc as [Hp Hc].
  destruct (decide (k = k0)) as [->|Hne]; [exact Hp|].
  apply (IH (k0 + 1)); [exact Hc | lia].
Qed.

(** The float counters of the two loops count exactly: below [m] every
    [+= 1] lands on the next integer. *)
Lemma counter_step_checked :
  check_from (fun k => sf_eqb (Float64.add (Float64.of_Z k) Float64.one)
                              (Float64.of_Z (k + 1)))
             (Z.to_nat 16384) 0 = true.
Proof. vm_compute. reflexivity. Qed.

Lemma counter_step (k : Z) :
  0 <= k < m ->
  Float64.add (Float64.of_Z k) Float64.one = Float64.of_Z (k + 1).
Proof.
  intros Hk. apply sf_eqb_eq.
  apply (check_from_sound _ _ 0 counter_step_checked k).
  rewrite m_value in Hk. lia.
Qed.

Lemma filter_length_le (f : Z -> bool) (rs : list Z) :
  (length (List.filter f rs) <= length rs)%nat.
Proof.
  induction rs as [|r rs IH]; cbn [List.filter length]; [lia|].
  destruct (f r); cbn [length]; lia.
Qed.

Lemma harmonic_loop_from (rs : list Z) :
  forall (sum : spec_float) (c : Z),
  0 <= c -> c + Z.of_nat (length rs) <= m ->
  foldl (fun '(sum, registersUsed) n =>
           if n <=? 0 then (sum, registersUsed)
           else (Float64.add sum (Float64.pow2_neg n),
                 Float64.add registersUsed Float64.one))
        (sum, Float64.of_Z c) rs
  = (foldl (fun sum n => Float64.add sum (Float64.pow2_neg n)) sum (nonzero_registers rs),
     Float64.of_Z (c + count_nonzero rs)).
Proof.
  unfold count_nonzero, nonzero_registers.
  induction rs as [|r rs IH]; intros sum c Hc Hlen; cbn [foldl List.filter length] in *.
  - rewrite Z.add_0_r. reflexivity.
  - destruct (Z.leb_spec r 0) as [Hr|Hr].
    + rewrite (proj2 (Z.ltb_ge 0 r)) by lia. apply IH; lia.
    + rewrite (proj2 (Z.ltb_lt 0 r)) by lia. cbn [foldl length].
      rewrite counter_step by lia. rewrite IH by lia. f_equal. f_equal. lia.
Qed.

Lemma harmonic_loop_counts (rs : list Z) :
  Z.of_nat (length rs) <= m ->
  harmonic_loop rs = (harmonic_sum rs, Float64.of_Z (count_nonzero rs)).
Proof.
  intros Hlen. unfold harmonic_loop, harmonic_sum.
  change Float64.zero with (Float64.of_Z 0) at 2.
  rewrite harmonic_loop_from by lia. reflexivity.
Qed.

Lemma zero_loop_from (rs : list Z) :
  forall c : Z,
  0 <= c -> c + Z.of_nat (length rs) <= m ->
  foldl (fun registersUsed n =>
           if n <=? 0 then Float64.add registersUsed Float64.one else registersUsed)
        (Float64.of_Z c) rs
  = Float64.of_Z (c + count_zero rs).
Proof.
  unfold count_zero.
  induction rs as [|r rs IH]; intros c Hc Hlen; cbn [foldl List.filter length] in *.
  - rewrite Z.add_0_r. reflexivity.
  - destruct (Z.leb_spec r 0) as [Hr|Hr].
    + cbn [length]. rewrite counter_step by lia. rewrite IH by lia. f_equal. lia.
    + apply IH; lia.
Qed.

Lemma zero_loop_counts (rs : list Z) :
  Z.of_nat (length rs) <= m ->
  zero_loop rs = Float64.of_Z (count_zero rs).
Proof.
  intros Hlen. unfold zero_loop.
  change Float64.zero with (Float64.of_Z 0).
  rewrite zero_loop_from by lia. reflexivity.
Qed.

Lemma count_nonzero_range (rs : list Z) :
  0 <= count_nonzero rs <= Z.of_nat (length rs).
Proof.
  unfold count_nonzero, nonzero_registers.
  pose proof (filter_length_le (fun n => 0 <? n) rs). lia.
Qed.

Lemma count_zero_range (rs : list Z) :
  0 <= count_zero rs <= Z.of_nat (length rs).
Proof.
  unfold count_zero. pose proof (filter_length_le (fun n => n <=? 0) rs). lia.
Qed.

(** ** float64 rounding: shifts and the rounding of a mantissa *)

Lemma digits2_pos_size (p : positive) : digits2_pos p = Pos.size p.
Proof. induction p as [p IH|p IH|]; cbn; rewrite ?IH; reflexivity. Qed.

(** [2^(d-1) <= p < 2^d] for [d] the number of binary digits of [p]. *)
Lemma digits2_bounds (p : positive) :
  2 ^ (Z.pos (digits2_pos p) - 1) <= Z.pos p < 2 ^ Z.pos (digits2_pos p).
Proof.
  rewrite digits2_pos_size. split.
  - pose proof (Pos.size_le p) as H.
    apply Pos2Z.pos_le_pos in H. rewrite Pos2Z.inj_pow in H.
    assert (E : 2 ^ Z.pos (Pos.size p) = 2 * 2 ^ (Z.pos (Pos.size p) - 1)).
    { rewrite <- Z.pow_succ_r by lia. f_equal. lia. }
    rewrite E in H. lia.
  - pose proof (Pos.size_gt p) as H.
    apply Pos2Z.pos_lt_pos in H. rewrite Pos2Z.inj_pow in H. exact H.
Qed.

Lemma shr_1_nonneg (mm : Z) (r s : bool) :
  0 <= mm ->
  shr_1 {| shr_m := mm; shr_r := r; shr_s := s |} =
    {| shr_m := mm / 2; shr_r := Z.odd mm; shr_s := r || s |}.
Proof.
  intros Hm. destruct mm as [|p|p]; [reflexivity| |lia].
  destruct p as [p|p|]; cbn [shr_1].
  - f_equal. rewrite Pos2Z.inj_xI.
    apply (Z.div_unique (2 * Z.pos p + 1) 2 (Z.pos p) 1); lia.
  - f_equal. rewrite Pos2Z.inj_xO.
    apply (Z.div_unique (2 * Z.pos p) 2 (Z.pos p) 0); lia.
  - reflexivity.
Qed.

Lemma iter_pos_nat {A : Type} (f : A -> A) (p : positive) (x : A) :
  SpecFloat.iter_pos f p x = Nat.iter (Pos.to_nat p) f x.
Proof.
  revert x. induction p as [p IH|p IH|]; intros x; cbn [SpecFloat.iter_pos].
  - rewrite !IH, Pos2Nat.inj_xI.
    replace (S (2 * Pos.to_nat p)) with (Pos.to_nat p + (Pos.to_nat p + 1))%nat by lia.
    rewrite !Nat.iter_add. reflexivity.
  - rewrite !IH, Pos2Nat.inj_xO.
    replace (2 * Pos.to_nat p)%nat with (Pos.to_nat p + Pos.to_nat p)%nat by lia.
    rewrite Nat.iter_add. reflexivity.
  - reflexivity.
Qed.

(** [n] right shifts of a non-negative mantissa divide it by [2^n]; from
    clear round and sticky bits, both are clear again exactly when nothing
    was shifted out. *)
Lemma shr_iter (n : nat) (mm : Z) :
  0 <= mm ->
  let res := Nat.iter n shr_1 {| shr_m := mm; shr_r := false; shr_s := false |} in
  shr_m res = mm / 2 ^ Z.of_nat n /\
  (shr_r res || shr_s res = negb (mm mod 2 ^ Z.of_nat n =? 0)).
Proof.
  intros Hm. cbv zeta. induction n as [|n IH].
  - cbn. rewrite Z.div_1_r, Z.mod_1_r. split; reflexivity.
  - rewrite Nat.iter_succ.
    destruct (Nat.iter n shr_1 _) as [mn rn sn]. cbn [shr_m shr_r shr_s] in IH.
    destruct IH as [IHm IHrs].
    assert (Hp : 0 < 2 ^ Z.of_nat n) by (apply Z.pow_pos_nonneg; lia).
    assert (Hmn : 0 <= mn) by (rewrite IHm; apply Z.div_pos; lia).
    rewrite shr_1_nonneg by exact Hmn. cbn [shr_m shr_r shr_s].
    replace (Z.of_nat (S n)) with (Z.of_nat n + 1) by lia.
    rewrite Z.pow_add_r, Z.pow_1_r by lia.
    split.
    + rewrite IHm, Z.div_div by lia. reflexivity.
    + rewrite IHrs, IHm.
      rewrite Z.rem_mul_r by lia.
      pose proof (Z.mod_pos_bound mm (2 ^ Z.of_nat n) Hp) as Hb1.
      pose proof (Z.mod_pos_bound (mm / 2 ^ Z.of_nat n) 2 ltac:(lia)) as Hb2.
      rewrite <- Z.negb_even, Zeven_mod.
      destruct (Z.eqb_spec (mm mod 2 ^ Z.of_nat n) 0) as [E1|E1];
        destruct (Z.eqb_spec ((mm / 2 ^ Z.of_nat n) mod 2) 0) as [E2|E2]; cbn;
        symmetry; rewrite ?Bool.negb_true_iff, ?Bool.negb_false_iff;
        [apply Z.eqb_eq | apply Z.eqb_neq | apply Z.eqb_neq | apply Z.eqb_neq]; nia.
Qed.

Lemma shr_iter_m (n : nat) (mm : Z) (r s : bool) :
  0 <= mm ->
  shr_m (Nat.iter n shr_1 {| shr_m := mm; shr_r := r; shr_s := s |}) = mm / 2 ^ Z.of_nat n.
Proof.
  intros Hm. induction n as [|n IH].
  - cbn. rewrite Z.div_1_r. reflexivity.
  - rewrite Nat.iter_succ.
    destruct (Nat.iter n shr_1 _) as [mn rn sn]. cbn [shr_m] in IH.
    assert (Hp : 0 < 2 ^ Z.of_nat n) by (apply Z.pow_pos_nonneg; lia).
    assert (Hmn : 0 <= mn) by (rewrite IH; apply Z.div_pos; lia).
    rewrite shr_1_nonneg by exact Hmn. cbn [shr_m].
    replace (Z.of_nat (S n)) with (Z.of_nat n + 1) by lia.
    rewrite Z.pow_add_r, Z.pow_1_r, IH, Z.div_div by lia. reflexivity.
Qed.

Lemma fexp64 (x : Z) : fexp 53 1024 x = Z.max (x - 53) (-1074).
Proof. reflexivity. Qed.

(** The shift [shr_fexp] performs: by [n >= 0] bits, up to the exponent
    [fexp] asks for, dividing the mantissa by [2^n]. *)
Lemma shr_fexp_shift (mm e : Z) (l : location) (mrs : shr_record) (e' : Z) :
  0 <= mm ->
  shr_fexp 53 1024 mm e l = (mrs, e') ->
  exists n, 0 <= n /\ e' = e + n /\
    n = Z.max 0 (fexp 53 1024 (Zdigits2 mm + e) - e) /\
    shr_m mrs = mm / 2 ^ n /\
    (n = 0 -> mrs = shr_record_of_loc mm l) /\
    (l = loc_Exact -> shr_r mrs || shr_s mrs = negb (mm mod 2 ^ n =? 0)).
Proof.
  intros Hm. unfold shr_fexp, shr.
  destruct (fexp 53 1024 (Zdigits2 mm + e) - e) as [|p|p] eqn:Hn.
  - intros [= <- <-]. exists 0. rewrite Z.add_0_r, Z.pow_0_r, Z.div_1_r, Z.mod_1_r.
    repeat split; try lia.
    + destruct l as [|[]]; reflexivity.
    + intros ->. reflexivity.
  - intros [= <- <-]. exists (Z.pos p). rewrite iter_pos_nat.
    split; [lia|]. split; [reflexivity|]. split; [lia|].
    rewrite <- (positive_nat_Z p). split; [|split].
    + destruct l as [|[]]; apply shr_iter_m; exact Hm.
    + lia.
    + intros ->. apply (shr_iter (Pos.to_nat p) mm Hm).
  - intros [= <- <-]. exists 0. rewrite Z.add_0_r, Z.pow_0_r, Z.div_1_r, Z.mod_1_r.
    repeat split; try lia.
    + destruct l as [|[]]; reflexivity.
    + intros ->. reflexivity.
Qed.

Lemma round_nearest_even_range (mm : Z) (l : location) :
  mm <= round_nearest_even mm l <= mm + 1.
Proof.
  destruct l as [|[]]; cbn [round_nearest_even]; try lia.
  destruct (Z.even mm); lia.
Qed.

Lemma loc_of_shr_record_exact (mrs : shr_record) :
  shr_r mrs || shr_s mrs = false -> loc_of_shr_record mrs = loc_Exact.
Proof. destruct mrs as [mm [] []]; cbn; congruence. Qed.

Lemma pow2_le_inv (a b : Z) : 0 <= b -> 2 ^ a <= 2 ^ b -> a <= b.
Proof.
  intros Hb H. destruct (Z.le_gt_cases a b) as [|Hgt]; [assumption|].
  apply (Z.pow_lt_mono_r 2) in Hgt; lia.
Qed.

Lemma pow2_lt_inv (a b : Z) : 0 <= b -> 2 ^ a < 2 ^ b -> a < b.
Proof.
  intros Hb H. destruct (Z.lt_ge_cases a b) as [|Hge]; [assumption|].
  apply (Z.pow_le_mono_r 2) in Hge; lia.
Qed.

Lemma Zdigits2_pos_bounds (mm : Z) :
  0 < mm -> 1 <= Zdigits2 mm /\ 2 ^ (Zdigits2 mm - 1) <= mm < 2 ^ Zdigits2 mm.
Proof.
  intros Hm. destruct mm as [|p|p]; try lia. cbn [Zdigits2].
  split; [lia | apply digits2_bounds].
Qed.

Lemma in_sum_range_magnitude (k mm e : Z) :
  1 <= k <= 2 ^ 14 -> in_sum_range k mm e ->
  -254 <= Zdigits2 mm + e <= 14.
Proof.
  intros Hk (Hm & He & Hlo & Hhi).
  destruct (Zdigits2_pos_bounds mm Hm) as (Hd & Hdl & Hdu).
  assert (HU : 0 < 2 ^ (e + 1074)) by (apply Z.pow_pos_nonneg; lia).
  split.
  - assert (H : 2 ^ 819 < 2 ^ (Zdigits2 mm + e + 1074)).
    { replace (Zdigits2 mm + e + 1074) with (Zdigits2 mm + (e + 1074)) by lia.
      rewrite Z.pow_add_r by lia. nia. }
    apply pow2_lt_inv in H; lia.
  - assert (H : 2 ^ (Zdigits2 mm - 1 + (e + 1074)) <= 2 ^ 1087).
    { rewrite Z.pow_add_r by lia.
      change (2 ^ 1087) with (2 ^ 14 * 2 ^ 1073).
      assert (0 < 2 ^ 1073) by (apply Z.pow_pos_nonneg; lia). nia. }
    apply pow2_le_inv in H; lia.
Qed.

Lemma shr_fexp_in_sum_range (k mm e : Z) (mrs : shr_record) (e' : Z) :
  1 <= k <= 2 ^ 14 -> in_sum_range k mm e ->
  shr_fexp 53 1024 mm e loc_Exact = (mrs, e') ->
  in_sum_range k (shr_m mrs) e' /\
  in_sum_range k (round_nearest_even (shr_m mrs) (loc_of_shr_record mrs)) e'.
Proof.
  intros Hk Hin Hshr.
  pose proof (in_sum_range_magnitude k mm e Hk Hin) as Hmag.
  destruct Hin as (Hm & He & Hlo & Hhi).
  destruct (Zdigits2_pos_bounds mm Hm) as (Hd & Hdl & Hdu).
  destruct (shr_fexp_shift mm e loc_Exact mrs e' ltac:(lia) Hshr)
    as (n & Hn0 & -> & Hn & Hm1 & Hsame & Hflags).
  rewrite fexp64 in Hn. specialize (Hflags eq_refl).
  destruct (Z.eq_dec n 0) as [->|Hnz].
  - rewrite (Hsame eq_refl). cbn [shr_record_of_loc shr_m loc_of_shr_record round_nearest_even].
    rewrite Z.add_0_r. unfold in_sum_range. repeat split; lia.
  - assert (Hnd : n = Zdigits2 mm - 53) by lia.
    set (U := 2 ^ (e + 1074)) in *.
    assert (HU : 0 < U) by (apply Z.pow_pos_nonneg; lia).
    assert (HP : 0 < 2 ^ n) by (apply Z.pow_pos_nonneg; lia).
    assert (HW : 2 ^ (e + n + 1074) = 2 ^ n * U).
    { unfold U. rewrite <- Z.pow_add_r by lia. f_equal. lia. }
    pose proof (Z.div_mod mm (2 ^ n) ltac:(lia)) as Hdm.
    pose proof (Z.mod_pos_bound mm (2 ^ n) HP) as Hrem.
    set (m1 := mm / 2 ^ n) in *. set (rem := mm mod 2 ^ n) in *.
    assert (Hm1lo : 2 ^ 52 <= m1).
    { apply Z.div_le_lower_bound; [lia|].
      replace (Zdigits2 mm - 1) with (n + 52) in Hdl by lia.
      rewrite Z.pow_add_r in Hdl by lia. lia. }
    assert (Hlow : 2 ^ 819 <= 2 ^ 52 * (2 ^ n * U)).
    { rewrite <- HW, <- Z.pow_add_r by lia. apply Z.pow_le_mono_r; lia. }
    assert (HB : k * 2 ^ 1073 = k * 2 ^ (-1 - (e + n)) * (2 ^ n * U)).
    { rewrite <- HW, <- Z.mul_assoc, <- Z.pow_add_r by lia. do 2 f_equal. lia. }
    assert (HBi : 0 < 2 ^ (-1 - (e + n))) by (apply Z.pow_pos_nonneg; lia).
    set (Bi := k * 2 ^ (-1 - (e + n))) in *.
    assert (Hm1up : m1 <= Bi) by nia.
    rewrite Hm1.
    assert (Hfloor : in_sum_range k m1 (e + n)).
    { unfold in_sum_range. rewrite HW. repeat split; try lia; nia. }
    split; [exact Hfloor|].
    pose proof (round_nearest_even_range m1 (loc_of_shr_record mrs)) as Hround.
    destruct (Z.eqb_spec rem 0) as [Hex|Hinex].
    + rewrite loc_of_shr_record_exact by exact Hflags. exact Hfloor.
    + assert (Hstrict : m1 + 1 <= Bi) by nia.
      unfold in_sum_range. rewrite HW. repeat split; try lia; nia.
Qed.

Lemma binary_round_aux_in_sum_range (k : Z) (mz : positive) (ez : Z) :
  1 <= k <= 2 ^ 14 -> in_sum_range k (Z.pos mz) ez ->
  exists m3 e3,
    binary_round_aux 53 1024 false (Z.pos mz) ez loc_Exact = S754_finite false m3 e3 /\
    in_sum_range k (Z.pos m3) e3.
Proof.
  intros Hk Hin. unfold binary_round_aux.
  destruct (shr_fexp 53 1024 (Z.pos mz) ez loc_Exact) as [mrs' e'] eqn:H1.
  destruct (shr_fexp_in_sum_range k _ _ _ _ Hk Hin H1) as [_ Hround].
  destruct (shr_fexp 53 1024 _ e' loc_Exact) as [mrs'' e''] eqn:H2.
  destruct (shr_fexp_in_sum_range k _ _ _ _ Hk Hround H2) as [Hfinal _].
  destruct Hfinal as (Hm & He & Hb).
  destruct (shr_m mrs'') as [|m3|m3] eqn:Hm3; try lia.
  rewrite (proj2 (Z.leb_le e'' (1024 - 53))) by lia.
  exists m3, e''. split; [reflexivity|]. unfold in_sum_range. repeat split; lia.
Qed.

Lemma pos_iter_xO (p d : positive) : Z.pos (Pos.iter xO p d) = Z.pos p * 2 ^ Z.pos d.
Proof.
  induction d as [|d IH] using Pos.peano_ind.
  - cbn [Pos.iter]. rewrite Pos2Z.inj_xO. lia.
  - rewrite Pos.iter_succ, Pos2Z.inj_xO, IH, Pos2Z.inj_succ, Z.pow_succ_r by lia. lia.
Qed.

(** Aligning a mantissa to a smaller exponent keeps the value. *)
Lemma shl_align_value (mx : positive) (ex ez : Z) :
  -1074 <= ez <= ex ->
  let '(mx', ex') := shl_align mx ex ez in
  ex' = ez /\ Z.pos mx' * 2 ^ (ez + 1074) = Z.pos mx * 2 ^ (ex + 1074).
Proof.
  intros He. unfold shl_align.
  destruct (ez - ex) as [|d|d] eqn:Hd; try lia.
  - assert (ex = ez) as -> by lia. split; reflexivity.
  - split; [reflexivity|]. rewrite pos_iter_xO, <- Z.mul_assoc, <- Z.pow_add_r by lia.
    do 2 f_equal. lia.
Qed.

Lemma binary_round_in_sum_range (k : Z) (mm : positive) (e : Z) :
  1 <= k <= 2 ^ 14 -> -1074 <= e ->
  2 ^ 819 <= Z.pos mm * 2 ^ (e + 1074) <= k * 2 ^ 1073 ->
  exists m3 e3,
    binary_round 53 1024 false mm e = S754_finite false m3 e3 /\
    in_sum_range k (Z.pos m3) e3.
Proof.
  intros Hk He Hb. unfold binary_round.
  destruct (Zdigits2_pos_bounds (Z.pos mm) ltac:(lia)) as (Hd & Hdl & Hdu).
  cbn [Zdigits2] in Hd, Hdl, Hdu.
  assert (HU : 0 < 2 ^ (e + 1074)) by (apply Z.pow_pos_nonneg; lia).
  assert (Hmag : -254 <= Z.pos (digits2_pos mm) + e <= 14).
  { split.
    - assert (H : 2 ^ 819 < 2 ^ (Z.pos (digits2_pos mm) + (e + 1074))).
      { rewrite Z.pow_add_r by lia. nia. }
      apply pow2_lt_inv in H; lia.
    - assert (H : 2 ^ (Z.pos (digits2_pos mm) - 1 + (e + 1074)) <= 2 ^ 1087).
      { rewrite Z.pow_add_r by lia.
        change (2 ^ 1087) with (2 ^ 14 * 2 ^ 1073).
        assert (0 < 2 ^ 1073) by (apply Z.pow_pos_nonneg; lia). nia. }
      apply pow2_le_inv in H; lia. }
  rewrite fexp64.
  replace (Z.max (Z.pos (digits2_pos mm) + e - 53) (-1074))
    with (Z.pos (digits2_pos mm) + e - 53) by lia.
  set (f := Z.pos (digits2_pos mm) + e - 53).
  destruct (Z.le_gt_cases e f) as [Hle|Hgt].
  - assert (Hsame : shl_align mm e f = (mm, e)).
    { unfold shl_align. destruct (f - e) eqn:Hfe; try reflexivity. lia. }
    rewrite Hsame. apply binary_round_aux_in_sum_range; [exact Hk|].
    unfold in_sum_range. repeat split; lia.
  - pose proof (shl_align_value mm e f ltac:(lia)) as Hv.
    destruct (shl_align mm e f) as [mz ez]. destruct Hv as [-> Hv].
    apply binary_round_aux_in_sum_range; [exact Hk|].
    unfold in_sum_range. rewrite Hv. repeat split; lia.
Qed.

(** Adding a float of the range [1] to one of the range [k] gives one of
    the range [k + 1]: rounding never carries the sum past [(k + 1) / 2]. *)
Lemma add_in_sum_range (k : Z) (mx my : positive) (ex ey : Z) :
  1 <= k < 2 ^ 14 ->
  in_sum_range k (Z.pos mx) ex -> in_sum_range 1 (Z.pos my) ey ->
  exists m3 e3,
    Float64.add (S754_finite false mx ex) (S754_finite false my ey)
    = S754_finite false m3 e3 /\
    in_sum_range (k + 1) (Z.pos m3) e3.
Proof.
  intros Hk (_ & Hex & Hxlo & Hxhi) (_ & Hey & Hylo & Hyhi).
  unfold Float64.add, SFadd. cbn [cond_Zopp].
  pose proof (shl_align_value mx ex (Z.min ex ey) ltac:(lia)) as Hvx.
  pose proof (shl_align_value my ey (Z.min ex ey) ltac:(lia)) as Hvy.
  destruct (shl_align mx ex (Z.min ex ey)) as [mx' ex'].
  destruct (shl_align my ey (Z.min ex ey)) as [my' ey'].
  destruct Hvx as [_ Hvx]. destruct Hvy as [_ Hvy]. cbn [fst].
  cbn [Z.add binary_normalize].
  apply binary_round_in_sum_range; [lia | lia |].
  rewrite Pos2Z.inj_add, Z.mul_add_distr_r, Hvx, Hvy. lia.
Qed.

Lemma pow2_neg_in_sum_range (n : Z) :
  1 <= n <= 255 ->
  exists mm e, Float64.pow2_neg n = S754_finite false mm e /\ in_sum_range 1 (Z.pos mm) e.
Proof.
  intros Hn. unfold Float64.pow2_neg, SFldexp.
  change Float64.one with (S754_finite false 4503599627370496 (-52)).
  apply binary_round_in_sum_range; [lia | lia |].
  change (Z.pos 4503599627370496) with (2 ^ 52).
  rewrite <- Z.pow_add_r by lia. rewrite Z.mul_1_l.
  split; apply Z.pow_le_mono_r; lia.
Qed.

Lemma sum_after_step (k : Z) (x : spec_float) (n : Z) :
  0 <= k < 2 ^ 14 -> 1 <= n <= 255 -> sum_after k x ->
  sum_after (k + 1) (Float64.add x (Float64.pow2_neg n)).
Proof.
  intros Hk Hn Hx.
  destruct (pow2_neg_in_sum_range n Hn) as (my & ey & -> & Hy).
  destruct Hx as [[-> ->]|(Hk1 & mx & ex & -> & Hx)].
  - right. split; [lia|]. exists my, ey. split; [reflexivity | exact Hy].
  - right. split; [lia|].
    destruct (add_in_sum_range k mx my ex ey ltac:(lia) Hx Hy) as (m3 & e3 & -> & H3).
    exists m3, e3. split; [reflexivity | exact H3].
Qed.

Lemma sum_after_fold (l : list Z) :
  Forall (fun n => 1 <= n <= 255) l ->
  forall k x, 0 <= k -> k + Z.of_nat (length l) <= 2 ^ 14 -> sum_after k x ->
  sum_after (k + Z.of_nat (length l))
            (foldl (fun sum n => Float64.add sum (Float64.pow2_neg n)) x l).
Proof.
  induction 1 as [|n l Hn _ IH]; intros k x Hk Hlen Hx; cbn [foldl length] in *.
  - rewrite Z.add_0_r. exact Hx.
  - replace (k + Z.of_nat (S (length l))) with (k + 1 + Z.of_nat (length l)) by lia.
    apply IH; [lia | lia |]. apply sum_after_step; [lia | exact Hn | exact Hx].
Qed.

(** ** float64 division: a quotient of at least [2^14] *)

Lemma at_least_magnitude (mm e : Z) :
  at_least_2_14 mm e -> 15 <= Zdigits2 mm + e.
Proof.
  intros [Hm He].
  destruct (Zdigits2_pos_bounds mm ltac:(lia)) as (Hd & Hdl & Hdu).
  destruct (Z.le_gt_cases e 14) as [Hle|Hgt]; [|lia].
  specialize (He Hle).
  assert (H : 2 ^ (14 - e) < 2 ^ Zdigits2 mm) by lia.
  apply pow2_lt_inv in H; lia.
Qed.

Lemma shr_fexp_at_least (mm e : Z) (l : location) (mrs : shr_record) (e' : Z) :
  at_least_2_14 mm e ->
  shr_fexp 53 1024 mm e l = (mrs, e') ->
  at_least_2_14 (shr_m mrs) e' /\
  at_least_2_14 (round_nearest_even (shr_m mrs) (loc_of_shr_record mrs)) e'.
Proof.
  intros Hin Hshr.
  pose proof (at_least_magnitude mm e Hin) as Hmag.
  destruct Hin as [Hm He].
  destruct (Zdigits2_pos_bounds mm ltac:(lia)) as (Hd & Hdl & Hdu).
  destruct (shr_fexp_shift mm e l mrs e' ltac:(lia) Hshr)
    as (n & Hn0 & -> & Hn & Hm1 & Hsame & _).
  rewrite fexp64 in Hn.
  pose proof (round_nearest_even_range (shr_m mrs) (loc_of_shr_record mrs)) as Hround.
  assert (Hfloor : at_least_2_14 (shr_m mrs) (e + n)).
  { destruct (Z.eq_dec n 0) as [->|Hnz].
    - rewrite (Hsame eq_refl), Z.add_0_r.
      replace (shr_m (shr_record_of_loc mm l)) with mm by (destruct l as [|[]]; reflexivity).
      split; assumption.
    - assert (Hnd : n = Zdigits2 mm - 53) by lia.
      assert (HP : 0 < 2 ^ n) by (apply Z.pow_pos_nonneg; lia).
      rewrite Hm1. split.
      + apply Z.div_le_lower_bound; [lia|].
        replace (Zdigits2 mm - 1) with (n + 52) in Hdl by lia.
        rewrite Z.pow_add_r in Hdl by lia. lia.
      + intros Hle. apply Z.div_le_lower_bound; [lia|].
        rewrite <- Z.pow_add_r by lia.
        replace (n + (14 - (e + n))) with (14 - e) by lia. apply He. lia. }
  split; [exact Hfloor|].
  destruct Hfloor as [Hf1 Hf2]. split; [lia|]. intros Hle. specialize (Hf2 Hle). lia.
Qed.

Lemma binary_round_aux_at_least (mm e : Z) (l : location) :
  at_least_2_14 mm e ->
  match binary_round_aux 53 1024 false mm e l with
  | S754_finite false m3 e3 => at_least_2_14 (Z.pos m3) e3
  | S754_infinity _ => True
  | _ => False
  end.
Proof.
  intros Hin. unfold binary_round_aux.
  destruct (shr_fexp 53 1024 mm e l) as [mrs' e'] eqn:H1.
  destruct (shr_fexp_at_least _ _ _ _ _ Hin H1) as [_ Hround].
  destruct (shr_fexp 53 1024 _ e' loc_Exact) as [mrs'' e''] eqn:H2.
  destruct (shr_fexp_at_least _ _ _ _ _ Hround H2) as [Hfinal _].
  destruct (shr_m mrs'') as [|m3|m3] eqn:Hm3.
  - destruct Hfinal; lia.
  - destruct (e'' <=? 1024 - 53); [exact Hfinal | exact I].
  - destruct Hfinal; lia.
Qed.

Lemma to_uint64_at_least (mm : positive) (e r : Z) :
  at_least_2_14 (Z.pos mm) e ->
  Float64.to_uint64 (S754_finite false mm e) = Some r -> 2 ^ 14 <= r.
Proof.
  intros [Hm He]. unfold Float64.to_uint64, Float64.trunc.
  destruct (Z.leb_spec 0 e) as [Hpos|Hneg].
  - destruct (_ && _); [|discriminate]. intros [= <-].
    destruct (Z.le_gt_cases e 14) as [Hle|Hgt].
    + specialize (He Hle).
      assert (0 < 2 ^ e) by (apply Z.pow_pos_nonneg; lia).
      replace (2 ^ 14) with (2 ^ (14 - e) * 2 ^ e)
        by (rewrite <- Z.pow_add_r by lia; f_equal; lia).
      nia.
    + assert (2 ^ 14 <= 2 ^ e) by (apply Z.pow_le_mono_r; lia). nia.
  - destruct (_ && _); [|discriminate]. intros [= <-].
    specialize (He ltac:(lia)).
    assert (0 < 2 ^ (- e)) by (apply Z.pow_pos_nonneg; lia).
    apply Z.div_le_lower_bound; [lia|].
    replace (14 - e) with (- e + 14) in He by lia.
    rewrite Z.pow_add_r in He by lia. lia.
Qed.

(** A numerator in [[2^27, 2^28)] over a sum of at most [2^13] is a
    quotient of at least [2^14], before and after rounding. *)
Lemma div_at_least (k : Z) (mn ms : positive) (es : Z) :
  1 <= k <= 2 ^ 14 ->
  2 ^ 52 <= Z.pos mn < 2 ^ 53 ->
  in_sum_range k (Z.pos ms) es ->
  match Float64.div (S754_finite false mn (-25)) (S754_finite false ms es) with
  | S754_finite false m3 e3 => at_least_2_14 (Z.pos m3) e3
  | S754_infinity _ => True
  | _ => False
  end.
Proof.
  intros Hk Hmn Hin.
  pose proof (in_sum_range_magnitude k _ _ Hk Hin) as Hmag.
  destruct Hin as (_ & Hes & Hlo & Hhi).
  destruct (Zdigits2_pos_bounds (Z.pos ms) ltac:(lia)) as (Hd2 & Hd2l & Hd2u).
  destruct (Zdigits2_pos_bounds (Z.pos mn) ltac:(lia)) as (Hd1 & Hd1l & Hd1u).
  assert (Hd1v : Zdigits2 (Z.pos mn) = 53).
  { assert (H1 : 2 ^ (Zdigits2 (Z.pos mn) - 1) < 2 ^ 53) by lia.
    assert (H2 : 2 ^ 52 < 2 ^ Zdigits2 (Z.pos mn)) by lia.
    apply pow2_lt_inv in H1; [|lia]. apply pow2_lt_inv in H2; lia. }
  set (d2 := Zdigits2 (Z.pos ms)) in *.
  unfold Float64.div, SFdiv. cbn [xorb].
  unfold SFdiv_core_binary. rewrite Hd1v. fold d2. rewrite fexp64.
  replace (Z.min (Z.max (53 + -25 - (d2 + es) - 53) (-1074)) (-25 - es))
    with (-25 - es - d2) by lia.
  replace (-25 - es - (-25 - es - d2)) with d2 by lia.
  assert (Hshift : match d2 with
                   | 0 => Z.pos mn
                   | Z.pos _ => Z.shiftl (Z.pos mn) d2
                   | Z.neg _ => 0
                   end = Z.pos mn * 2 ^ d2).
  { destruct d2 as [|p|p] eqn:Hd2e; try lia. apply Z.shiftl_mul_pow2. lia. }
  rewrite Hshift.
  assert (HP : 0 < 2 ^ d2) by (apply Z.pow_pos_nonneg; lia).
  destruct (Z.div_eucl (Z.pos mn * 2 ^ d2) (Z.pos ms)) as [q r] eqn:Hdiv.
  assert (Hq : q = Z.pos mn * 2 ^ d2 / Z.pos ms).
  { unfold Z.div. rewrite Hdiv. reflexivity. }
  apply binary_round_aux_at_least. rewrite Hq. split.
  - apply Z.div_le_lower_bound; [lia|].
    transitivity (2 ^ d2 * 2 ^ 52); [|rewrite (Z.mul_comm (Z.pos mn))];
      apply Z.mul_le_mono_nonneg; lia.
  - intros Hle. apply Z.div_le_lower_bound; [lia|].
    set (t := 14 - (-25 - es - d2)) in *.
    assert (Ht : 0 <= t) by (unfold t; lia).
    assert (H1035 : 0 < 2 ^ 1035) by (apply Z.pow_pos_nonneg; lia).
    assert (E1 : 2 ^ t * 2 ^ 1035 = 2 ^ (es + 1074) * 2 ^ d2).
    { rewrite <- !Z.pow_add_r by lia. f_equal. unfold t. lia. }
    assert (E2 : k * 2 ^ 1073 <= 2 ^ 52 * 2 ^ 1035).
    { change (2 ^ 52 * 2 ^ 1035) with (2 ^ 14 * 2 ^ 1073).
      assert (0 < 2 ^ 1073) by (apply Z.pow_pos_nonneg; lia). nia. }
    assert (H : Z.pos ms * 2 ^ t * 2 ^ 1035 <= Z.pos mn * 2 ^ d2 * 2 ^ 1035).
    { rewrite <- Z.mul_assoc, E1.
      transitivity (k * 2 ^ 1073 * 2 ^ d2); [nia|].
      transitivity (2 ^ 52 * 2 ^ 1035 * 2 ^ d2); [nia|]. nia. }
    nia.
Qed.

(** ** The estimator *)

Lemma counts_checked :
  check_from (fun k => finite_positive (Float64.div mf (Float64.of_Z (k + 1)))
                       && negb (Float64.leb (Float64.of_Z (k + 1)) Float64.zero))
             (Z.to_nat 16384) 0 = true.
Proof. vm_compute. reflexivity. Qed.

Lemma count_float_positive (k : Z) :
  1 <= k <= m ->
  finite_positive (Float64.div mf (Float64.of_Z k)) = true /\
  Float64.leb (Float64.of_Z k) Float64.zero = false.
Proof.
  intros Hk. rewrite m_value in Hk.
  pose proof (check_from_sound _ _ 0 counts_checked (k - 1) ltac:(lia)) as H.
  cbv beta in H. replace (k - 1 + 1) with k in H by lia.
  apply andb_prop in H as [H1 H2]. split; [exact H1|].
  apply Bool.negb_true_iff. exact H2.
Qed.

Lemma counts_total (rs : list Z) :
  count_nonzero rs + count_zero rs = Z.of_nat (length rs).
Proof.
  unfold count_nonzero, count_zero, nonzero_registers.
  induction rs as [|r rs IH]; cbn [List.filter length]; [reflexivity|].
  destruct (Z.ltb_spec 0 r), (Z.leb_spec r 0); cbn [length]; lia.
Qed.

Lemma count_zero_witness (rs : list Z) :
  1 <= count_zero rs -> exists i r, rs !! i = Some r /\ r <= 0.
Proof.
  unfold count_zero. induction rs as [|r rs IH]; cbn [List.filter length]; [lia|].
  destruct (Z.leb_spec r 0) as [Hr|Hr].
  - intros _. exists 0%nat, r. split; [reflexivity | exact Hr].
  - intros H. destruct (IH H) as (i & r' & Hi & Hr').
    exists (S i), r'. split; assumption.
Qed.

Lemma nonzero_registers_all (rs : list Z) :
  Forall is_u8 rs -> count_zero rs = 0 ->
  nonzero_registers rs = rs /\ Forall (fun n => 1 <= n <= 255) rs.
Proof.
  unfold count_zero, nonzero_registers.
  induction 1 as [|r rs Hr _ IH]; cbn [List.filter length]; [split; [reflexivity | constructor]|].
  unfold is_u8 in Hr.
  destruct (Z.leb_spec r 0) as [Hle|Hgt]; cbn [length]; [lia|].
  intros Hz. destruct (IH Hz) as [-> Hall].
  rewrite (proj2 (Z.ltb_lt 0 r)) by lia. split; [reflexivity|].
  constructor; [lia | exact Hall].
Qed.

Lemma rawHarmonicEstimate_formula (Log : spec_float -> spec_float) (s : sketch) :
  Z.of_nat (length (registers s)) <= m ->
  rawHarmonicEstimate Log s = raw_estimate_by_formula Log (registers s).
Proof.
  intros Hlen. unfold rawHarmonicEstimate, raw_estimate_by_formula.
  rewrite harmonic_loop_counts by exact Hlen.
  pose proof (count_nonzero_range (registers s)) as Hc.
  destruct (Z.eqb_spec (count_nonzero (registers s)) 0) as [->|Hne].
  - reflexivity.
  - rewrite (proj2 (count_float_positive (count_nonzero (registers s)) ltac:(lia))).
    reflexivity.
Qed.

Lemma numerator_value (Log : spec_float -> spec_float) :
  Log Float64.two = ln2 ->
  Float64.mul (Float64.mul (alpha Log) (Float64.of_Z 16384)) (Float64.of_Z 16384)
  = S754_finite false 6497320848556798 (-25).
Proof. intros H. unfold alpha. rewrite H. vm_compute. reflexivity. Qed.

(** With every one of the [m] registers touched the raw estimate is at
    least [2^14]. *)
Lemma raw_estimate_all_touched (Log : spec_float -> spec_float) (s : sketch) (raw : Z) :
  Log Float64.two = ln2 -> well_formed s ->
  count_zero (registers s) = 0 ->
  rawHarmonicEstimate Log s = Some raw -> 2 ^ 14 <= raw.
Proof.
  intros HLog [Hlen Hu8] Hz.
  assert (HlenZ : Z.of_nat (length (registers s)) = 16384).
  { rewrite Hlen, Z2Nat.id by (rewrite m_value; lia). apply m_value. }
  rewrite rawHarmonicEstimate_formula by (rewrite m_value; lia).
  unfold raw_estimate_by_formula.
  pose proof (counts_total (registers s)) as Ht.
  assert (Hused : count_nonzero (registers s) = 16384) by lia.
  rewrite Hused. change (16384 =? 0) with false. cbv iota.
  rewrite (numerator_value Log HLog).
  destruct (nonzero_registers_all _ Hu8 Hz) as [Hall Hrange].
  assert (Hfit : 0 + Z.of_nat (length (registers s)) <= 2 ^ 14)
    by (rewrite HlenZ; change (2 ^ 14) with 16384; lia).
  pose proof (sum_after_fold (registers s) Hrange 0 Float64.zero
                ltac:(lia) Hfit (or_introl (conj eq_refl eq_refl))) as Hsum.
  unfold harmonic_sum. rewrite Hall.
  destruct Hsum as [[Hk _]|(_ & ms & es & -> & Hin)]; [lia|].
  rewrite Z.add_0_l, HlenZ in Hin.
  assert (Hk : 1 <= 16384 <= 2 ^ 14) by (change (2 ^ 14) with 16384; lia).
  assert (Hmn : 2 ^ 52 <= Z.pos 6497320848556798 < 2 ^ 53)
    by (change (2 ^ 52) with 4503599627370496;
        change (2 ^ 53) with 9007199254740992; lia).
  pose proof (div_at_least 16384 6497320848556798 ms es Hk Hmn Hin) as Hdiv.
  destruct (Float64.div _ _) as [sg|sg| |sg m3 e3]; try contradiction.
  - discriminate.
  - destruct sg; [contradiction|]. apply to_uint64_at_least. exact Hdiv.
Qed.

Lemma Estimate_cases (Log : spec_float -> spec_float) (s : sketch) :
  Z.of_nat (length (registers s)) <= m ->
  Estimate Log s = Estimate_by_cases Log s.
Proof.
  intros Hlen. unfold Estimate, Estimate_by_cases.
  rewrite rawHarmonicEstimate_formula by exact Hlen.
  unfold linearCounting, linearCounting_value, maxLinearCounting.
  rewrite zero_loop_counts by exact Hlen. reflexivity.
Qed.

Lemma count_nonzero_replicate_zero (n : nat) : count_nonzero (replicate n 0) = 0.
Proof.
  unfold count_nonzero, nonzero_registers.
  induction n as [|n IH]; cbn [replicate List.filter]; [reflexivity | exact IH].
Qed.

Lemma count_zero_replicate_zero (n : nat) : count_zero (replicate n 0) = Z.of_nat n.
Proof.
  unfold count_zero.
  induction n as [|n IH]; cbn [replicate List.filter Z.leb Z.compare length];
    [reflexivity | lia].
Qed.

Lemma Estimate_empty (Log : spec_float -> spec_float) (s : sketch) :
  registers s = replicate (Z.to_nat m) 0 ->
  Log Float64.one = Float64.zero ->
  0 <= maxTick (biasSet s) ->
  Estimate Log s = Some 0.
Proof.
  intros Hrs HLog Hmax.
  rewrite Estimate_cases
    by (rewrite Hrs, length_replicate, Z2Nat.id; rewrite m_value; lia).
  unfold Estimate_by_cases, raw_estimate_by_formula.
  rewrite Hrs, count_nonzero_replicate_zero, count_zero_replicate_zero.
  rewrite Z2Nat.id by (rewrite m_value; lia).
  change (0 =? 0) with true. cbv iota.
  rewrite (proj2 (Z.ltb_ge _ _)) by lia.
  change (0 <? 11500) with true. cbv iota.
  change (Float64.div mf (Float64.of_Z m)) with Float64.one.
  rewrite HLog. reflexivity.
Qed.

(** C4. Estimate takes its result in this order: the raw estimate is [0]
    when no register is non-zero and [alpha * registersUsed^2 / sum] cut to
    an integer otherwise, with [alpha = 1 / (2 * Log 2)]; a raw estimate
    above [maxTick] is returned as it is; else one below [11500] gives
    [M * Log(M / numZeroRegisters)] cut to an integer; else the interpolated
    bias times the raw estimate, cut to an integer. On the empty sketch ([m]
    registers, all zero) the result is [0]. *)
Theorem Estimate_selects_in_order (Log : spec_float -> spec_float) (s : sketch) :
  Z.of_nat (length (registers s)) <= m ->
  Estimate Log s = Estimate_by_cases Log s /\
  alpha Log = Float64.div Float64.one (Float64.mul Float64.two (Log Float64.two)) /\
  (registers s = replicate (Z.to_nat m) 0 ->
   Log Float64.one = Float64.zero ->
   0 <= maxTick (biasSet s) ->
   Estimate Log s = Some 0).
Proof.
  intros Hlen. split; [|split].
  - unfold Estimate, Estimate_by_cases.
    rewrite rawHarmonicEstimate_formula by exact Hlen.
    unfold linearCounting, linearCounting_value, maxLinearCounting.
    rewrite zero_loop_counts by exact Hlen. reflexivity.
  - reflexivity.
  - apply Estimate_empty.
Qed.

Lemma uniformSketch_length (r : Z) : Z.of_nat (length (registers (uniformSketch r))) = m.
Proof.
  change (registers (uniformSketch r)) with (replicate (Z.to_nat m) r).
  rewrite length_replicate, Z2Nat.id; [reflexivity | rewrite m_value; lia].
Qed.

Lemma Estimate_selects_in_order_witness :
  Estimate sampleLog (uniformSketch 0) = Estimate_by_cases sampleLog (uniformSketch 0) /\
  alpha sampleLog
  = Float64.div Float64.one (Float64.mul Float64.two (sampleLog Float64.two)) /\
  (registers (uniformSketch 0) = replicate (Z.to_nat m) 0 ->
   sampleLog Float64.one = Float64.zero ->
   0 <= maxTick (biasSet (uniformSketch 0)) ->
   Estimate sampleLog (uniformSketch 0) = Some 0).
Proof.
  apply (Estimate_selects_in_order sampleLog (uniformSketch 0)).
  rewrite uniformSketch_length. lia.
Defined.

(** C1, as the code has it. On a sketch with [m] byte registers, whenever
    Estimate takes the linear-counting branch (raw estimate at most
    [maxTick] and below [11500]) at least one register is zero: the count
    the branch divides by is a float [z >= 1] and [M / z] is finite. The
    source has no special case for a count of zero; with all [m] registers
    touched the raw estimate is at least [16384] and the branch is not
    taken. [math.Log(2)] is taken to return the float nearest to ln 2. *)
Theorem linearCounting_divides_by_a_positive_count
    (Log : spec_float -> spec_float) (s : sketch) (rawEstimate : Z) :
  Log Float64.two = ln2 ->
  well_formed s ->
  rawHarmonicEstimate Log s = Some rawEstimate ->
  rawEstimate <= maxTick (biasSet s) ->
  rawEstimate < maxLinearCounting ->
  Estimate Log s = linearCounting Log s /\
  (exists i, registers s !! i = Some 0) /\
  exists z, 1 <= z <= m /\
    zero_loop (registers s) = Float64.of_Z z /\
    finite_positive (Float64.div mf (zero_loop (registers s))) = true.
Proof.
  intros HLog Hwf Hraw Hmax Hlin.
  assert (Hlen : Z.of_nat (length (registers s)) = m).
  { destruct Hwf as [Hl _]. rewrite Hl, Z2Nat.id; [reflexivity | rewrite m_value; lia]. }
  split; [|split].
  - unfold Estimate. rewrite Hraw.
    rewrite (proj2 (Z.ltb_ge _ _)) by lia.
    rewrite (proj2 (Z.ltb_lt _ _)) by exact Hlin. reflexivity.
  - pose proof (count_zero_range (registers s)) as Hrange.
    destruct (Z.eq_dec (count_zero (registers s)) 0) as [Hz|Hz].
    + pose proof (raw_estimate_all_touched Log s rawEstimate HLog Hwf Hz Hraw) as Hbig.
      unfold maxLinearCounting in Hlin. change (2 ^ 14) with 16384 in Hbig. lia.
    + destruct (count_zero_witness (registers s) ltac:(lia)) as (i & r & Hi & Hr).
      exists i. destruct Hwf as [_ Hu8].
      pose proof (is_u8_lookup _ _ _ Hu8 Hi). rewrite Hi. f_equal. lia.
  - pose proof (count_zero_range (registers s)) as Hrange.
    destruct (Z.eq_dec (count_zero (registers s)) 0) as [Hz|Hz].
    + pose proof (raw_estimate_all_touched Log s rawEstimate HLog Hwf Hz Hraw) as Hbig.
      unfold maxLinearCounting in Hlin. change (2 ^ 14) with 16384 in Hbig. lia.
    + exists (count_zero (registers s)).
      rewrite zero_loop_counts by lia.
      split; [lia|]. split; [reflexivity|].
      apply count_float_positive. lia.
Qed.

Lemma linearCounting_divides_by_a_positive_count_witness :
  Estimate sampleLog (uniformSketch 0) = linearCounting sampleLog (uniformSketch 0) /\
  (exists i, registers (uniformSketch 0) !! i = Some 0) /\
  exists z, 1 <= z <= m /\
    zero_loop (registers (uniformSketch 0)) = Float64.of_Z z /\
    finite_positive (Float64.div mf (zero_loop (registers (uniformSketch 0)))) = true.
Proof.
  apply (linearCounting_divides_by_a_positive_count sampleLog (uniformSketch 0) 0).
  - reflexivity.
  - apply uniformSketch_well_formed. unfold is_u8. lia.
  - rewrite rawHarmonicEstimate_formula by (rewrite uniformSketch_length; lia).
    change (registers (uniformSketch 0)) with (replicate (Z.to_nat m) 0).
    unfold raw_estimate_by_formula. rewrite count_nonzero_replicate_zero. reflexivity.
  - cbn. lia.
  - reflexivity.
Defined.

(** C1 as stated fails: a sketch whose single register is touched gets a
    raw estimate of [1], so Estimate takes the linear-counting branch; no
    register is zero, the branch divides [M] by a count of zero, and the
    infinite result reaches the conversion to [uint64], whose value Go then
    leaves to the implementation. *)
Lemma linearCounting_without_zero_register :
  rawHarmonicEstimate sampleLog touchedShortSketch = Some 1 /\
  1 <= maxTick (biasSet touchedShortSketch) /\ 1 < maxLinearCounting /\
  Estimate sampleLog touchedShortSketch = linearCounting sampleLog touchedShortSketch /\
  registers touchedShortSketch = [1] /\
  zero_loop (registers touchedShortSketch) = S754_zero false /\
  Float64.div mf (zero_loop (registers touchedShortSketch)) = S754_infinity false /\
  linearCounting_value sampleLog touchedShortSketch = S754_infinity false /\
  linearCounting sampleLog touchedShortSketch = None.
Proof. vm_compute. repeat split; intros H; discriminate H. Qed.

(** ** Merge: identity, idempotence and invariants *)

Lemma zip_max_idemp (a : list Z) : zip_with Z.max a a = a.
Proof. induction a as [|x a IH]; cbn; [reflexivity|]. rewrite IH, Z.max_id. reflexivity. Qed.

Lemma zip_max_zero_r (a : list Z) (n : nat) :
  Forall (fun x => 0 <= x) a -> length a = n ->
  zip_with Z.max a (replicate n 0) = a.
Proof.
  intros H; revert n; induction H as [|x a Hx _ IH]; intros n Hn.
  - reflexivity.
  - destruct n as [|n]; [discriminate|]. cbn. rewrite IH by (cbn in Hn; lia).
    rewrite Z.max_l by lia. reflexivity.
Qed.

Lemma zip_max_lookup (a b : list Z) (i : nat) (x : Z) :
  length a = length b -> a !! i = Some x ->
  exists y, b !! i = Some y /\ zip_with Z.max a b !! i = Some (Z.max x y).
Proof.
  intros Hl Ha.
  destruct (b !! i) as [y|] eqn:Hb.
  - exists y. split; [reflexivity|]. rewrite lookup_zip_with, Ha, Hb. reflexivity.
  - apply lookup_ge_None in Hb. apply lookup_lt_Some in Ha. lia.
Qed.

Lemma zip_max_Forall (P : Z -> Prop) (a b : list Z) :
  Forall P a -> Forall P b -> Forall P (zip_with Z.max a b).
Proof.
  intros Ha; revert b; induction Ha as [|x a Hx _ IH]; intros b Hb.
  - constructor.
  - destruct Hb as [|y b Hy Hb]; cbn; [constructor|].
    constructor; [|apply IH, Hb].
    destruct (Z.max_spec x y) as [[_ ->]|[_ ->]]; assumption.
Qed.

(** X1. Merging a sketch into itself changes nothing and succeeds, whatever
    the length of its register array. *)
Theorem Merge_with_itself (a : sketch) : Merge a a = (a, None).
Proof.
  rewrite Merge_compatible by reflexivity.
  rewrite zip_max_idemp. destruct a; reflexivity.
Qed.

(** X2. Merge keeps a well-formed receiver well-formed, leaves its version
    and bias table alone, and never lowers a register: every register of
    the result is at least the register of either operand. *)
Theorem Merge_keeps_well_formed (a b : sketch) :
  well_formed a -> well_formed b -> version a = version b ->
  exists r,
    Merge a b = (r, None) /\
    well_formed r /\ version r = version a /\ biasSet r = biasSet a /\
    (forall i x, registers a !! i = Some x ->
       exists y, registers r !! i = Some y /\ x <= y) /\
    (forall i x, registers b !! i = Some x ->
       exists y, registers r !! i = Some y /\ x <= y).
Proof.
  intros [La Ua] [Lb Ub] Hv.
  assert (Hl : length (registers a) = length (registers b)) by congruence.
  eexists. split; [apply Merge_compatible; assumption|].
  cbn. repeat split.
  - unfold set_registers; cbn. rewrite length_zip_with. lia.
  - apply zip_max_Forall; assumption.
  - intros i x Hx. destruct (zip_max_lookup _ _ i x Hl Hx) as (y & _ & Hz).
    eexists; split; [exact Hz|lia].
  - intros i x Hx. symmetry in Hl.
    destruct (zip_max_lookup _ _ i x Hl Hx) as (y & _ & Hz).
    rewrite zip_max_comm. eexists; split; [exact Hz|lia].
Qed.

Lemma Merge_keeps_well_formed_witness :
  exists r,
    Merge (uniformSketch 1) (uniformSketch 2) = (r, None) /\
    well_formed r /\ version r = version (uniformSketch 1) /\
    biasSet r = biasSet (uniformSketch 1) /\
    (forall i x, registers (uniformSketch 1) !! i = Some x ->
       exists y, registers r !! i = Some y /\ x <= y) /\
    (forall i x, registers (uniformSketch 2) !! i = Some x ->
       exists y, registers r !! i = Some y /\ x <= y).
Proof.
  apply (Merge_keeps_well_formed (uniformSketch 1) (uniformSketch 2)).
  - apply uniformSketch_well_formed. unfold is_u8. lia.
  - apply uniformSketch_well_formed. unfold is_u8. lia.
  - reflexivity.
Defined.

Lemma Merge_fresh_identity (defaultBiases : biases) (a : sketch) :
  well_formed a -> version a = currentVersion ->
  Merge a (createSketch defaultBiases) = (a, None) /\
  Merge (createSketch defaultBiases) a = (set_biasSet a defaultBiases, None).
Proof.
  intros [La Ua] Hv.
  assert (H0 : Forall (fun x => 0 <= x) (registers a)).
  { eapply Forall_impl; [exact Ua|]. unfold is_u8. intros; lia. }
  split.
  - rewrite Merge_compatible; [|exact Hv|cbn; rewrite length_replicate; exact La].
    cbn. rewrite (zip_max_zero_r _ _ H0 La). destruct a; reflexivity.
  - rewrite Merge_compatible; [|symmetry; exact Hv|cbn; rewrite length_replicate; congruence].
    cbn. rewrite zip_max_comm, (zip_max_zero_r _ _ H0 La).
    unfold set_registers, set_biasSet. cbn. rewrite Hv. reflexivity.
Qed.

(** X3. A fresh sketch is the identity of Merge: merging it into a
    well-formed sketch of the current version changes nothing, and merging
    such a sketch into a fresh one copies its registers. *)
Theorem Merge_with_fresh_sketch (defaultBiases : biases) (a : sketch) :
  well_formed a -> version a = currentVersion ->
  Merge a (createSketch defaultBiases) = (a, None) /\
  Merge (createSketch defaultBiases) a = (set_biasSet a defaultBiases, None).
Proof. apply Merge_fresh_identity. Qed.

Lemma Merge_with_fresh_sketch_witness :
  Merge (uniformSketch 3) (createSketch testBiases) = (uniformSketch 3, None) /\
  Merge (createSketch testBiases) (uniformSketch 3)
    = (set_biasSet (uniformSketch 3) testBiases, None).
Proof.
  apply (Merge_with_fresh_sketch testBiases (uniformSketch 3)).
  - apply uniformSketch_well_formed. unfold is_u8. lia.
  - reflexivity.
Defined.

(** ** Insert and Merge together *)

Lemma bump_zip (rs o rs' : list Z) (i : nat) (z : Z) :
  length rs = length o -> bump rs i z = Some rs' ->
  bump (zip_with Z.max rs o) i z = Some (zip_with Z.max rs' o).
Proof.
  unfold bump. intros Hl Hb.
  destruct (rs !! i) as [r|] eqn:Hr; [|discriminate].
  injection Hb as <-.
  destruct (zip_max_lookup rs o i r Hl Hr) as (y & Hy & Hz).
  rewrite Hz. f_equal.
  apply list_eq. intros j.
  rewrite lookup_zip_with.
  destruct (decide (i = j)) as [<-|Hij].
  - rewrite !list_lookup_insert_eq.
    + rewrite Hy. cbn. f_equal. lia.
    + apply lookup_lt_Some in Hr. exact Hr.
    + rewrite length_zip_with. apply lookup_lt_Some in Hr. lia.
  - rewrite !list_lookup_insert_ne by exact Hij.
    rewrite lookup_zip_with. reflexivity.
Qed.

Lemma bump_Forall (P : Z -> Prop) (rs rs' : list Z) (i : nat) (z : Z) :
  Forall P rs -> P z -> bump rs i z = Some rs' -> Forall P rs'.
Proof.
  unfold bump. intros Hrs Hz Hb.
  destruct (rs !! i) as [r|] eqn:Hr; [|discriminate].
  injection Hb as <-.
  apply Forall_insert; [exact Hrs|].
  destruct (Z.max_spec r z) as [[_ ->]|[_ ->]]; [exact Hz|].
  eapply Forall_lookup_1; eassumption.
Qed.

Lemma nonzero_insert_replicate (n i : nat) (z : Z) :
  (i < n)%nat -> 0 < z ->
  nonzero_registers (<[i := z]> (replicate n 0)) = [z] /\
  count_zero (<[i := z]> (replicate n 0)) = Z.of_nat n - 1.
Proof.
  unfold count_zero, nonzero_registers.
  revert i; induction n as [|n IH]; intros i Hi Hz; [lia|].
  destruct i as [|i]; cbn [replicate].
  - change (<[0%nat := z]> (0 :: replicate n 0)) with (z :: replicate n 0).
    cbn [List.filter].
    destruct (0 <? z) eqn:E1; [|lia]. destruct (z <=? 0) eqn:E2; [lia|].
    pose proof (count_nonzero_replicate_zero n) as Hc.
    pose proof (count_zero_replicate_zero n) as Hc0.
    unfold count_nonzero, count_zero, nonzero_registers in Hc, Hc0.
    destruct (List.filter (fun n0 => 0 <? n0) (replicate n 0)); [|cbn in Hc; lia].
    split; [reflexivity|]. lia.
  - change (<[S i := z]> (0 :: replicate n 0)) with (0 :: <[i := z]> (replicate n 0)).
    cbn [List.filter]. change (0 <? 0) with false. change (0 <=? 0) with true.
    cbn iota. destruct (IH i ltac:(lia) Hz) as [-> Hc].
    split; [reflexivity|]. cbn [length]. lia.
Qed.

Section InsertMerge.
Variable Hash : list byte -> Z.
Hypothesis Hash_u64 : forall element, is_u64 (Hash element).

Lemma Insert_fields (s s' : sketch) (e : list byte) :
  Insert Hash s e = Some s' ->
  version s' = version s /\ biasSet s' = biasSet s /\
  bump (registers s) (hash_index (Hash e)) (hash_rank (Hash e)) = Some (registers s').
Proof.
  rewrite (Insert_bump Hash Hash_u64). intros H.
  destruct (bump _ _ _) as [rs|]; [|discriminate].
  injection H as <-. repeat split; reflexivity.
Qed.

Lemma Insert_all_snoc (s : sketch) (es : list (list byte)) (e : list byte) :
  Insert_all Hash s (es ++ [e]) = Insert_all Hash s es ≫= fun s' => Insert Hash s' e.
Proof.
  unfold Insert_all. rewrite foldl_app. cbn.
  destruct (foldl _ _ es); reflexivity.
Qed.

Lemma Insert_all_app (es es' : list (list byte)) :
  forall s, Insert_all Hash s (es ++ es') =
            Insert_all Hash s es ≫= fun s' => Insert_all Hash s' es'.
Proof.
  induction es as [|e es IH]; intros s; [reflexivity|].
  change ((e :: es) ++ es') with (e :: (es ++ es')).
  rewrite !(Insert_all_cons Hash).
  destruct (Insert Hash s e) as [s1|]; [|reflexivity].
  cbn. apply IH.
Qed.

Lemma Insert_all_fields (es : list (list byte)) :
  forall s s', Insert_all Hash s es = Some s' ->
  version s' = version s /\ biasSet s' = biasSet s /\
  length (registers s') = length (registers s) /\
  forall P : Z -> Prop, (forall h, P (hash_rank h)) ->
    Forall P (registers s) -> Forall P (registers s').
Proof.
  induction es as [|e es IH]; intros s s' H.
  - injection H as <-. repeat split; auto.
  - rewrite (Insert_all_cons Hash) in H.
    destruct (Insert Hash s e) as [s1|] eqn:H1; [|discriminate].
    cbn in H. destruct (IH _ _ H) as (Hv & Hb & Hl & HP).
    destruct (Insert_fields _ _ _ H1) as (Hv1 & Hb1 & Hbump).
    repeat split; try congruence.
    + rewrite Hl. eapply bump_length; exact Hbump.
    + intros P Hrank Hs. apply HP; [exact Hrank|].
      eapply bump_Forall; [exact Hs|apply Hrank|exact Hbump].
Qed.

Lemma Insert_into_merged (s t s' : sketch) (e : list byte) :
  length (registers s) = length (registers t) ->
  Insert Hash s e = Some s' ->
  Insert Hash (set_registers s (zip_with Z.max (registers s) (registers t))) e
  = Some (set_registers s' (zip_with Z.max (registers s') (registers t))).
Proof.
  intros Hl H. destruct (Insert_fields _ _ _ H) as (Hv & Hb & Hbump).
  rewrite (Insert_bump Hash Hash_u64). cbn [registers set_registers].
  rewrite (bump_zip _ _ _ _ _ Hl Hbump). cbn.
  unfold set_registers. cbn. rewrite Hv, Hb. reflexivity.
Qed.

Lemma Insert_all_into_merged (es : list (list byte)) :
  forall s t s',
  length (registers s) = length (registers t) ->
  Insert_all Hash s es = Some s' ->
  Insert_all Hash (set_registers s (zip_with Z.max (registers s) (registers t))) es
  = Some (set_registers s' (zip_with Z.max (registers s') (registers t))).
Proof.
  induction es as [|e es IH]; intros s t s' Hl H.
  - injection H as <-. reflexivity.
  - rewrite (Insert_all_cons Hash) in H. rewrite (Insert_all_cons Hash).
    destruct (Insert Hash s e) as [s1|] eqn:H1; [|discriminate].
    cbn in H. rewrite (Insert_into_merged _ _ _ _ Hl H1). cbn.
    apply IH; [|exact H].
    destruct (Insert_fields _ _ _ H1) as (_ & _ & Hbump).
    rewrite (bump_length _ _ _ _ Hbump). exact Hl.
Qed.
End InsertMerge.

(** X4. Counting in parts: inserting one batch of elements into a fresh
    sketch and another batch into a second fresh sketch, then merging the
    two, leaves the receiver in exactly the state of a single fresh sketch
    into which both batches were inserted. *)
Theorem Merge_of_partial_counts
    (Hash : list byte -> Z) (defaultBiases : biases) (xs ys : list (list byte)) :
  (forall e, is_u64 (Hash e)) ->
  exists a b c,
    Insert_all Hash (createSketch defaultBiases) xs = Some a /\
    Insert_all Hash (createSketch defaultBiases) ys = Some b /\
    Insert_all Hash (createSketch defaultBiases) (xs ++ ys) = Some c /\
    Merge a b = (c, None).
Proof.
  intros Hu.
  assert (L0 : length (registers (createSketch defaultBiases)) = Z.to_nat m)
    by apply length_replicate.
  destruct (Insert_all_total Hash Hu xs _ L0) as (a & Ha & La).
  destruct (Insert_all_total Hash Hu ys _ L0) as (b & Hb & Lb).
  destruct (Insert_all_fields Hash Hu _ _ _ Ha) as (Va & Ba & _ & _).
  destruct (Insert_all_fields Hash Hu _ _ _ Hb) as (Vb & Bb & _ & Pb).
  exists a, b, (set_registers a (zip_with Z.max (registers a) (registers b))).
  repeat split; try assumption.
  - rewrite (Insert_all_perm Hash Hu (xs ++ ys) (ys ++ xs))
      by apply Permutation_app_comm.
    rewrite (Insert_all_app Hash), Hb. cbn.
    assert (Eb : b = set_registers (createSketch defaultBiases)
                       (zip_with Z.max (registers (createSketch defaultBiases))
                                       (registers b))).
    { cbn [registers createSketch]. rewrite zip_max_comm.
      assert (H0 : Forall (fun x => 0 <= x) (registers b)).
      { apply Pb.
        - intros h. pose proof (hash_rank_range h). lia.
        - apply Forall_replicate. lia. }
      rewrite (zip_max_zero_r _ _ H0 Lb).
      destruct b as [bb rb vb]; cbn in *. unfold set_registers; cbn. congruence. }
    rewrite Eb at 1.
    apply (Insert_all_into_merged Hash Hu); [congruence|exact Ha].
  - apply Merge_compatible; congruence.
Qed.

Lemma Merge_of_partial_counts_witness :
  exists a b c,
    Insert_all sampleHash (createSketch testBiases) [[Byte.x41]; [Byte.x42]] = Some a /\
    Insert_all sampleHash (createSketch testBiases) [[Byte.x42]; [Byte.x43]] = Some b /\
    Insert_all sampleHash (createSketch testBiases)
      ([[Byte.x41]; [Byte.x42]] ++ [[Byte.x42]; [Byte.x43]]) = Some c /\
    Merge a b = (c, None).
Proof.
  apply (Merge_of_partial_counts sampleHash testBiases
           [[Byte.x41]; [Byte.x42]] [[Byte.x42]; [Byte.x43]]).
  exact sampleHash_u64.
Defined.

(** X5. No register ever exceeds 51 (the 50 bits of the remnant plus one):
    that holds in a fresh sketch, Insert keeps it, and so does Merge,
    whether it succeeds or fails. *)
Theorem registers_stay_within_rank (Hash : list byte -> Z) (defaultBiases : biases) :
  (forall e, is_u64 (Hash e)) ->
  within_rank (createSketch defaultBiases) /\
  (forall s e s', within_rank s -> Insert Hash s e = Some s' -> within_rank s') /\
  (forall a b, within_rank a -> within_rank b -> within_rank (fst (Merge a b))).
Proof.
  intros Hu. unfold within_rank. repeat split.
  - apply Forall_replicate. unfold remnant, hashLength, precision. lia.
  - intros s e s' Hs H.
    destruct (Insert_fields Hash Hu _ _ _ H) as (_ & _ & Hbump).
    eapply bump_Forall; [exact Hs| |exact Hbump].
    pose proof (hash_rank_range (Hash e)). unfold remnant, hashLength, precision. lia.
  - intros a b Ha Hb. unfold Merge.
    destruct (negb (bool_decide (version a = version b))); [exact Ha|].
    destruct (length (registers a) =? length (registers b))%nat eqn:El; cbn [negb];
      [|exact Ha].
    apply Nat.eqb_eq in El. cbn [fst registers set_registers].
    rewrite (merge_loop_zip _ _ El). apply zip_max_Forall; assumption.
Qed.

Lemma registers_stay_within_rank_witness :
  within_rank (createSketch testBiases) /\
  (forall s e s', within_rank s -> Insert sampleHash s e = Some s' -> within_rank s') /\
  (forall a b, within_rank a -> within_rank b -> within_rank (fst (Merge a b))).
Proof.
  apply (registers_stay_within_rank sampleHash testBiases). exact sampleHash_u64.
Defined.

(** X6. The first Insert into a fresh sketch touches exactly one register:
    the register the hash selects holds the rank of the hash, one register
    is non-zero and the other [m - 1] are still zero. *)
Theorem first_Insert_fills_one_register
    (Hash : list byte -> Z) (defaultBiases : biases) (element : list byte) :
  (forall e, is_u64 (Hash e)) ->
  exists s',
    Insert Hash (createSketch defaultBiases) element = Some s' /\
    registers s' !! hash_index (Hash element) = Some (hash_rank (Hash element)) /\
    count_nonzero (registers s') = 1 /\
    count_zero (registers s') = m - 1.
Proof.
  intros Hu.
  pose proof (hash_index_range _ (Hu element)) as Hi.
  pose proof (hash_rank_range (Hash element)) as Hr.
  rewrite (Insert_bump Hash Hu). unfold bump. cbn [registers createSketch].
  rewrite lookup_replicate_2 by exact Hi. cbn [fmap option_fmap option_map].
  rewrite Z.max_r by lia.
  eexists. split; [reflexivity|]. cbn [registers set_registers].
  destruct (nonzero_insert_replicate (Z.to_nat m) (hash_index (Hash element))
              (hash_rank (Hash element)) Hi ltac:(lia)) as [Hn Hz].
  repeat split.
  - apply list_lookup_insert_eq. rewrite length_replicate. exact Hi.
  - unfold count_nonzero. rewrite Hn. reflexivity.
  - rewrite Hz. rewrite Z2Nat.id; [reflexivity|]. rewrite m_value. lia.
Qed.

Lemma first_Insert_fills_one_register_witness :
  exists s',
    Insert sampleHash (createSketch testBiases) [Byte.x41] = Some s' /\
    registers s' !! hash_index (sampleHash [Byte.x41])
      = Some (hash_rank (sampleHash [Byte.x41])) /\
    count_nonzero (registers s') = 1 /\
    count_zero (registers s') = m - 1.
Proof.
  apply (first_Insert_fills_one_register sampleHash testBiases [Byte.x41]).
  exact sampleHash_u64.
Defined.


(** ** Rollup: errors, panics, order and iterated Merge *)

Lemma rollup_validate_None (v : string) (n : nat) (rest : list sketch) :
  rollup_validate v n rest = None <->
  Forall (fun sk => version sk = v /\ length (registers sk) = n) rest.
Proof.
  split; [|apply rollup_validate_same].
  induction rest as [|sk rest IH]; intros H; [constructor|].
  cbn in H.
  destruct (bool_decide_reflect (version sk = v)) as [Hv|Hv]; cbn in H; [|discriminate].
  destruct (Nat.eqb_spec (length (registers sk)) n) as [Hl|Hl]; cbn in H; [|discriminate].
  constructor; [split; assumption|apply IH, H].
Qed.

Lemma rollup_validate_Some (v : string) (n : nat) (rest : list sketch) (e : error) :
  rollup_validate v n rest = Some e ->
  Exists (fun sk => version sk <> v \/ length (registers sk) <> n) rest.
Proof.
  induction rest as [|sk rest IH]; intros H; [discriminate|].
  cbn in H.
  destruct (bool_decide_reflect (version sk = v)) as [Hv|Hv]; cbn in H;
    [|apply Exists_cons_hd; left; exact Hv].
  destruct (Nat.eqb_spec (length (registers sk)) n) as [Hl|Hl]; cbn in H;
    [|apply Exists_cons_hd; right; exact Hl].
  apply Exists_cons_tl, IH, H.
Qed.

Lemma rollup_max_None_from (regs : list (list Z)) (i : nat) :
  foldl (fun acc reg =>
           match acc, reg !! i with
           | Some max, Some r => Some (if max <? r then r else max)
           | _, _ => None
           end) None regs = None.
Proof. induction regs as [|reg regs IH]; [reflexivity|exact IH]. Qed.

Lemma rollup_max_short (regs : list (list Z)) (i : nat) :
  Exists (fun reg => (length reg <= i)%nat) regs -> rollup_max regs i = None.
Proof.
  unfold rollup_max. generalize (Some 0).
  induction regs as [|reg regs IH]; intros acc H; [inversion H|].
  cbn [foldl]. apply Exists_cons in H as [H|H].
  - apply lookup_ge_None in H. rewrite H.
    destruct acc; apply rollup_max_None_from.
  - apply IH, H.
Qed.

Lemma rollup_fill_None_from (regs : list (list Z)) (l : list nat) :
  foldl (fun acc i =>
           match acc, rollup_max regs i with
           | Some b, Some max => Some (<[i := max]> b)
           | _, _ => None
           end) (@None (list Z)) l = None.
Proof. induction l as [|i l IH]; [reflexivity|exact IH]. Qed.

Lemma rollup_fill_short (regs : list (list Z)) (base : list Z) (i : nat) :
  (i < length base)%nat -> rollup_max regs i = None -> rollup_fill regs base = None.
Proof.
  intros Hi Hm. unfold rollup_fill.
  assert (Hin : i ∈ seq 0 (length base)) by (apply elem_of_seq; lia).
  revert Hin. generalize (Some base). generalize (seq 0 (length base)).
  intros l; induction l as [|j l IH]; intros acc Hin; [inversion Hin|].
  cbn [foldl]. apply elem_of_cons in Hin as [<-|Hin].
  - rewrite Hm. destruct acc; apply rollup_fill_None_from.
  - apply IH, Hin.
Qed.

Lemma column_max_perm (regs regs' : list (list Z)) (i : nat) :
  regs <> [] ->
  Forall (fun reg => exists y, reg !! i = Some y /\ 0 <= y) regs ->
  Permutation regs regs' ->
  column_max regs i = column_max regs' i.
Proof.
  intros Hne Hall Hp.
  assert (Hne' : regs' <> []).
  { intros ->. apply Permutation_nil_r in Hp. contradiction. }
  assert (Hall' : Forall (fun reg => exists y, reg !! i = Some y /\ 0 <= y) regs').
  { rewrite <- Hp. exact Hall. }
  destruct (column_max_is_maximum regs i Hne Hall) as [Hub (reg & Hin & Hat)].
  destruct (column_max_is_maximum regs' i Hne' Hall') as [Hub' (reg' & Hin' & Hat')].
  apply Z.le_antisymm.
  - apply (Hub' reg); [rewrite <- Hp; exact Hin|exact Hat].
  - apply (Hub reg'); [rewrite Hp; exact Hin'|exact Hat'].
Qed.

Lemma Rollup_same_version (defaultBiases : biases) (v : string) (l : list sketch) :
  l <> [] ->
  Forall (fun sk => version sk = v /\ well_formed sk) l ->
  exists r,
    Rollup defaultBiases l = Ok r /\
    version r = v /\ biasSet r = defaultBiases /\
    length (registers r) = Z.to_nat m /\
    forall i, (i < Z.to_nat m)%nat ->
      registers r !! i = Some (column_max (map registers l) i).
Proof.
  intros Hne Hall. destruct l as [|first rest]; [contradiction|].
  assert (Hv : version first = v) by (inversion Hall as [|? ? [? _]]; assumption).
  destruct (Rollup_full defaultBiases first rest) as (r & Hr & Hrv & Hrest).
  - eapply Forall_impl; [exact Hall|]. intros sk [? ?]. split; congruence.
  - exists r. repeat split; try tauto. congruence.
Qed.

Lemma well_formed_columns (l : list sketch) (i : nat) :
  Forall well_formed l -> (i < Z.to_nat m)%nat ->
  Forall (fun reg => exists y, reg !! i = Some y /\ 0 <= y) (map registers l).
Proof.
  intros Hall Hi. apply Forall_fmap. eapply Forall_impl; [exact Hall|].
  intros sk [Hl Hu]. cbn.
  destruct (lookup_lt_is_Some_2 (registers sk) i ltac:(lia)) as [y Hy].
  exists y. split; [exact Hy|]. pose proof (is_u8_lookup _ _ _ Hu Hy). lia.
Qed.

Lemma registers_eq_by_lookup (a b : list Z) (n : nat) :
  length a = n -> length b = n ->
  (forall i, (i < n)%nat -> a !! i = b !! i) -> a = b.
Proof.
  intros La Lb H. apply list_eq. intros i.
  destruct (decide (i < n)%nat) as [Hi|Hi]; [apply H, Hi|].
  rewrite !(proj2 (lookup_ge_None _ _)) by lia. reflexivity.
Qed.

Lemma Merge_fold_registers (rest : list sketch) :
  forall first,
  Forall (fun sk => version sk = version first /\ well_formed sk) (first :: rest) ->
  let r := foldl (fun acc sk => fst (Merge acc sk)) first rest in
  version r = version first /\ biasSet r = biasSet first /\
  length (registers r) = Z.to_nat m /\
  forall i x, registers first !! i = Some x ->
    registers r !! i =
      Some (foldl (fun acc reg => Z.max acc (default 0 (reg !! i))) x (map registers rest)).
Proof.
  induction rest as [|sk rest IH]; intros first Hall.
  - inversion Hall as [|? ? [_ [Hl _]] _]. cbn. repeat split; auto.
  - inversion Hall as [|? ? [_ [Hl Hu]] Hrest]; subst.
    inversion Hrest as [|? ? [Hv [Hl' Hu']] Hrest']; subst.
    cbn [foldl map fmap list_fmap].
    assert (Hm : Merge first sk
                 = (set_registers first (zip_with Z.max (registers first) (registers sk)),
                    None)).
    { apply Merge_compatible; congruence. }
    rewrite Hm. cbn [fst].
    set (first' := set_registers first (zip_with Z.max (registers first) (registers sk))).
    destruct (IH first') as (Hrv & Hrb & Hrl & Hri).
    { constructor.
      - split; [reflexivity|]. split; cbn.
        + rewrite length_zip_with. lia.
        + apply zip_max_Forall; assumption.
      - eapply Forall_impl; [exact Hrest'|]. intros s [? ?]. split; [|assumption].
        cbn. congruence. }
    repeat split; try assumption.
    intros i x Hx.
    destruct (zip_max_lookup (registers first) (registers sk) i x ltac:(congruence) Hx)
      as (y & Hy & Hz).
    rewrite (Hri i (Z.max x y) Hz). rewrite Hy. reflexivity.
Qed.

(** X7. Rollup returns an error exactly when the list is empty or some
    sketch after the first differs from the first in version or in the
    length of its register array. *)
Theorem Rollup_error_cases (defaultBiases : biases) (sketches : list sketch) :
  (exists e, Rollup defaultBiases sketches = Err e) <->
  sketches = [] \/
  exists first rest,
    sketches = first :: rest /\
    Exists (fun sk => version sk <> version first \/
                      length (registers sk) <> length (registers first)) rest.
Proof.
  destruct sketches as [|first rest].
  - split; [left; reflexivity|]. intros _. eexists. reflexivity.
  - cbn [Rollup].
    destruct (rollup_validate (version first) (length (registers first)) rest)
      as [e|] eqn:Hval.
    + split; [|intros _; exists e; reflexivity].
      intros _. right. exists first, rest. split; [reflexivity|].
      eapply rollup_validate_Some, Hval.
    + apply rollup_validate_None in Hval.
      split.
      * intros [e He]. destruct (rollup_fill _ _); discriminate.
      * intros [H|(f & r & Heq & Hex)]; [discriminate|].
        injection Heq as <- <-. exfalso.
        apply Exists_exists in Hex as (sk & Hin & Hbad).
        rewrite Forall_forall in Hval. destruct (Hval sk Hin). tauto.
Qed.

(** X8. Rollup panics whenever the sketches agree in version and in the
    length of their register arrays but that length is below [m]: the loop
    runs over the [m] registers of the new sketch and indexes every input
    with it. *)
Theorem Rollup_panics_below_m
    (defaultBiases : biases) (first : sketch) (rest : list sketch) :
  Forall (fun sk => version sk = version first /\
                    length (registers sk) = length (registers first)) rest ->
  (length (registers first) < Z.to_nat m)%nat ->
  Rollup defaultBiases (first :: rest) = Panic.
Proof.
  intros Hall Hlen. cbn [Rollup].
  rewrite (rollup_validate_same _ _ _ Hall).
  rewrite (rollup_fill_short _ _ (length (registers first))); [reflexivity| |].
  - destruct (negb _); cbn; rewrite length_replicate; exact Hlen.
  - apply rollup_max_short. cbn. apply Exists_cons_hd. lia.
Qed.

Lemma Rollup_panics_below_m_witness :
  Rollup testBiases [shortSketch; shortSketch] = Panic.
Proof.
  apply (Rollup_panics_below_m testBiases shortSketch [shortSketch]).
  - constructor; [split; reflexivity|constructor].
  - change (1 < Z.to_nat m)%nat. rewrite m_value. lia.
Defined.

(** X9. Rollup cuts longer register arrays down to [m]: when the sketches
    agree in version and in a length of at least [m], the result has [m]
    registers, each the highest entry of its index (never below zero), and
    whatever the inputs hold beyond index [m] is dropped. *)
Theorem Rollup_truncates_above_m
    (defaultBiases : biases) (first : sketch) (rest : list sketch) :
  Forall (fun sk => version sk = version first /\
                    length (registers sk) = length (registers first)) rest ->
  (Z.to_nat m <= length (registers first))%nat ->
  exists r,
    Rollup defaultBiases (first :: rest) = Ok r /\
    version r = version first /\ biasSet r = defaultBiases /\
    length (registers r) = Z.to_nat m /\
    forall i, (i < Z.to_nat m)%nat ->
      registers r !! i = Some (column_max (map registers (first :: rest)) i).
Proof.
  intros Hall Hlen. cbn [Rollup].
  rewrite (rollup_validate_same _ _ _ Hall).
  set (base := if negb (bool_decide (version (createSketch defaultBiases) = version first))
               then set_version (createSketch defaultBiases) (version first)
               else createSketch defaultBiases).
  assert (Hbase : registers base = replicate (Z.to_nat m) 0).
  { unfold base. destruct (negb _); reflexivity. }
  assert (Hbv : version base = version first).
  { unfold base. destruct (bool_decide_reflect
      (version (createSketch defaultBiases) = version first)); cbn [negb]; [assumption|].
    reflexivity. }
  assert (Hbb : biasSet base = defaultBiases).
  { unfold base. destruct (negb _); reflexivity. }
  destruct (rollup_fill_columns (map registers (first :: rest)) (registers base))
    as (rs & Hrs & Hl & Hi).
  { rewrite Hbase, length_replicate. apply Forall_fmap. constructor; [exact Hlen|].
    eapply Forall_impl; [exact Hall|]. intros sk [_ Hsk]. cbn. rewrite Hsk. exact Hlen. }
  rewrite Hrs. rewrite Hbase, length_replicate in Hl, Hi.
  exists (set_registers base rs). repeat split; assumption.
Qed.

Lemma Rollup_truncates_above_m_witness :
  exists r,
    Rollup testBiases [longSketch; longSketch] = Ok r /\
    version r = version longSketch /\ biasSet r = testBiases /\
    length (registers r) = Z.to_nat m /\
    forall i, (i < Z.to_nat m)%nat ->
      registers r !! i = Some (column_max (map registers [longSketch; longSketch]) i).
Proof.
  apply (Rollup_truncates_above_m testBiases longSketch [longSketch]).
  - constructor; [split; reflexivity|constructor].
  - unfold longSketch. cbn [registers set_registers].
    rewrite length_replicate. apply Nat.le_succ_diag_r.
Defined.

(** X10. Rollup does not depend on the order of its inputs: two lists of
    well-formed sketches of one version that are permutations of each other
    roll up to the same sketch. *)
Theorem Rollup_order_independent
    (defaultBiases : biases) (v : string) (l l' : list sketch) :
  l <> [] ->
  Forall (fun sk => version sk = v /\ well_formed sk) l ->
  Permutation l l' ->
  Rollup defaultBiases l = Rollup defaultBiases l' /\
  exists r, Rollup defaultBiases l = Ok r.
Proof.
  intros Hne Hall Hp.
  assert (Hne' : l' <> []).
  { intros ->. apply Permutation_nil_r in Hp. contradiction. }
  assert (Hall' : Forall (fun sk => version sk = v /\ well_formed sk) l').
  { rewrite <- Hp. exact Hall. }
  destruct (Rollup_same_version defaultBiases v l Hne Hall)
    as (r & Hr & Hv & Hb & Hl & Hi).
  destruct (Rollup_same_version defaultBiases v l' Hne' Hall')
    as (r' & Hr' & Hv' & Hb' & Hl' & Hi').
  split; [|exists r; exact Hr].
  rewrite Hr, Hr'. f_equal.
  assert (Hregs : registers r = registers r').
  { apply (registers_eq_by_lookup _ _ (Z.to_nat m) Hl Hl').
    intros i Hlt. rewrite (Hi i Hlt), (Hi' i Hlt). f_equal.
    apply column_max_perm.
    - destruct l; [contradiction|discriminate].
    - apply well_formed_columns; [|exact Hlt].
      eapply Forall_impl; [exact Hall|]. intros sk [_ ?]. assumption.
    - apply fmap_Permutation, Hp. }
  destruct r, r'; cbn in *; congruence.
Qed.

Lemma Rollup_order_independent_witness :
  Rollup testBiases [uniformSketch 1; uniformSketch 2]
  = Rollup testBiases [uniformSketch 2; uniformSketch 1] /\
  exists r, Rollup testBiases [uniformSketch 1; uniformSketch 2] = Ok r.
Proof.
  apply (Rollup_order_independent testBiases currentVersion
           [uniformSketch 1; uniformSketch 2] [uniformSketch 2; uniformSketch 1]).
  - discriminate.
  - constructor; [|constructor; [|constructor]];
      (split; [reflexivity|apply uniformSketch_well_formed; unfold is_u8; lia]).
  - apply perm_swap.
Defined.

(** X11. Rollup agrees with merging one sketch after the other: on
    well-formed sketches of one version it returns the sketch obtained by
    merging the rest into the first, one at a time, bound to the default
    bias table. Every Merge of that chain succeeds. *)
Theorem Rollup_is_iterated_Merge
    (defaultBiases : biases) (first : sketch) (rest : list sketch) :
  Forall (fun sk => version sk = version first /\ well_formed sk) (first :: rest) ->
  Rollup defaultBiases (first :: rest) =
    Ok (set_biasSet (foldl (fun acc sk => fst (Merge acc sk)) first rest) defaultBiases).
Proof.
  intros Hall.
  destruct (Rollup_full defaultBiases first rest Hall) as (r & Hr & Hv & Hb & Hl & Hi).
  destruct (Merge_fold_registers rest first Hall) as (Fv & Fb & Fl & Fi).
  rewrite Hr. f_equal.
  assert (Hregs : registers r
                  = registers (foldl (fun acc sk => fst (Merge acc sk)) first rest)).
  { apply (registers_eq_by_lookup _ _ (Z.to_nat m) Hl Fl).
    intros i Hlt. rewrite (Hi i Hlt).
    assert (Hwf : well_formed first) by (inversion Hall as [|? ? [_ ?] _]; assumption).
    destruct Hwf as [Hl1 Hu1].
    destruct (lookup_lt_is_Some_2 (registers first) i) as [x Hx]; [rewrite Hl1; exact Hlt|].
    rewrite (Fi i x Hx). unfold column_max. cbn [map foldl fmap list_fmap].
    rewrite Hx. pose proof (is_u8_lookup _ _ _ Hu1 Hx).
    replace (Z.max 0 (default 0 (Some x))) with x by (cbn; lia). reflexivity. }
  destruct r as [rb rr rv]; cbn in *. unfold set_biasSet. cbn.
  rewrite <- Hregs, Hb, Fv, Hv. reflexivity.
Qed.

Lemma Rollup_is_iterated_Merge_witness :
  Rollup testBiases [uniformSketch 1; uniformSketch 2; uniformSketch 3] =
    Ok (set_biasSet
          (foldl (fun acc sk => fst (Merge acc sk)) (uniformSketch 1)
                 [uniformSketch 2; uniformSketch 3]) testBiases).
Proof.
  apply (Rollup_is_iterated_Merge testBiases (uniformSketch 1)
           [uniformSketch 2; uniformSketch 3]).
  constructor; [|constructor; [|constructor; [|constructor]]];
    (split; [reflexivity|apply uniformSketch_well_formed; unfold is_u8; lia]).
Defined.


(** ** The protobuf boundary, end to end *)

Lemma fill_registers_Forall (P : Z -> Prop) (pb : list Z) :
  (forall x, P (u8 x)) ->
  forall i rs rs', Forall P rs -> fill_registers i pb rs = Some rs' -> Forall P rs'.
Proof.
  intros HP. induction pb as [|x pb IH]; intros i rs rs' Hrs H; cbn [fill_registers] in H.
  - injection H as <-. exact Hrs.
  - destruct (i <? length rs)%nat; [|discriminate].
    eapply IH; [|exact H]. apply Forall_insert; [exact Hrs|apply HP].
Qed.

Lemma u8_is_u8 (x : Z) : is_u8 (u8 x).
Proof. unfold is_u8, u8. apply Z.mod_pos_bound. lia. Qed.

Lemma Marshal_valid (vs : string -> bool) (msg : Wire.SketchPb) :
  vs (Wire.Version msg) = true -> exists b, Wire.Marshal vs msg = Some b.
Proof. intros H. unfold Wire.Marshal. rewrite H. eexists. reflexivity. Qed.

(** X12. The recipe for custom biases after a round trip: a well-formed
    sketch of the current version is serialized and deserialized, then
    merged into a new custom sketch of a registered key; the receiver ends
    with the registers and version of the original, bound to the registered
    table, so it is the original itself when that was its table. *)
Theorem custom_biases_survive_by_Merge
    (defaultBiases : biases) (biasStore : gmap string biases)
    (validString : string -> bool) (biasKey : string) (bs : biases) (s : sketch) :
  biasStore !! biasKey = Some bs ->
  well_formed s -> version s = currentVersion ->
  validString currentVersion = true ->
  exists b s' c,
    ProtoSerialize validString s = Ok b /\
    ProtoDeserialize defaultBiases validString (Some b) = Ok s' /\
    NewCustomSketch defaultBiases biasStore biasKey = Ok c /\
    Merge c s' = (set_biasSet s bs, None) /\
    (biasSet s = bs -> Merge c s' = (s, None)).
Proof.
  intros Hkey Hwf Hv Hvalid.
  destruct (roundtrip defaultBiases validString s Hwf) as (b & Hb & Hd).
  { rewrite Hv. cbn. lia. }
  { rewrite Hv. exact Hvalid. }
  exists b, (set_biasSet s defaultBiases), (set_biasSet (createSketch defaultBiases) bs).
  assert (Hm : Merge (set_biasSet (createSketch defaultBiases) bs)
                     (set_biasSet s defaultBiases) = (set_biasSet s bs, None)).
  { destruct (Merge_fresh_identity bs (set_biasSet s defaultBiases)) as [_ H].
    - exact Hwf.
    - exact Hv.
    - exact H. }
  repeat split; try assumption.
  - unfold NewCustomSketch. rewrite Hkey. reflexivity.
  - intros <-. rewrite Hm. destruct s; reflexivity.
Qed.

Lemma custom_biases_survive_by_Merge_witness :
  exists b s' c,
    ProtoSerialize anyString (set_biasSet (uniformSketch 3) zeroBiases) = Ok b /\
    ProtoDeserialize testBiases anyString (Some b) = Ok s' /\
    NewCustomSketch testBiases sampleStore "test-biases" = Ok c /\
    Merge c s' = (set_biasSet (set_biasSet (uniformSketch 3) zeroBiases) zeroBiases, None) /\
    (biasSet (set_biasSet (uniformSketch 3) zeroBiases) = zeroBiases ->
     Merge c s' = (set_biasSet (uniformSketch 3) zeroBiases, None)).
Proof.
  apply (custom_biases_survive_by_Merge testBiases sampleStore anyString "test-biases"
           zeroBiases (set_biasSet (uniformSketch 3) zeroBiases)).
  - reflexivity.
  - apply (uniformSketch_well_formed 3). unfold is_u8. lia.
  - reflexivity.
  - reflexivity.
Defined.

(** X13. Serialization loses nothing but the bias table: two well-formed
    sketches that serialize to the same bytes have the same version and
    the same registers. *)
Theorem ProtoSerialize_injective
    (validString : string -> bool) (s1 s2 : sketch) (b : list byte) :
  well_formed s1 -> well_formed s2 ->
  Z.of_nat (String.length (version s1)) < 2 ^ 64 ->
  Z.of_nat (String.length (version s2)) < 2 ^ 64 ->
  ProtoSerialize validString s1 = Ok b ->
  ProtoSerialize validString s2 = Ok b ->
  version s1 = version s2 /\ registers s1 = registers s2.
Proof.
  intros W1 W2 L1 L2 H1 H2.
  assert (V : forall s, (exists b', ProtoSerialize validString s = Ok b') ->
                        validString (version s) = true).
  { intros s [b' Hs]. unfold ProtoSerialize, Wire.Marshal in Hs.
    cbn [Wire.Version] in Hs. destruct (validString (version s)); [reflexivity|].
    discriminate. }
  destruct (roundtrip (biasSet s1) validString s1 W1 L1 (V s1 (ex_intro _ b H1)))
    as (b1 & Hb1 & Hd1).
  destruct (roundtrip (biasSet s1) validString s2 W2 L2 (V s2 (ex_intro _ b H2)))
    as (b2 & Hb2 & Hd2).
  assert (b1 = b) by congruence. assert (b2 = b) by congruence. subst b1 b2.
  rewrite Hd1 in Hd2. injection Hd2 as Hr Hv. split; assumption.
Qed.

Lemma ProtoSerialize_injective_witness :
  version (uniformSketch 3) = version (set_biasSet (uniformSketch 3) zeroBiases) /\
  registers (uniformSketch 3) = registers (set_biasSet (uniformSketch 3) zeroBiases).
Proof.
  destruct (roundtrip testBiases anyString (uniformSketch 3)) as (b & Hb & _).
  - apply uniformSketch_well_formed. unfold is_u8. lia.
  - cbn. lia.
  - reflexivity.
  - apply (ProtoSerialize_injective anyString (uniformSketch 3)
             (set_biasSet (uniformSketch 3) zeroBiases) b).
    + apply uniformSketch_well_formed. unfold is_u8. lia.
    + apply (uniformSketch_well_formed 3). unfold is_u8. lia.
    + cbn. lia.
    + cbn. lia.
    + exact Hb.
    + exact Hb.
Defined.

(** X14. Whatever bytes it is given, a sketch that ProtoDeserialize returns
    is well-formed ([m] registers, each a byte) and bound to the default
    bias table. *)
Theorem ProtoDeserialize_well_formed
    (defaultBiases : biases) (validString : string -> bool)
    (protoBs : option (list byte)) (s : sketch) :
  ProtoDeserialize defaultBiases validString protoBs = Ok s ->
  well_formed s /\ biasSet s = defaultBiases.
Proof.
  intros H. split; [split|].
  - eapply ProtoDeserialize_length, H.
  - unfold ProtoDeserialize in H.
    destruct protoBs as [b|]; [|discriminate].
    destruct (Wire.Unmarshal validString b) as [pb|]; [|discriminate].
    destruct (fill_registers 0 _ _) as [rs|] eqn:Hf; [|discriminate].
    injection H as <-. cbn [registers set_registers].
    eapply (fill_registers_Forall is_u8); [apply u8_is_u8| |exact Hf].
    rewrite createSketch_registers. apply Forall_replicate. unfold is_u8. lia.
  - unfold ProtoDeserialize in H.
    destruct protoBs as [b|]; [|discriminate].
    destruct (Wire.Unmarshal validString b) as [pb|]; [|discriminate].
    destruct (fill_registers 0 _ _) as [rs|]; [|discriminate].
    injection H as <-. reflexivity.
Qed.

Lemma ProtoDeserialize_well_formed_witness :
  well_formed {| biasSet := testBiases; registers := replicate (Z.to_nat m) 0;
                 version := EmptyString |} /\
  biasSet {| biasSet := testBiases; registers := replicate (Z.to_nat m) 0;
             version := EmptyString |} = testBiases.
Proof.
  apply (ProtoDeserialize_well_formed testBiases anyString (Some [])). reflexivity.
Defined.

(** X15. A sketch with more than [m] registers serializes without
    complaint, and ProtoDeserialize panics on the bytes: it writes every
    decoded register into an array of [m]. *)
Theorem ProtoDeserialize_panics_on_long_sketch
    (defaultBiases : biases) (validString : string -> bool) (s : sketch) :
  (Z.to_nat m < length (registers s))%nat ->
  10 * Z.of_nat (length (registers s)) < 2 ^ 64 ->
  Forall is_u8 (registers s) ->
  Z.of_nat (String.length (version s)) < 2 ^ 64 ->
  validString (version s) = true ->
  exists b,
    ProtoSerialize validString s = Ok b /\
    ProtoDeserialize defaultBiases validString (Some b) = Panic.
Proof.
  intros Hlen Hsize Hu8 Hv Hvalid. unfold ProtoSerialize.
  destruct (Marshal_valid validString
              {| Wire.Version := version s; Wire.Registers := map u32 (registers s) |}
              Hvalid) as [b Hm].
  rewrite Hm. exists b. split; [reflexivity|].
  apply Unmarshal_Marshal in Hm; cbn [Wire.Version Wire.Registers].
  - apply (ProtoDeserialize_too_many _ _ _ _ Hm). cbn [Wire.Registers].
    rewrite length_map. exact Hlen.
  - exact Hv.
  - rewrite length_map. exact Hsize.
  - rewrite map_u32_id by exact Hu8.
    eapply Forall_impl; [exact Hu8|]. unfold is_u8. cbn. intros; lia.
Qed.

Lemma ProtoDeserialize_panics_on_long_sketch_witness :
  exists b,
    ProtoSerialize anyString longSketch = Ok b /\
    ProtoDeserialize testBiases anyString (Some b) = Panic.
Proof.
  apply (ProtoDeserialize_panics_on_long_sketch testBiases anyString longSketch).
  - unfold longSketch. cbn [registers set_registers]. rewrite length_replicate. lia.
  - unfold longSketch. cbn [registers set_registers]. rewrite length_replicate.
    rewrite Nat2Z.inj_succ, Z2Nat.id by (rewrite m_value; lia). rewrite m_value. lia.
  - unfold longSketch. cbn [registers set_registers]. apply Forall_replicate.
    unfold is_u8. lia.
  - cbn. lia.
  - reflexivity.
Defined.

(** ** Integers that float64 holds exactly *)

Lemma Zdigits2_scaled (p : positive) (n : Z) :
  2 ^ 52 <= Z.pos p < 2 ^ 53 -> 0 <= n ->
  Zdigits2 (Z.pos p * 2 ^ n) = 53 + n.
Proof.
  intros Hp Hn.
  assert (H2 : 0 < 2 ^ n) by (apply Z.pow_pos_nonneg; lia).
  assert (H0 : 0 < Z.pos p * 2 ^ n) by (apply Z.mul_pos_pos; lia).
  destruct (Zdigits2_pos_bounds (Z.pos p * 2 ^ n) H0) as (Hd & Hl & Hu).
  assert (A : 2 ^ (52 + n) <= Z.pos p * 2 ^ n) by (rewrite Z.pow_add_r by lia; nia).
  assert (B : Z.pos p * 2 ^ n < 2 ^ (53 + n)) by (rewrite Z.pow_add_r by lia; nia).
  assert (C : 2 ^ (Zdigits2 (Z.pos p * 2 ^ n) - 1) < 2 ^ (53 + n)) by lia.
  assert (D : 2 ^ (52 + n) < 2 ^ Zdigits2 (Z.pos p * 2 ^ n)) by lia.
  apply pow2_lt_inv in C; [|lia]. apply pow2_lt_inv in D; [|lia]. lia.
Qed.

Lemma binary_round_aux_exact (p : positive) (n e : Z) :
  2 ^ 52 <= Z.pos p < 2 ^ 53 -> 0 <= n -> -1074 <= e + n <= 971 ->
  binary_round_aux 53 1024 false (Z.pos p * 2 ^ n) e loc_Exact
  = S754_finite false p (e + n).
Proof.
  intros Hp Hn He. unfold binary_round_aux.
  assert (H2 : 0 < 2 ^ n) by (apply Z.pow_pos_nonneg; lia).
  assert (H0 : 0 <= Z.pos p * 2 ^ n) by (apply Z.mul_nonneg_nonneg; lia).
  destruct (shr_fexp 53 1024 (Z.pos p * 2 ^ n) e loc_Exact) as [mrs' e'] eqn:H1.
  destruct (shr_fexp_shift _ _ _ _ _ H0 H1) as (n1 & _ & -> & Hn1 & Hm1 & _ & Hx1).
  rewrite (Zdigits2_scaled p n Hp Hn), fexp64 in Hn1.
  assert (n1 = n) by lia. clear Hn1. subst n1.
  rewrite Z.div_mul in Hm1 by lia.
  specialize (Hx1 eq_refl). rewrite Z.mod_mul in Hx1 by lia. cbn in Hx1.
  rewrite (loc_of_shr_record_exact _ Hx1), Hm1.
  cbn [round_nearest_even].
  destruct (shr_fexp 53 1024 (Z.pos p) (e + n) loc_Exact) as [mrs'' e''] eqn:H3.
  destruct (shr_fexp_shift _ _ _ _ _ (Pos2Z.is_nonneg p) H3) as (n2 & _ & -> & Hn2 & Hm2 & _ & _).
  pose proof (Zdigits2_scaled p 0 Hp ltac:(lia)) as Hd.
  rewrite Z.pow_0_r, Z.mul_1_r in Hd. rewrite Hd, fexp64 in Hn2.
  assert (n2 = 0) by lia. clear Hn2. subst n2.
  rewrite Z.pow_0_r, Z.div_1_r in Hm2. rewrite Hm2.
  rewrite Z.add_0_r.
  rewrite (proj2 (Z.leb_le (e + n) (1024 - 53))) by lia. reflexivity.
Qed.

Lemma of_Z_exact (s : Z) :
  0 < s < 2 ^ 53 ->
  exists mz k, 0 <= k <= 52 /\ Z.pos mz = s * 2 ^ k /\
    2 ^ 52 <= Z.pos mz < 2 ^ 53 /\
    Float64.of_Z s = S754_finite false mz (- k).
Proof.
  intros Hs. destruct s as [|q|q]; try lia.
  unfold Float64.of_Z, binary_normalize, binary_round.
  destruct (Zdigits2_pos_bounds (Z.pos q) ltac:(lia)) as (Hd & Hl & Hu).
  cbn [Zdigits2] in Hd, Hl, Hu.
  assert (Hd53 : Z.pos (digits2_pos q) <= 53).
  { assert (H : 2 ^ (Z.pos (digits2_pos q) - 1) < 2 ^ 53) by lia.
    apply pow2_lt_inv in H; lia. }
  unfold Float64.prec, Float64.emax. rewrite Z.add_0_r, fexp64.
  replace (Z.max (Z.pos (digits2_pos q) - 53) (-1074))
    with (Z.pos (digits2_pos q) - 53) by lia.
  set (f := Z.pos (digits2_pos q) - 53).
  destruct (Z.eq_dec f 0) as [Hf0|Hf0].
  - assert (Hsame : shl_align q 0 f = (q, 0)).
    { unfold shl_align. rewrite Hf0. reflexivity. }
    rewrite Hsame. exists q, 0. rewrite Z.pow_0_r, Z.mul_1_r.
    assert (Hq : 2 ^ 52 <= Z.pos q < 2 ^ 53).
    { replace (Z.pos (digits2_pos q)) with 53 in * by lia. cbn in Hl. lia. }
    repeat split; try lia.
    pose proof (binary_round_aux_exact q 0 0 Hq ltac:(lia) ltac:(lia)) as E.
    rewrite Z.pow_0_r, Z.mul_1_r in E. exact E.
  - pose proof (shl_align_value q 0 f ltac:(lia)) as Hv.
    destruct (shl_align q 0 f) as [mz ez]. destruct Hv as [-> Hv].
    assert (Hmz : Z.pos mz = Z.pos q * 2 ^ (- f)).
    { replace (0 + 1074) with ((f + 1074) + (- f)) in Hv by lia.
      rewrite (Z.pow_add_r 2 (f + 1074) (- f)) in Hv by lia.
      assert (0 < 2 ^ (f + 1074)) by (apply Z.pow_pos_nonneg; lia). nia. }
    assert (Hrange : 2 ^ 52 <= Z.pos mz < 2 ^ 53).
    { assert (Hf : 0 < 2 ^ (- f)) by (apply Z.pow_pos_nonneg; lia).
      assert (E52 : 2 ^ 52 = 2 ^ (Z.pos (digits2_pos q) - 1) * 2 ^ (- f)).
      { rewrite <- Z.pow_add_r by lia. f_equal. lia. }
      assert (E53 : 2 ^ 53 = 2 ^ Z.pos (digits2_pos q) * 2 ^ (- f)).
      { rewrite <- Z.pow_add_r by lia. f_equal. lia. }
      rewrite Hmz, E52, E53. split; nia. }
    exists mz, (- f). rewrite Z.opp_involutive.
    repeat split; try lia.
    pose proof (binary_round_aux_exact mz 0 f Hrange ltac:(lia) ltac:(lia)) as E.
    rewrite Z.pow_0_r, Z.mul_1_r, Z.add_0_r in E. exact E.
Qed.

Lemma mul_one_exact (mz : positive) (k : Z) :
  2 ^ 52 <= Z.pos mz < 2 ^ 53 -> 0 <= k <= 52 ->
  Float64.mul (S754_finite false mz (- k)) Float64.one = S754_finite false mz (- k).
Proof.
  intros Hm Hk.
  change Float64.one with (S754_finite false 4503599627370496 (-52)).
  unfold Float64.mul, SFmul, Float64.prec, Float64.emax. cbn [xorb].
  rewrite Pos2Z.inj_mul. change (Z.pos 4503599627370496) with (2 ^ 52).
  rewrite (binary_round_aux_exact mz 52 (- k + -52) Hm ltac:(lia) ltac:(lia)).
  f_equal. lia.
Qed.

Lemma step_times_one (s : Z) :
  0 < s < 2 ^ 53 ->
  Float64.to_uint64 (Float64.mul (Float64.of_Z s) Float64.one) = Some s.
Proof.
  intros Hs. destruct (of_Z_exact s Hs) as (mz & k & Hk & Hmz & Hr & ->).
  rewrite (mul_one_exact mz k Hr Hk).
  unfold Float64.to_uint64, Float64.trunc.
  assert (H2 : 0 < 2 ^ k) by (apply Z.pow_pos_nonneg; lia).
  destruct (0 <=? - k) eqn:E.
  - apply Z.leb_le in E. assert (k = 0) by lia. subst k.
    cbn [Z.opp]. rewrite Z.pow_0_r, Z.mul_1_r in *.
    rewrite Hmz.
    destruct (0 <=? s) eqn:E1; [|lia]. destruct (s <? 2 ^ 64) eqn:E2; [reflexivity|].
    apply Z.ltb_ge in E2. change (2 ^ 64) with 18446744073709551616 in E2.
    change (2 ^ 53) with 9007199254740992 in Hs. lia.
  - rewrite Z.opp_involutive, Hmz, Z.div_mul by lia.
    destruct (0 <=? s) eqn:E1; [|lia]. destruct (s <? 2 ^ 64) eqn:E2; [reflexivity|].
    apply Z.ltb_ge in E2. change (2 ^ 64) with 18446744073709551616 in E2.
    change (2 ^ 53) with 9007199254740992 in Hs. lia.
Qed.

(** ** The interpolation points *)

Section WalkBounds.
Variable maxCardinality : Z.
Variable stepRate : spec_float.

Lemma walk_run_more (fuel extra : nat) :
  forall w r, walk_run maxCardinality stepRate fuel w = Some r ->
              walk_run maxCardinality stepRate (fuel + extra) w = Some r.
Proof.
  induction fuel as [|f IH]; intros w r H; [discriminate|].
  cbn [walk_run Nat.add] in *.
  destruct (walk_iter maxCardinality stepRate w); [apply IH, H|exact H|exact H].
Qed.

Lemma walk_iter_cases (w : walk) :
  0 <= walk_i w ->
  match walk_iter maxCardinality stepRate w with
  | Next w' =>
      walk_i w < maxCardinality /\ 0 <= walk_i w' /\
      walk_ticks w' = walk_ticks w ++ [walk_i w]
  | Done ticks => maxCardinality <= walk_i w /\ ticks = walk_ticks w
  | Unspecified => walk_i w < maxCardinality
  end.
Proof.
  intros Hi. unfold walk_iter.
  destruct (Z.ltb_spec (walk_i w) maxCardinality) as [Hlt|Hge]; [|split; [lia|reflexivity]].
  destruct (walk_nextStepChange w <? walk_i w).
  - destruct (Float64.to_uint64 _); [|exact Hlt].
    cbn. repeat split; try assumption. unfold u64. apply Z.mod_pos_bound. lia.
  - cbn. repeat split; try assumption. unfold u64. apply Z.mod_pos_bound. lia.
Qed.

Lemma walk_run_ticks (fuel : nat) :
  forall w ticks,
  walk_run maxCardinality stepRate fuel w = Some (Done ticks) ->
  0 <= walk_i w ->
  exists more,
    ticks = walk_ticks w ++ more /\
    Forall (fun t => 0 <= t < maxCardinality) more /\
    (walk_i w < maxCardinality -> exists rest, more = walk_i w :: rest).
Proof.
  induction fuel as [|f IH]; intros w ticks H Hi; [discriminate|].
  cbn [walk_run] in H. pose proof (walk_iter_cases w Hi) as Hc.
  destruct (walk_iter maxCardinality stepRate w) as [w'|tk|].
  - destruct Hc as (Hlt & Hi' & Ht).
    destruct (IH w' ticks H Hi') as (more & -> & Hall & _).
    exists (walk_i w :: more). rewrite Ht, <- app_assoc. split; [reflexivity|].
    split; [constructor; [lia|exact Hall]|]. intros _. exists more. reflexivity.
  - injection H as <-. destruct Hc as [Hge ->].
    exists []. rewrite app_nil_r. split; [reflexivity|]. split; [constructor|]. lia.
  - discriminate.
Qed.
End WalkBounds.

Section UnitRate.
Variable maxCardinality : Z.
Variable initialStep : Z.
Hypothesis step_range : 0 < initialStep < 2 ^ 53.
Hypothesis no_wrap : maxCardinality + initialStep <= 2 ^ 64.

Lemma walk_iter_unit_rate (w : walk) :
  walk_i w < maxCardinality -> 0 <= walk_i w -> walk_step w = initialStep ->
  exists w',
    walk_iter maxCardinality Float64.one w = Next w' /\
    walk_i w' = walk_i w + initialStep /\ walk_step w' = initialStep /\
    walk_ticks w' = walk_ticks w ++ [walk_i w].
Proof.
  intros Hlt Hi Hs. unfold walk_iter.
  rewrite (proj2 (Z.ltb_lt _ _) Hlt).
  assert (Hu : u64 (walk_i w + initialStep) = walk_i w + initialStep).
  { unfold u64. apply Z.mod_small. lia. }
  destruct (walk_nextStepChange w <? walk_i w).
  - rewrite Hs, (step_times_one initialStep step_range).
    eexists. split; [reflexivity|]. cbn. repeat split. exact Hu.
  - eexists. split; [reflexivity|]. cbn. rewrite Hs. repeat split. exact Hu.
Qed.

Lemma walk_run_unit_rate (k : nat) :
  forall w,
  walk_step w = initialStep -> 0 <= walk_i w ->
  maxCardinality <= walk_i w + Z.of_nat k * initialStep ->
  ((0 < k)%nat -> walk_i w + (Z.of_nat k - 1) * initialStep < maxCardinality) ->
  walk_run maxCardinality Float64.one (S k) w =
    Some (Done (walk_ticks w
                ++ map (fun j => walk_i w + Z.of_nat j * initialStep) (seq 0 k))).
Proof.
  induction k as [|k IH]; intros w Hs Hi Hmax Hlast.
  - cbn [walk_run]. unfold walk_iter.
    rewrite (proj2 (Z.ltb_ge _ _)) by lia. cbn. rewrite app_nil_r. reflexivity.
  - assert (Hlt : walk_i w < maxCardinality) by nia.
    destruct (walk_iter_unit_rate w Hlt Hi Hs) as (w' & Hw & Hi' & Hs' & Ht').
    change (walk_run maxCardinality Float64.one (S (S k)) w)
      with (match walk_iter maxCardinality Float64.one w with
            | Next w' => walk_run maxCardinality Float64.one (S k) w'
            | r => Some r
            end).
    rewrite Hw, (IH w' Hs'); [| lia | lia | intros; lia].
    rewrite Ht', Hi', <- app_assoc. do 3 f_equal.
    cbn [seq map app]. f_equal; [lia|].
    rewrite <- seq_shift, map_map. apply map_ext. intros j. lia.
Qed.
End UnitRate.

Lemma calculateInterpolationPoints_Ok
    (maxCardinality initialStep : Z) (stepRate : spec_float)
    (fuel : nat) (ticks : list Z) :
  calculateInterpolationPoints maxCardinality initialStep stepRate fuel = Some (Ok ticks) ->
  walk_run maxCardinality stepRate fuel (walk_init maxCardinality initialStep)
    = Some (Done (0 :: ticks)) /\
  Forall (fun t => 0 <= t < maxCardinality) ticks.
Proof.
  unfold calculateInterpolationPoints. intros H.
  destruct (walk_run maxCardinality stepRate fuel (walk_init maxCardinality initialStep))
    as [[w|tk|]|] eqn:Hrun; try discriminate.
  destruct tk as [|t0 tk]; [discriminate|]. injection H as ->.
  destruct (walk_run_ticks _ _ _ _ _ Hrun) as (more & Hmore & Hall & Hfirst);
    [cbn; lia|].
  cbn [walk_init walk_ticks walk_i app] in Hmore, Hfirst. subst more.
  inversion Hall as [|? ? Ht0 Hall']; subst.
  destruct Hfirst as [rest Hrest]; [lia|]. injection Hrest as -> _.
  split; [reflexivity|exact Hall'].
Qed.

(** X16. Every interpolation point that calculateInterpolationPoints
    returns lies below maxCardinality, and the tick it drops from the front
    is the tick [0]. *)
Theorem interpolation_points_in_range
    (maxCardinality initialStep : Z) (stepRate : spec_float)
    (fuel : nat) (ticks : list Z) :
  calculateInterpolationPoints maxCardinality initialStep stepRate fuel = Some (Ok ticks) ->
  walk_run maxCardinality stepRate fuel (walk_init maxCardinality initialStep)
    = Some (Done (0 :: ticks)) /\
  Forall (fun t => 0 <= t < maxCardinality) ticks.
Proof. apply calculateInterpolationPoints_Ok. Qed.

Lemma interpolation_points_in_range_witness :
  walk_run 100 Float64.two 30 (walk_init 100 1)
    = Some (Done (0 :: [1; 2; 3; 4; 5; 6; 7; 8; 9; 10; 11; 13; 15; 17; 19; 21; 25; 29;
                        33; 41; 57; 89])) /\
  Forall (fun t => 0 <= t < 100)
    [1; 2; 3; 4; 5; 6; 7; 8; 9; 10; 11; 13; 15; 17; 19; 21; 25; 29; 33; 41; 57; 89].
Proof.
  apply (interpolation_points_in_range 100 1 Float64.two 30). vm_compute. reflexivity.
Defined.

(** X17. With a step rate of one the step never changes: for an initial
    step below [2^53] and a maxCardinality the counter cannot wrap around,
    calculateInterpolationPoints returns, and the points are the multiples
    of the initial step strictly between [0] and maxCardinality,
    [(maxCardinality - 1) / initialStep] of them. *)
Theorem interpolation_points_at_unit_rate
    (maxCardinality initialStep : Z) (fuel : nat) :
  0 < initialStep < 2 ^ 53 -> 0 < maxCardinality ->
  maxCardinality + initialStep <= 2 ^ 64 ->
  let n := Z.to_nat ((maxCardinality - 1) / initialStep) in
  (n + 2 <= fuel)%nat ->
  calculateInterpolationPoints maxCardinality initialStep Float64.one fuel
  = Some (Ok (map (fun j => Z.of_nat j * initialStep) (seq 1 n))).
Proof.
  intros Hs Hmax Hwrap n Hfuel.
  assert (Hn : Z.of_nat n = (maxCardinality - 1) / initialStep).
  { unfold n. apply Z2Nat.id. apply Z.div_pos; lia. }
  pose proof (Z.mul_div_le (maxCardinality - 1) initialStep ltac:(lia)) as Hlo.
  pose proof (Z.mul_succ_div_gt (maxCardinality - 1) initialStep ltac:(lia)) as Hhi.
  rewrite <- Hn in Hlo, Hhi.
  assert (Hu : u64 initialStep = initialStep).
  { unfold u64. apply Z.mod_small. change (2 ^ 53) with 9007199254740992 in Hs.
    change (2 ^ 64) with 18446744073709551616. lia. }
  pose proof (walk_run_unit_rate maxCardinality initialStep Hs Hwrap (S n)
                (walk_init maxCardinality initialStep)) as Hrun.
  cbn [walk_init walk_step walk_i walk_ticks] in Hrun.
  specialize (Hrun Hu ltac:(lia) ltac:(lia) ltac:(intros; lia)).
  unfold calculateInterpolationPoints.
  replace fuel with (S (S n) + (fuel - S (S n)))%nat by lia.
  rewrite (walk_run_more _ _ _ _ _ _ Hrun).
  reflexivity.
Qed.

Lemma interpolation_points_at_unit_rate_witness :
  calculateInterpolationPoints 100 10 Float64.one 11
  = Some (Ok [10; 20; 30; 40; 50; 60; 70; 80; 90]).
Proof.
  apply (interpolation_points_at_unit_rate 100 10 11).
  - split; reflexivity.
  - reflexivity.
  - intros H; discriminate H.
  - apply Nat.le_refl.
Defined.

(** X18. The slice [ticks[1:]] panics only for a maxCardinality of zero:
    there the loop body never runs; for options that pass the checks of
    GenerateBiases the first tick is always there to be dropped, so a walk
    that ends gives a list of cardinalities. *)
Theorem interpolation_points_panic_only_at_zero :
  (forall initialStep stepRate fuel,
     calculateInterpolationPoints 0 initialStep stepRate (S fuel) = Some Panic) /\
  (forall options fuel ticks,
     validate_options false options = None ->
     walk_run (MaxCardinality options) (StepRate options) fuel
       (walk_init (MaxCardinality options) (InitialStep options)) = Some (Done ticks) ->
     exists rest,
       ticks = 0 :: rest /\
       GenerateBiases_cardinalities false options fuel = Some (Ok rest)).
Proof.
  split.
  - intros s r fuel. reflexivity.
  - intros o fuel ticks Hval Hrun.
    assert (Hmax : 0 < MaxCardinality o).
    { unfold validate_options in Hval.
      destruct (Z.leb_spec (MaxCardinality o) m) as [|Hm]; [discriminate|].
      rewrite m_value in Hm. lia. }
    destruct (walk_run_ticks _ _ _ _ _ Hrun) as (more & Hmore & _ & Hfirst);
      [cbn; lia|].
    cbn [walk_init walk_ticks walk_i app] in Hmore, Hfirst. subst more.
    destruct (Hfirst Hmax) as [rest ->]. exists rest. split; [reflexivity|].
    unfold GenerateBiases_cardinalities. rewrite Hval.
    unfold calculateInterpolationPoints. rewrite Hrun. reflexivity.
Qed.

Lemma interpolation_points_panic_only_at_zero_witness :
  exists rest,
    [0; 10000] = 0 :: rest /\
    GenerateBiases_cardinalities false
      {| MaxCardinality := m + 1; Repeats := 1; InitialStep := 10000;
         StepRate := Float64.one |} 3%nat = Some (Ok rest).
Proof.
  apply (proj2 interpolation_points_panic_only_at_zero
           {| MaxCardinality := m + 1; Repeats := 1; InitialStep := 10000;
              StepRate := Float64.one |} 3%nat).
  - reflexivity.
  - vm_compute. reflexivity.
Defined.

(** X19. GenerateBiases with [nil] options runs on the defaults
    (maxCardinality [7 * m], initial step [50], step rate [1.25]): they pass
    every check, and the walk over the interpolation points ends with 1037
    cardinalities in strictly ascending order, from [50] to [114572]. *)
Theorem default_options_interpolation_points :
  validate_options false (options_or_default None) = None /\
  exists ticks,
    GenerateBiases_cardinalities false (options_or_default None) 1039 = Some (Ok ticks) /\
    length ticks = 1037%nat /\ ascending ticks = true /\
    hd_error ticks = Some 50 /\ last ticks = Some 114572.
Proof.
  split; [reflexivity|].
  eexists. split; [vm_compute; reflexivity|].
  vm_compute. repeat split.
Qed.

(** ** The two fields of a hash *)

(** X20. getRegisterAndLeadingZeros splits a 64-bit hash into its top 14
    bits and the count of leading zeros of the other 50: the register is
    below [m], the count is [LeadingZeros64(remnant) - precision] with no
    wrap in the conversion to [uint8], it lies between 0 and 50, and it
    places the remnant: below [2^(50 - zeros)] and, unless it is zero, at
    least [2^(49 - zeros)]. *)
Theorem getRegisterAndLeadingZeros_splits_hash (hash : Z) :
  is_u64 hash ->
  let '(register, zeros) := getRegisterAndLeadingZeros hash in
  let rem := hash mod 2 ^ remnant in
  0 <= register < m /\
  hash = register * 2 ^ remnant + rem /\
  zeros = LeadingZeros rem - precision /\
  0 <= zeros <= remnant /\
  rem < 2 ^ (remnant - zeros) /\
  (zeros < remnant -> 2 ^ (remnant - 1 - zeros) <= rem).
Proof.
  intros Hh. rewrite (getRegisterAndLeadingZeros_fields hash Hh).
  change remnant with 50. change precision with 14.
  set (rem := hash mod 2 ^ 50). cbv zeta.
  assert (Hrem : 0 <= rem < 2 ^ 50) by (apply Z.mod_pos_bound; lia).
  pose proof (window_leading_zeros_Len 50 rem Hrem) as Hw.
  change (Z.of_nat 50) with 50 in Hw. rewrite Hw.
  pose proof (Len_below 50 rem ltac:(lia) Hrem) as HL.
  split; [apply register_index_range, Hh|].
  split; [unfold rem; pose proof (Z.div_mod hash (2 ^ 50)); lia|].
  split; [unfold LeadingZeros, uintSize; lia|].
  split; [lia|].
  unfold Len in *. destruct (Z.eqb_spec rem 0) as [H0|H0].
  - split; [rewrite H0; cbn; lia|]. intros; lia.
  - assert (Hpos : 0 < rem) by lia.
    pose proof (Z.log2_spec rem Hpos) as [Hlo Hhi].
    split.
    + replace (50 - (50 - (Z.log2 rem + 1))) with (Z.succ (Z.log2 rem)) by lia.
      exact Hhi.
    + intros _. replace (50 - 1 - (50 - (Z.log2 rem + 1))) with (Z.log2 rem) by lia.
      exact Hlo.
Qed.

Lemma getRegisterAndLeadingZeros_splits_hash_witness :
  let '(register, zeros) := getRegisterAndLeadingZeros (2 ^ 63 + 2 ^ 40) in
  let rem := (2 ^ 63 + 2 ^ 40) mod 2 ^ remnant in
  0 <= register < m /\
  2 ^ 63 + 2 ^ 40 = register * 2 ^ remnant + rem /\
  zeros = LeadingZeros rem - precision /\
  0 <= zeros <= remnant /\
  rem < 2 ^ (remnant - zeros) /\
  (zeros < remnant -> 2 ^ (remnant - 1 - zeros) <= rem).
Proof.
  apply (getRegisterAndLeadingZeros_splits_hash (2 ^ 63 + 2 ^ 40)).
  unfold is_u64. split; [intros H; discriminate H|reflexivity].
Defined.

(** ** The test sets of the bias generator *)

Section GenerateSetsFacts.
Variable Hash : list byte -> Z.
Variable fn : nat -> list byte.
Variable rangeOrder : nat -> gset Z -> list Z.
Variable maxCardinality : Z.
Hypothesis rangeOrder_enumerates : enumerates rangeOrder.
Hypothesis maxCardinality_u64 : 0 <= maxCardinality < 2 ^ 64.

Lemma fill_uniques_result (fuel : nat) :
  forall calls uniques total calls' uniques',
  fill_uniques Hash fn maxCardinality fuel calls uniques total = Some (calls', uniques') ->
  total = Z.of_nat (size uniques) -> total <= maxCardinality ->
  (forall h, h ∈ uniques -> exists n, (n < calls)%nat /\ h = Hash (fn n)) ->
  Z.of_nat (size uniques') = maxCardinality /\
  (calls <= calls')%nat /\
  (forall h, h ∈ uniques' -> exists n, (n < calls')%nat /\ h = Hash (fn n)).
Proof.
  induction fuel as [|f IH]; intros calls uniques total calls' uniques' H Ht Hle Hin;
    cbn [fill_uniques] in H;
    destruct (Z.ltb_spec total maxCardinality) as [Hlt|Hge]; try discriminate.
  - injection H as <- <-. repeat split; [lia|lia|exact Hin].
  - destruct (bool_decide_reflect (Hash (fn calls) ∈ uniques)) as [Hdup|Hnew].
    + destruct (IH _ _ _ _ _ H Ht Hle) as (Hs & Hc & Hin').
      { intros h Hh. destruct (Hin h Hh) as (n & Hn & ->). exists n. split; [lia|reflexivity]. }
      repeat split; [exact Hs|lia|exact Hin'].
    + assert (Hu : u64 (total + 1) = total + 1).
      { unfold u64. apply Z.mod_small. lia. }
      rewrite Hu in H.
      destruct (IH _ _ _ _ _ H) as (Hs & Hc & Hin').
      { rewrite size_union by (apply disjoint_singleton_l; exact Hnew).
        rewrite size_singleton. lia. }
      { lia. }
      { intros h Hh. apply elem_of_union in Hh as [Hh|Hh].
        - apply elem_of_singleton in Hh as ->. exists calls. split; [lia|reflexivity].
        - destruct (Hin h Hh) as (n & Hn & ->). exists n. split; [lia|reflexivity]. }
      repeat split; [exact Hs|lia|exact Hin'].
  - injection H as <- <-. repeat split; [lia|lia|exact Hin].
Qed.

Lemma generate_loop_result (fuel left : nat) :
  forall i calls sets sets',
  generate_loop Hash fn rangeOrder maxCardinality fuel left i calls sets = Some sets' ->
  exists more,
    sets' = sets ++ more /\ length more = left /\
    Forall (fun set => Z.of_nat (length set) = maxCardinality /\ NoDup set /\
                       forall h, h ∈ set -> exists n, h = Hash (fn n)) more.
Proof.
  induction left as [|left IH]; intros i calls sets sets' H; cbn [generate_loop] in H.
  - injection H as <-. exists []. rewrite app_nil_r. repeat split. constructor.
  - destruct (fill_uniques Hash fn maxCardinality fuel calls ∅ 0)
      as [[calls' uniques]|] eqn:Hf; [|discriminate].
    destruct (fill_uniques_result _ _ _ _ _ _ Hf) as (Hs & _ & Hin).
    { rewrite size_empty. reflexivity. }
    { lia. }
    { intros h Hh. apply elem_of_empty in Hh. contradiction. }
    destruct (IH _ _ _ _ H) as (more & -> & Hl & Hall).
    exists (rangeOrder i uniques :: more). rewrite <- app_assoc.
    split; [reflexivity|]. split; [cbn; lia|].
    constructor; [|exact Hall].
    destruct (rangeOrder_enumerates i uniques) as [Hnd Hel].
    repeat split.
    + rewrite <- Hs. f_equal.
      unfold size, set_size. cbn.
      apply Permutation_length. apply NoDup_Permutation; [exact Hnd|apply NoDup_elements|].
      intros x. rewrite Hel, elem_of_elements. reflexivity.
    + exact Hnd.
    + intros h Hh. apply Hel in Hh. destruct (Hin h Hh) as (n & _ & ->). exists n. reflexivity.
Qed.

End GenerateSetsFacts.

Lemma fill_uniques_starved (Hash : list byte -> Z) (fn : nat -> list byte)
    (maxCardinality : Z) (V : gset Z) (fuel : nat) :
  (forall n, Hash (fn n) ∈ V) -> Z.of_nat (size V) < maxCardinality ->
  maxCardinality < 2 ^ 64 ->
  forall calls uniques total,
  uniques ⊆ V -> total = Z.of_nat (size uniques) ->
  fill_uniques Hash fn maxCardinality fuel calls uniques total = None.
Proof.
  intros HV Hsize Hmax.
  induction fuel as [|f IH]; intros calls uniques total Hsub Ht; cbn [fill_uniques].
  - pose proof (subseteq_size _ _ Hsub).
    destruct (Z.ltb_spec total maxCardinality); [reflexivity|lia].
  - pose proof (subseteq_size _ _ Hsub).
    destruct (Z.ltb_spec total maxCardinality) as [Hlt|]; [|lia].
    destruct (bool_decide_reflect (Hash (fn calls) ∈ uniques)) as [Hdup|Hnew].
    + apply IH; assumption.
    + apply IH.
      * apply union_subseteq. split; [|exact Hsub].
        apply singleton_subseteq_l, HV.
      * rewrite size_union by (apply disjoint_singleton_l; exact Hnew).
        rewrite size_singleton.
        unfold u64. rewrite Z.mod_small by lia. lia.
Qed.

Section DistinctHashes.
Variable Hash : list byte -> Z.
Variable fn : nat -> list byte.
Variable rangeOrder : nat -> gset Z -> list Z.
Variable maxCardinality : Z.
Hypothesis Hash_distinct : forall i j, Hash (fn i) = Hash (fn j) -> i = j.
Hypothesis maxCardinality_u64 : 0 <= maxCardinality < 2 ^ 64.

Lemma fill_uniques_distinct (k : nat) :
  forall fuel calls uniques total,
  (k <= fuel)%nat -> total + Z.of_nat k = maxCardinality -> 0 <= total ->
  (forall h, h ∈ uniques -> exists n, (n < calls)%nat /\ h = Hash (fn n)) ->
  fill_uniques Hash fn maxCardinality fuel calls uniques total
  = Some ((calls + k)%nat,
          list_to_set (map (fun n => Hash (fn n)) (seq calls k)) ∪ uniques).
Proof.
  induction k as [|k IH]; intros fuel calls uniques total Hfuel Hk Ht Hin.
  - assert (E : fill_uniques Hash fn maxCardinality fuel calls uniques total
                = Some (calls, uniques)).
    { destruct fuel; cbn [fill_uniques];
        rewrite (proj2 (Z.ltb_ge _ _)) by lia; reflexivity. }
    rewrite E, Nat.add_0_r. cbn [seq map list_to_set].
    rewrite (left_id_L ∅ (∪)). reflexivity.
  - destruct fuel as [|f]; [lia|]. cbn [fill_uniques].
    rewrite (proj2 (Z.ltb_lt _ _)) by lia.
    destruct (bool_decide_reflect (Hash (fn calls) ∈ uniques)) as [Hdup|Hnew].
    { destruct (Hin _ Hdup) as (n & Hn & He). apply Hash_distinct in He. lia. }
    assert (Hu : u64 (total + 1) = total + 1).
    { unfold u64. apply Z.mod_small. lia. }
    rewrite Hu, (IH f (S calls)); [| lia | lia | lia |].
    + f_equal. f_equal; [lia|]. cbn [seq map list_to_set].
      set (A := list_to_set (map (fun n => Hash (fn n)) (seq (S calls) k)) : gset Z).
      rewrite (assoc_L (∪) A {[Hash (fn calls)]} uniques),
              (comm_L (∪) A {[Hash (fn calls)]}).
      reflexivity.
    + intros h Hh. apply elem_of_union in Hh as [Hh|Hh].
      * apply elem_of_singleton in Hh as ->. exists calls. split; [lia|reflexivity].
      * destruct (Hin h Hh) as (n & Hn & ->). exists n. split; [lia|reflexivity].
Qed.

Lemma generate_loop_distinct (fuel left : nat) :
  (Z.to_nat maxCardinality <= fuel)%nat ->
  forall i sets,
  generate_loop Hash fn rangeOrder maxCardinality fuel left i
    (i * Z.to_nat maxCardinality) sets
  = Some (sets ++
          map (fun r => rangeOrder r
                 (list_to_set (map (fun n => Hash (fn n))
                                   (seq (r * Z.to_nat maxCardinality)
                                        (Z.to_nat maxCardinality)))))
              (seq i left)).
Proof.
  intros Hfuel. induction left as [|left IH]; intros i sets; cbn [generate_loop].
  - cbn. rewrite app_nil_r. reflexivity.
  - rewrite (fill_uniques_distinct (Z.to_nat maxCardinality)); [|exact Hfuel|lia|lia|].
    + rewrite (right_id_L ∅ (∪)).
      replace (i * Z.to_nat maxCardinality + Z.to_nat maxCardinality)%nat
        with (S i * Z.to_nat maxCardinality)%nat by lia.
      rewrite IH, <- app_assoc. reflexivity.
    + intros h Hh. apply elem_of_empty in Hh. contradiction.
Qed.
End DistinctHashes.

Lemma storedOrder_enumerates : enumerates storedOrder.
Proof.
  intros i X. split; [apply NoDup_elements|]. intros x. apply elem_of_elements.
Qed.

Lemma lengthHash_distinct (i j : nat) :
  lengthHash (unarySampler i) = lengthHash (unarySampler j) -> i = j.
Proof. unfold lengthHash, unarySampler. rewrite !length_replicate. lia. Qed.

(** X21. What generateSets returns, when it returns: [repeats] sets, each
    holding exactly maxCardinality hashes of values the sampler produced,
    no hash twice within a set. *)
Theorem generateSets_shape
    (Hash : list byte -> Z) (fn : nat -> list byte)
    (rangeOrder : nat -> gset Z -> list Z)
    (maxCardinality repeats : Z) (fuel : nat) (sets : list (list Z)) :
  enumerates rangeOrder ->
  0 <= maxCardinality < 2 ^ 64 ->
  generateSets Hash fn rangeOrder maxCardinality repeats fuel = Some sets ->
  length sets = Z.to_nat repeats /\
  Forall (fun set => Z.of_nat (length set) = maxCardinality /\ NoDup set /\
                     forall h, h ∈ set -> exists n, h = Hash (fn n)) sets.
Proof.
  intros He Hm H. unfold generateSets in H.
  destruct (generate_loop_result Hash fn rangeOrder maxCardinality He Hm _ _ _ _ _ _ H)
    as (more & -> & Hl & Hall).
  split; [exact Hl|exact Hall].
Qed.

Lemma generateSets_shape_witness :
  length [[2; 1; 0]; [5; 3; 4]] = Z.to_nat 2 /\
  Forall (fun set => Z.of_nat (length set) = 3 /\ NoDup set /\
                     forall h, h ∈ set -> exists n, h = lengthHash (unarySampler n))
         [[2; 1; 0]; [5; 3; 4]].
Proof.
  apply (generateSets_shape lengthHash unarySampler storedOrder 3 2 3).
  - exact storedOrder_enumerates.
  - split; [intros H; discriminate H|reflexivity].
  - vm_compute. reflexivity.
Defined.

(** X22. The warning of GenerateBiases, made exact: when the hashes of
    everything the sampler ever returns take fewer than maxCardinality
    distinct values, generateSets does not return, however many calls it is
    allowed; a single repeat is enough for that. *)
Theorem generateSets_never_returns
    (Hash : list byte -> Z) (fn : nat -> list byte)
    (rangeOrder : nat -> gset Z -> list Z)
    (maxCardinality repeats : Z) (V : gset Z) :
  (forall n, Hash (fn n) ∈ V) -> Z.of_nat (size V) < maxCardinality ->
  maxCardinality < 2 ^ 64 -> 0 < repeats ->
  forall fuel, generateSets Hash fn rangeOrder maxCardinality repeats fuel = None.
Proof.
  intros HV Hsize Hmax Hr fuel. unfold generateSets.
  destruct (Z.to_nat repeats) as [|left] eqn:E; [lia|].
  cbn [generate_loop].
  rewrite (fill_uniques_starved Hash fn maxCardinality V fuel HV Hsize Hmax); [reflexivity| |].
  - apply empty_subseteq.
  - rewrite size_empty. reflexivity.
Qed.

Lemma generateSets_never_returns_witness :
  generateSets lengthHash constantSampler storedOrder 2 1 1000 = None.
Proof.
  apply (generateSets_never_returns lengthHash constantSampler storedOrder 2 1 {[0]}).
  - intros n. apply elem_of_singleton. reflexivity.
  - rewrite size_singleton. reflexivity.
  - reflexivity.
  - reflexivity.
Defined.

(** X23. With a sampler whose values all hash differently, generateSets
    returns after maxCardinality calls per set: set [r] holds the hashes of
    the calls [r * maxCardinality] up to [(r + 1) * maxCardinality - 1], in
    the order the map yields them. *)
Theorem generateSets_returns_on_distinct_hashes
    (Hash : list byte -> Z) (fn : nat -> list byte)
    (rangeOrder : nat -> gset Z -> list Z)
    (maxCardinality repeats : Z) (fuel : nat) :
  (forall i j, Hash (fn i) = Hash (fn j) -> i = j) ->
  0 <= maxCardinality < 2 ^ 64 ->
  (Z.to_nat maxCardinality <= fuel)%nat ->
  generateSets Hash fn rangeOrder maxCardinality repeats fuel
  = Some (map (fun r => rangeOrder r
                 (list_to_set (map (fun n => Hash (fn n))
                                   (seq (r * Z.to_nat maxCardinality)
                                        (Z.to_nat maxCardinality)))))
              (seq 0 (Z.to_nat repeats))).
Proof.
  intros Hd Hm Hfuel. unfold generateSets.
  exact (generate_loop_distinct Hash fn rangeOrder maxCardinality Hd Hm fuel
           (Z.to_nat repeats) Hfuel 0%nat []).
Qed.

Lemma generateSets_returns_on_distinct_hashes_witness :
  generateSets lengthHash unarySampler storedOrder 3 2 3
  = Some (map (fun r => storedOrder r
                 (list_to_set (map (fun n => lengthHash (unarySampler n))
                                   (seq (r * Z.to_nat 3) (Z.to_nat 3)))))
              (seq 0 (Z.to_nat 2))).
Proof.
  apply (generateSets_returns_on_distinct_hashes lengthHash unarySampler storedOrder 3 2 3).
  - exact lengthHash_distinct.
  - split; [intros H; discriminate H|reflexivity].
  - apply Nat.le_refl.
Defined.

(** ** The raw estimate is at least the number of touched registers *)

Lemma at_least_digits (t mm e : Z) :
  1 <= t -> at_least t mm e -> 1 <= Zdigits2 mm + e.
Proof.
  intros Ht (Hm & Hneg & Hpos).
  destruct (Zdigits2_pos_bounds mm ltac:(lia)) as (Hd & Hdl & Hdu).
  destruct (Z.le_gt_cases e 0) as [Hle|Hgt]; [|lia].
  specialize (Hneg Hle).
  assert (HP : 0 < 2 ^ (- e)) by (apply Z.pow_pos_nonneg; lia).
  assert (H : 2 ^ (- e) < 2 ^ Zdigits2 mm) by nia.
  apply pow2_lt_inv in H; lia.
Qed.

Lemma shr_fexp_at_least_count (t mm e : Z) (l : location) (mrs : shr_record) (e' : Z) :
  1 <= t <= 2 ^ 52 -> at_least t mm e ->
  shr_fexp 53 1024 mm e l = (mrs, e') ->
  at_least t (shr_m mrs) e' /\
  at_least t (round_nearest_even (shr_m mrs) (loc_of_shr_record mrs)) e'.
Proof.
  intros Ht Hin Hshr.
  pose proof (at_least_digits t mm e ltac:(lia) Hin) as Hmag.
  destruct Hin as (Hm & Hneg & Hpos).
  destruct (Zdigits2_pos_bounds mm ltac:(lia)) as (Hd & Hdl & Hdu).
  destruct (shr_fexp_shift mm e l mrs e' ltac:(lia) Hshr)
    as (n & Hn0 & -> & Hn & Hm1 & Hsame & _).
  rewrite fexp64 in Hn.
  pose proof (round_nearest_even_range (shr_m mrs) (loc_of_shr_record mrs)) as Hround.
  assert (Hfloor : at_least t (shr_m mrs) (e + n)).
  { destruct (Z.eq_dec n 0) as [->|Hnz].
    - rewrite (Hsame eq_refl), Z.add_0_r.
      replace (shr_m (shr_record_of_loc mm l)) with mm by (destruct l as [|[]]; reflexivity).
      repeat split; assumption.
    - assert (Hnd : n = Zdigits2 mm - 53) by lia.
      assert (HP : 0 < 2 ^ n) by (apply Z.pow_pos_nonneg; lia).
      assert (H52 : 2 ^ 52 <= mm / 2 ^ n).
      { apply Z.div_le_lower_bound; [lia|].
        replace (Zdigits2 mm - 1) with (n + 52) in Hdl by lia.
        rewrite Z.pow_add_r in Hdl by lia. lia. }
      rewrite Hm1. repeat split.
      + change (2 ^ 52) with 4503599627370496 in H52. lia.
      + intros Hle. apply Z.div_le_lower_bound; [lia|].
        specialize (Hneg ltac:(lia)).
        replace (- e) with (n + - (e + n)) in Hneg by lia.
        rewrite Z.pow_add_r in Hneg by lia. lia.
      + intros Hgt. assert (0 < 2 ^ (e + n)) by (apply Z.pow_pos_nonneg; lia).
        change (2 ^ 52) with 4503599627370496 in *. nia. }
  split; [exact Hfloor|].
  destruct Hfloor as (Hf1 & Hf2 & Hf3). repeat split; [lia| |].
  - intros Hle. specialize (Hf2 Hle). lia.
  - intros Hgt. specialize (Hf3 Hgt).
    assert (0 < 2 ^ (e + n)) by (apply Z.pow_pos_nonneg; lia). nia.
Qed.

Lemma binary_round_aux_at_least_count (t mm e : Z) (l : location) :
  1 <= t <= 2 ^ 52 -> at_least t mm e ->
  match binary_round_aux 53 1024 false mm e l with
  | S754_finite false m3 e3 => at_least t (Z.pos m3) e3
  | S754_infinity _ => True
  | _ => False
  end.
Proof.
  intros Ht Hin. unfold binary_round_aux.
  destruct (shr_fexp 53 1024 mm e l) as [mrs' e'] eqn:H1.
  destruct (shr_fexp_at_least_count _ _ _ _ _ _ Ht Hin H1) as [_ Hround].
  destruct (shr_fexp 53 1024 _ e' loc_Exact) as [mrs'' e''] eqn:H2.
  destruct (shr_fexp_at_least_count _ _ _ _ _ _ Ht Hround H2) as [Hfinal _].
  destruct (shr_m mrs'') as [|m3|m3] eqn:Hm3.
  - destruct Hfinal; lia.
  - destruct (e'' <=? 1024 - 53); [exact Hfinal | exact I].
  - destruct Hfinal; lia.
Qed.

Lemma to_uint64_at_least_count (t : Z) (mm : positive) (e r : Z) :
  at_least t (Z.pos mm) e ->
  Float64.to_uint64 (S754_finite false mm e) = Some r -> t <= r.
Proof.
  intros (Hm & Hneg & Hpos). unfold Float64.to_uint64, Float64.trunc.
  destruct (Z.leb_spec 0 e) as [Hge|Hlt].
  - destruct (_ && _); [|discriminate]. intros [= <-].
    destruct (Z.eq_dec e 0) as [->|Hne].
    + specialize (Hneg ltac:(lia)). cbn in Hneg. rewrite Z.pow_0_r. lia.
    + apply Hpos. lia.
  - destruct (_ && _); [|discriminate]. intros [= <-].
    specialize (Hneg ltac:(lia)).
    assert (0 < 2 ^ (- e)) by (apply Z.pow_pos_nonneg; lia).
    apply Z.div_le_lower_bound; lia.
Qed.

Lemma div_at_least_count (k : Z) (mn ms : positive) (en es : Z) :
  1 <= k <= 2 ^ 14 ->
  2 ^ 52 <= Z.pos mn < 2 ^ 53 -> -53 <= en <= -25 ->
  k * k * 2 ^ 53 <= Z.pos mn * 2 ^ (en + 54) ->
  in_sum_range k (Z.pos ms) es ->
  match Float64.div (S754_finite false mn en) (S754_finite false ms es) with
  | S754_finite false m3 e3 => at_least k (Z.pos m3) e3
  | S754_infinity _ => True
  | _ => False
  end.
Proof.
  intros Hk Hmn Hen Hnum Hin.
  pose proof (in_sum_range_magnitude k _ _ Hk Hin) as Hmag.
  destruct Hin as (_ & Hes & Hlo & Hhi).
  destruct (Zdigits2_pos_bounds (Z.pos ms) ltac:(lia)) as (Hd2 & Hd2l & Hd2u).
  destruct (Zdigits2_pos_bounds (Z.pos mn) ltac:(lia)) as (Hd1 & Hd1l & Hd1u).
  assert (Hd1v : Zdigits2 (Z.pos mn) = 53).
  { assert (H1 : 2 ^ (Zdigits2 (Z.pos mn) - 1) < 2 ^ 53) by lia.
    assert (H2 : 2 ^ 52 < 2 ^ Zdigits2 (Z.pos mn)) by lia.
    apply pow2_lt_inv in H1; [|lia]. apply pow2_lt_inv in H2; lia. }
  set (d2 := Zdigits2 (Z.pos ms)) in *.
  unfold Float64.div, SFdiv. cbn [xorb].
  unfold SFdiv_core_binary. rewrite Hd1v. fold d2. rewrite fexp64.
  replace (Z.min (Z.max (53 + en - (d2 + es) - 53) (-1074)) (en - es))
    with (en - es - d2) by lia.
  replace (en - es - (en - es - d2)) with d2 by lia.
  assert (Hshift : match d2 with
                   | 0 => Z.pos mn
                   | Z.pos _ => Z.shiftl (Z.pos mn) d2
                   | Z.neg _ => 0
                   end = Z.pos mn * 2 ^ d2).
  { destruct d2 as [|p|p] eqn:Hd2e; try lia. apply Z.shiftl_mul_pow2. lia. }
  rewrite Hshift.
  assert (HP : 0 < 2 ^ d2) by (apply Z.pow_pos_nonneg; lia).
  destruct (Z.div_eucl (Z.pos mn * 2 ^ d2) (Z.pos ms)) as [q r] eqn:Hdiv.
  assert (Hq : q = Z.pos mn * 2 ^ d2 / Z.pos ms).
  { unfold Z.div. rewrite Hdiv. reflexivity. }
  assert (Hq52 : 2 ^ 52 <= q).
  { rewrite Hq. apply Z.div_le_lower_bound; [lia|].
    transitivity (2 ^ d2 * 2 ^ 52); [|rewrite (Z.mul_comm (Z.pos mn))];
      apply Z.mul_le_mono_nonneg; lia. }
  apply binary_round_aux_at_least_count.
  { change (2 ^ 14) with 16384 in Hk. change (2 ^ 52) with 4503599627370496. lia. }
  repeat split.
  - change (2 ^ 52) with 4503599627370496 in Hq52. lia.
  - intros Hle. rewrite Hq. apply Z.div_le_lower_bound; [lia|].
    set (t := - (en - es - d2)) in *.
    assert (Ht : 0 <= t) by (unfold t; lia).
    assert (HA : 0 < 2 ^ (en + 1074)) by (apply Z.pow_pos_nonneg; lia).
    assert (E1 : 2 ^ t * 2 ^ (en + 1074) = 2 ^ (es + 1074) * 2 ^ d2).
    { rewrite <- !Z.pow_add_r by lia. f_equal. unfold t. lia. }
    assert (E2 : 2 ^ (en + 54) * 2 ^ 1020 = 2 ^ (en + 1074)).
    { rewrite <- Z.pow_add_r by lia. f_equal. lia. }
    assert (E3 : 2 ^ 53 * 2 ^ 1020 = 2 ^ 1073) by reflexivity.
    assert (H1020 : 0 < 2 ^ 1020) by (apply Z.pow_pos_nonneg; lia).
    assert (H : Z.pos ms * (k * 2 ^ t) * 2 ^ (en + 1074)
                <= Z.pos mn * 2 ^ d2 * 2 ^ (en + 1074)).
    { transitivity (k * 2 ^ d2 * (Z.pos ms * 2 ^ (es + 1074))).
      - rewrite <- Z.mul_assoc, <- (Z.mul_assoc k), E1. lia.
      - transitivity (k * 2 ^ d2 * (k * 2 ^ 1073)); [apply Z.mul_le_mono_nonneg_l; lia|].
        rewrite <- E2, <- E3.
        assert (k * k * 2 ^ 53 * 2 ^ 1020 <= Z.pos mn * 2 ^ (en + 54) * 2 ^ 1020)
          by (apply Z.mul_le_mono_nonneg_r; lia).
        nia. }
    apply Z.mul_le_mono_pos_r in H; [exact H|exact HA].
  - intros Hgt. assert (0 < 2 ^ (en - es - d2)) by (apply Z.pow_pos_nonneg; lia).
    change (2 ^ 14) with 16384 in Hk. change (2 ^ 52) with 4503599627370496 in Hq52.
    nia.
Qed.

Lemma numerators_checked :
  check_from (fun k => numerator_in_range k
                         (Float64.mul (Float64.mul (alpha (fun _ => ln2)) (Float64.of_Z k))
                                      (Float64.of_Z k)))
             (Z.to_nat 16384) 1 = true.
Proof. vm_compute. reflexivity. Qed.

Lemma numerator_range (Log : spec_float -> spec_float) (k : Z) :
  Log Float64.two = ln2 -> 1 <= k <= 16384 ->
  exists mn en,
    Float64.mul (Float64.mul (alpha Log) (Float64.of_Z k)) (Float64.of_Z k)
    = S754_finite false mn en /\
    2 ^ 52 <= Z.pos mn < 2 ^ 53 /\ -53 <= en <= -25 /\
    k * k * 2 ^ 53 <= Z.pos mn * 2 ^ (en + 54).
Proof.
  intros HLog Hk.
  pose proof (check_from_sound _ _ 1 numerators_checked k ltac:(lia)) as H.
  cbv beta in H.
  replace (alpha Log) with (alpha (fun _ => ln2)) by (unfold alpha; rewrite HLog; reflexivity).
  destruct (Float64.mul _ _) as [sg|sg| |sg mn en]; try discriminate.
  destruct sg; [discriminate|]. cbn [numerator_in_range] in H.
  apply andb_prop in H as [H H5]. apply andb_prop in H as [H H4].
  apply andb_prop in H as [H H3]. apply andb_prop in H as [H1 H2].
  apply Z.leb_le in H1, H3, H4, H5. apply Z.ltb_lt in H2.
  exists mn, en. repeat split; assumption.
Qed.

Lemma nonzero_registers_range (rs : list Z) :
  Forall is_u8 rs -> Forall (fun n => 1 <= n <= 255) (nonzero_registers rs).
Proof.
  unfold nonzero_registers.
  induction 1 as [|r rs Hr _ IH]; cbn [List.filter]; [constructor|].
  unfold is_u8 in Hr. destruct (Z.ltb_spec 0 r); [|exact IH].
  constructor; [lia|exact IH].
Qed.

(** X24. The raw estimate never falls below the number of touched
    registers: for a sketch of at most [m] byte registers, whatever
    rawHarmonicEstimate returns is at least the count of its non-zero
    registers. In particular it is not zero once a register is touched, so
    the bias [cardinality / rawEstimate] that GenerateBiases computes never
    divides by zero. *)
Theorem raw_estimate_at_least_touched
    (Log : spec_float -> spec_float) (s : sketch) (raw : Z) :
  Log Float64.two = ln2 ->
  Z.of_nat (length (registers s)) <= m -> Forall is_u8 (registers s) ->
  rawHarmonicEstimate Log s = Some raw ->
  count_nonzero (registers s) <= raw.
Proof.
  intros HLog Hlen Hu8.
  rewrite rawHarmonicEstimate_formula by exact Hlen.
  unfold raw_estimate_by_formula.
  pose proof (count_nonzero_range (registers s)) as Hc.
  rewrite m_value in Hlen.
  destruct (Z.eqb_spec (count_nonzero (registers s)) 0) as [->|Hne].
  { intros [= <-]. lia. }
  set (k := count_nonzero (registers s)) in *.
  assert (Hk : 1 <= k <= 16384) by lia.
  destruct (numerator_range Log k HLog Hk) as (mn & en & -> & Hmn & Hen & Hnum).
  pose proof (sum_after_fold (nonzero_registers (registers s))
                (nonzero_registers_range _ Hu8) 0 Float64.zero ltac:(lia)) as Hsum.
  fold (count_nonzero (registers s)) in Hsum. fold k in Hsum.
  specialize (Hsum ltac:(change (2 ^ 14) with 16384; lia)
                   (or_introl (conj eq_refl eq_refl))).
  unfold harmonic_sum.
  destruct Hsum as [[Hk0 _]|(_ & ms & es & -> & Hin)]; [lia|].
  rewrite Z.add_0_l in Hin.
  pose proof (div_at_least_count k mn ms en es
                ltac:(change (2 ^ 14) with 16384; lia) Hmn Hen Hnum Hin) as Hdiv.
  destruct (Float64.div _ _) as [sg|sg| |sg m3 e3]; try contradiction.
  - discriminate.
  - destruct sg; [contradiction|]. apply to_uint64_at_least_count. exact Hdiv.
Qed.

Lemma raw_estimate_at_least_touched_witness :
  count_nonzero (registers touchedShortSketch) <= 1.
Proof.
  apply (raw_estimate_at_least_touched sampleLog touchedShortSketch 1).
  - reflexivity.
  - cbn. rewrite m_value. lia.
  - constructor; [unfold is_u8; lia|constructor].
  - vm_compute. reflexivity.
Defined.

(** ** GenerateBiases, the three stages together *)

Lemma addHash_all_total (hs : list Z) :
  Forall is_u64 hs ->
  forall s, length (registers s) = Z.to_nat m ->
  exists s', addHash_all s hs = Some s' /\ length (registers s') = Z.to_nat m.
Proof.
  unfold addHash_all.
  induction 1 as [|h hs Hh _ IH]; intros s Hs; [exists s; split; [reflexivity|exact Hs]|].
  cbn [foldl]. rewrite (addHash_bump s h Hh).
  pose proof (hash_index_range h Hh) as Hi.
  destruct (lookup_lt_is_Some_2 (registers s) (hash_index h)) as [r Hr];
    [rewrite Hs; exact Hi|].
  unfold bump. rewrite Hr. cbn [fmap option_fmap option_map].
  apply IH. cbn [registers set_registers]. rewrite length_insert. exact Hs.
Qed.

Section GenerateBiasesFacts.
Variable Log : spec_float -> spec_float.
Variable defaultBiases : biases.
Variable sets : list (list Z).
Variable repeats : Z.
Variable maxCardinality : Z.
Hypothesis sets_length : length sets = Z.to_nat repeats.
Hypothesis sets_shape :
  Forall (fun set => Z.of_nat (length set) = maxCardinality /\ Forall is_u64 set) sets.

Lemma run_trial_in_range (cardinality : Z) (r : nat) :
  0 <= cardinality < maxCardinality -> (r < Z.to_nat repeats)%nat ->
  is_out_of_range (run_trial Log defaultBiases sets cardinality r) = false.
Proof.
  intros Hc Hr. unfold run_trial.
  destruct (lookup_lt_is_Some_2 sets r) as [set Hset]; [rewrite sets_length; exact Hr|].
  rewrite Hset.
  destruct (proj1 (Forall_lookup _ _) sets_shape r set Hset) as [Hlen Hu].
  rewrite (proj2 (Z.ltb_ge _ _)) by lia.
  destruct (addHash_all_total (take (Z.to_nat cardinality) set) (Forall_take _ _ _ Hu)
              (createSketch defaultBiases) (length_replicate _ _)) as (s & -> & _).
  destruct (rawHarmonicEstimate Log s); reflexivity.
Qed.

Lemma bias_at_in_range (cardinality : Z) :
  0 <= cardinality < maxCardinality ->
  exists b, bias_at Log defaultBiases sets repeats cardinality = Ok b /\
            forall e, b = Some e -> TrueCardinality e = cardinality.
Proof.
  intros Hc. unfold bias_at.
  assert (E : existsb is_out_of_range
                (map (run_trial Log defaultBiases sets cardinality)
                     (seq 0 (Z.to_nat repeats))) = false).
  { apply Bool.not_true_is_false. intros H.
    apply existsb_exists in H as (t & Hin & Ht).
    apply in_map_iff in Hin as (r & <- & Hr). apply in_seq in Hr.
    rewrite run_trial_in_range in Ht; [discriminate|exact Hc|lia]. }
  rewrite E. eexists. split; [reflexivity|].
  intros e He. destruct (measured _); [|discriminate].
  injection He as <-. reflexivity.
Qed.

Lemma GenerateBiases_results_in_range (cardinalities : list Z) :
  Forall (fun c => 0 <= c < maxCardinality) cardinalities ->
  exists results,
    GenerateBiases_results Log defaultBiases sets repeats cardinalities = Ok results /\
    Forall2 (fun c b => forall e, b = Some e -> TrueCardinality e = c)
            cardinalities results.
Proof.
  induction 1 as [|c cs Hc _ IH]; cbn [GenerateBiases_results].
  - exists []. split; [reflexivity|constructor].
  - destruct (bias_at_in_range c Hc) as (b & -> & Hb).
    destruct IH as (bs & -> & Hbs).
    exists (b :: bs). split; [reflexivity|]. constructor; assumption.
Qed.
End GenerateBiasesFacts.

(** X25. GenerateBiases does not panic: when the walk over the
    interpolation points ends and generateSets returns, every slice
    [sets[r][0:cardinality]] is within its set and every hash finds its
    register, so the loop over the cardinalities runs to its end and gives
    one estimate per interpolation point, in order, each carrying its
    cardinality. *)
Theorem GenerateBiases_one_estimate_per_point
    (Hash : list byte -> Z) (fn : nat -> list byte)
    (rangeOrder : nat -> gset Z -> list Z)
    (Log : spec_float -> spec_float) (defaultBiases : biases)
    (options : GenerationOptions) (fuel : nat)
    (cardinalities : list Z) (sets : list (list Z)) :
  enumerates rangeOrder ->
  (forall e, is_u64 (Hash e)) ->
  0 <= MaxCardinality options < 2 ^ 64 ->
  calculateInterpolationPoints (MaxCardinality options) (InitialStep options)
    (StepRate options) fuel = Some (Ok cardinalities) ->
  generateSets Hash fn rangeOrder (MaxCardinality options) (Repeats options) fuel
    = Some sets ->
  exists results,
    GenerateBiases_work Hash fn rangeOrder Log defaultBiases options fuel
      = Some (Ok results) /\
    Forall2 (fun c b => forall e, b = Some e -> TrueCardinality e = c)
            cardinalities results /\
    (validate_options false options = None ->
     GenerateBiases Hash fn rangeOrder Log defaultBiases false (Some options) fuel
       = Some (Ok results)).
Proof.
  intros Henum Hu Hmax Hcards Hsets.
  destruct (calculateInterpolationPoints_Ok _ _ _ _ _ Hcards) as [_ Hbounds].
  unfold generateSets in Hsets.
  destruct (generate_loop_result Hash fn rangeOrder (MaxCardinality options)
              Henum Hmax _ _ _ _ _ _ Hsets) as (more & Hmore & Hlen & Hshape).
  cbn [app] in Hmore. subst more.
  assert (Hshape' : Forall (fun set => Z.of_nat (length set) = MaxCardinality options /\
                                       Forall is_u64 set) sets).
  { eapply Forall_impl; [exact Hshape|]. intros set (Hl & _ & Hin). split; [exact Hl|].
    apply Forall_forall. intros h Hh. destruct (Hin h Hh) as [n ->]. apply Hu. }
  destruct (GenerateBiases_results_in_range Log defaultBiases sets (Repeats options)
              (MaxCardinality options) Hlen Hshape' cardinalities Hbounds)
    as (results & Hres & Hall).
  assert (Hwork : GenerateBiases_work Hash fn rangeOrder Log defaultBiases options fuel
                  = Some (Ok results)).
  { unfold GenerateBiases_work, generateSets. rewrite Hcards, Hsets, Hres. reflexivity. }
  exists results. split; [exact Hwork|]. split; [exact Hall|].
  intros Hval. unfold GenerateBiases. cbn [options_or_default]. rewrite Hval. exact Hwork.
Qed.

Lemma GenerateBiases_one_estimate_per_point_witness :
  exists results,
    GenerateBiases_work sampleHash unarySampler storedOrder sampleLog testBiases
      smallOptions 20 = Some (Ok results) /\
    Forall2 (fun c b => forall e, b = Some e -> TrueCardinality e = c)
            [3; 6; 9] results /\
    (validate_options false smallOptions = None ->
     GenerateBiases sampleHash unarySampler storedOrder sampleLog testBiases
       false (Some smallOptions) 20 = Some (Ok results)).
Proof.
  apply (GenerateBiases_one_estimate_per_point sampleHash unarySampler storedOrder
           sampleLog testBiases smallOptions 20 [3; 6; 9] smallSets).
  - exact storedOrder_enumerates.
  - exact sampleHash_u64.
  - split; [intros H; discriminate H|reflexivity].
  - vm_compute. reflexivity.
  - vm_compute. reflexivity.
Defined.

(** ** The checks of GenerateBiases *)

Lemma validate_options_rejects (fn_nil : bool) (options : GenerationOptions) :
  (exists e, validate_options fn_nil options = Some e) <->
  fn_nil = true \/ MaxCardinality options <= m \/ Repeats options <= 0 \/
  InitialStep options <= 0 \/ Float64.leb (StepRate options) Float64.zero = true.
Proof.
  unfold validate_options.
  destruct fn_nil; [split; [auto|eauto]|].
  destruct (Z.leb_spec (MaxCardinality options) m) as [H1|H1]; [split; [auto|eauto]|].
  destruct (Z.leb_spec (Repeats options) 0) as [H2|H2]; [split; [auto|eauto]|].
  destruct (Z.leb_spec (InitialStep options) 0) as [H3|H3]; [split; [auto 6|eauto]|].
  destruct (Float64.leb (StepRate options) Float64.zero); [split; [auto 6|eauto]|].
  split; [intros [e He]; discriminate|].
  intros [H|[H|[H|[H|H]]]]; try discriminate; lia.
Qed.

Lemma GenerateBiases_results_no_error
    (Log : spec_float -> spec_float) (defaultBiases : biases)
    (sets : list (list Z)) (repeats : Z) (cardinalities : list Z) (e : error) :
  GenerateBiases_results Log defaultBiases sets repeats cardinalities <> Err e.
Proof.
  induction cardinalities as [|c cs IH]; cbn [GenerateBiases_results]; [discriminate|].
  unfold bias_at. destruct (existsb _ _); [discriminate|].
  destruct (GenerateBiases_results Log defaultBiases sets repeats cs);
    [discriminate|exact IH|discriminate].
Qed.

(** X26. GenerateBiases returns an error exactly when one of its five
    checks fails on the options in force (the defaults for [nil]): a [nil]
    sampler, a maxCardinality of at most [m], repeats or an initial step of
    at most zero, a step rate of at most zero. Nothing after the checks
    returns an error. *)
Theorem GenerateBiases_error_cases
    (Hash : list byte -> Z) (fn : nat -> list byte)
    (rangeOrder : nat -> gset Z -> list Z)
    (Log : spec_float -> spec_float) (defaultBiases : biases)
    (fn_nil : bool) (options : option GenerationOptions) (fuel : nat) :
  (exists e, GenerateBiases Hash fn rangeOrder Log defaultBiases fn_nil options fuel
             = Some (Err e)) <->
  fn_nil = true \/
  MaxCardinality (options_or_default options) <= m \/
  Repeats (options_or_default options) <= 0 \/
  InitialStep (options_or_default options) <= 0 \/
  Float64.leb (StepRate (options_or_default options)) Float64.zero = true.
Proof.
  rewrite <- validate_options_rejects. unfold GenerateBiases. cbv zeta.
  destruct (validate_options fn_nil (options_or_default options)) as [e|] eqn:Hval.
  - split; intros _; exists e; reflexivity.
  - split; [|intros [e He]; discriminate].
    intros [e He]. exfalso. unfold GenerateBiases_work in He.
    destruct (calculateInterpolationPoints _ _ _ fuel) as [[cards|e'|]|] eqn:Hc;
      try discriminate.
    + destruct (generateSets _ _ _ _ _ fuel) as [sets|]; [|discriminate].
      injection He as He. exact (GenerateBiases_results_no_error _ _ _ _ _ _ He).
    + unfold calculateInterpolationPoints in Hc.
      destruct (walk_run _ _ fuel _) as [[w|[|t tk]|]|]; discriminate.
Qed.
